(** * TrailTemps: point identity, id migration, normals aggregation, point index

    A shallow embedding of the TrailTemps scripts (the id migration
    [migrate-ids-at-main.js], [migrate-historical-ids-mixed.js],
    [normalize-points-mile-only.js], the aggregator
    [generate-missing-normals-at.js], the retry wrapper of
    [build_planning_normals.js]) and of the point index and the duration
    extremes of [js/app.js], followed by the properties of the specification
    that were checked against them.  It goes on to the runs of the three
    migration scripts as a whole, the daily averages of the aggregator, and
    the loader, the cache, the planning average and the start date of
    [js/app.js], with the properties that the code itself shows.

    Conventions of the embedding.
    - A JavaScript number is [num]: NaN, the two infinities, or a finite value
      given by the rational it equals.  An arithmetic result is the binary64
      number nearest to the exact result, a tie going to the even significand
      and a magnitude from the overflow threshold on to an infinity, as in
      IEEE 754.  The sign of zero is not kept.
    - A function that can throw returns a [result].
    - The two JSON stores are values of record types; a [Map] built during a
      run is a [gmap].  The data directory holds the two stores and the backup
      copies by file name; a run is given the time stamps that its calls of
      [timestampTag] read from the clock.
    - A date is the number of its day; a date string [YYYY-MM-DD] and a key
      [MM-DD] are the numbers they spell. *)

From Stdlib Require Import ZArith QArith Qround Qabs Qpower Qreduction Qminmax.
From Stdlib Require Qcanon.
From Stdlib Require Import Lqa Lia Bool List.
From Stdlib Require Import Ascii String DecimalString DecimalZ.
From stdpp Require Import gmap strings list fin_maps sorting.

Local Open Scope Z_scope.

(* ===================================================================== *)
(** ** JavaScript values *)
(* ===================================================================== *)

Module Js.

(** A number: NaN, +Infinity, -Infinity or a finite value. *)
Inductive num : Type :=
| NaN
| PInf
| NInf
| Fin (q : Q).

(** [floor(log2 q)] for a positive rational [q]. *)
Definition ilog2 (q : Q) : Z :=
  let e := Z.log2 (Qnum q) - Z.log2 (Zpos (Qden q)) in
  if Qle_bool (2 ^ e) q then e else e - 1.

(** The exponent of the unit in the last place of the binary64 numbers
    around [q]: 52 below the binary exponent of [q], and -1074 for the
    subnormal numbers. *)
Definition ulp_exponent (q : Q) : Z := Z.max (ilog2 (Qabs q)) (-1022) - 52.

(** The integer nearest to [m], a tie going to the even one. *)
Definition nearest_even (m : Q) : Z :=
  let f := Qfloor m in
  match (m - inject_Z f ?= 1 # 2)%Q with
  | Lt => f
  | Gt => f + 1
  | Eq => if Z.even f then f else f + 1
  end.

(** Rounding to nearest, ties to even, with a significand of 53 bits: the
    multiple of the unit in the last place nearest to [q], in lowest
    terms. *)
Definition round64 (q : Q) : Q :=
  let e := ulp_exponent q in
  Qred (inject_Z (nearest_even (q / 2 ^ e)) * 2 ^ e).

(** [q] is a binary64 number. *)
Definition binary64 (q : Q) : Prop := (round64 q == q)%Q.

(** The least magnitude that binary64 round-to-nearest sends to an
    infinity: 2^1024 - 2^970. *)
Definition OVERFLOW : Q := inject_Z (2 ^ 1024 - 2 ^ 970).

(** The number an exact finite result [q] becomes: the nearest binary64
    number, or an infinity from the overflow threshold on. *)
Definition fl (q : Q) : num :=
  if Qle_bool OVERFLOW q then PInf
  else if Qle_bool q (- OVERFLOW) then NInf
  else Fin (round64 q).

Definition Number_isFinite (x : num) : bool :=
  match x with Fin _ => true | _ => false end.

(** [x] is a number as an operation gives it: when finite, a binary64
    number within the range. *)
Definition double (x : num) : Prop :=
  match x with
  | Fin q => fl q = Fin q
  | _ => True
  end.

(** Sign of a rational as a comparison with zero. *)
Definition Qsign (q : Q) : comparison := (q ?= 0)%Q.

(** [x * y]. *)
Definition mul (x y : num) : num :=
  match x, y with
  | NaN, _ | _, NaN => NaN
  | Fin a, Fin b => fl (a * b)
  | Fin a, PInf | PInf, Fin a =>
      match Qsign a with Eq => NaN | Lt => NInf | Gt => PInf end
  | Fin a, NInf | NInf, Fin a =>
      match Qsign a with Eq => NaN | Lt => PInf | Gt => NInf end
  | PInf, PInf | NInf, NInf => PInf
  | PInf, NInf | NInf, PInf => NInf
  end.

(** [x + y]. *)
Definition add (x y : num) : num :=
  match x, y with
  | NaN, _ | _, NaN => NaN
  | Fin a, Fin b => fl (a + b)
  | PInf, NInf | NInf, PInf => NaN
  | PInf, _ | _, PInf => PInf
  | NInf, _ | _, NInf => NInf
  end.

(** [-x]. *)
Definition neg (x : num) : num :=
  match x with
  | NaN => NaN
  | PInf => NInf
  | NInf => PInf
  | Fin a => Fin (- a)
  end.

(** [x - y]. *)
Definition sub (x y : num) : num := add x (neg y).

(** [Math.abs(x)]. *)
Definition Math_abs (x : num) : num :=
  match x with
  | NaN => NaN
  | PInf | NInf => PInf
  | Fin a => Fin (Qabs a)
  end.

(** [Math.round(x)]: the nearest integer, a half rounding up. *)
Definition Math_round (x : num) : num :=
  match x with
  | Fin a => Fin (inject_Z (Qfloor (a + (1 # 2))))
  | _ => x
  end.

(** [x < y]. *)
Definition lt (x y : num) : bool :=
  match x, y with
  | NaN, _ | _, NaN => false
  | Fin a, Fin b => negb (Qle_bool b a)
  | NInf, NInf => false
  | NInf, _ => true
  | _, NInf => false
  | PInf, _ => false
  | Fin _, PInf => true
  end.

(** [x <= y]. *)
Definition le (x y : num) : bool :=
  match x, y with
  | NaN, _ | _, NaN => false
  | Fin a, Fin b => Qle_bool a b
  | NInf, _ => true
  | _, NInf => false
  | _, PInf => true
  | PInf, Fin _ => false
  end.

(** [x > y]. *)
Definition gt (x y : num) : bool := lt y x.

(** [x === y] on numbers. *)
Definition strict_eq (x y : num) : bool :=
  match x, y with
  | Fin a, Fin b => Qeq_bool a b
  | PInf, PInf | NInf, NInf => true
  | _, _ => false
  end.

(** [Math.min(x, y)]. *)
Definition Math_min (x y : num) : num :=
  match x, y with
  | NaN, _ | _, NaN => NaN
  | _, _ => if le x y then x else y
  end.

(** An integer as a number. *)
Definition of_Z (z : Z) : num := fl (inject_Z z).

(** [String(z)] for an integer: its decimal digits, with a minus sign when
    negative. *)
Definition String_of_Z (z : Z) : string := NilZero.string_of_int (Z.to_int z).

(** Whether the decimal numeral [v] reads back as the number [z]. *)
Definition reads_back (v z : Z) : bool :=
  Qeq_bool (round64 (inject_Z v)) (inject_Z z).

(** The numeral of [k] digits that reads back as [z], for a [z] of [n]
    decimal digits: its digits [s] and the number [n'] of digits of its
    value [s * 10 ^ (n' - k)]; of two such numerals the one nearer to [z],
    and the even one when they are as near. *)
Definition numeral (z : Z) (n k : nat) : option (Z * nat) :=
  let scale := 10 ^ Z.of_nat (n - k) in
  let lo := z / scale in
  let hi := lo + 1 in
  let below := (lo, n) in
  let above := if hi =? 10 ^ Z.of_nat k then (10 ^ Z.of_nat (k - 1), S n) else (hi, n) in
  match reads_back (lo * scale) z, reads_back (hi * scale) z with
  | true, true =>
      if z - lo * scale <? hi * scale - z then Some below
      else if hi * scale - z <? z - lo * scale then Some above
      else if Z.even lo then Some below else Some above
  | true, false => Some below
  | false, true => Some above
  | false, false => None
  end.

(** The shortest numeral that reads back as [z], looked for from [k]
    digits on: its digits, their number, and the number of digits of its
    value. *)
Fixpoint shortest (z : Z) (n fuel k : nat) : Z * nat * nat :=
  match fuel with
  | O => (z, n, n)
  | S fuel' =>
      match numeral z n k with
      | Some (s, n') => (s, k, n')
      | None => shortest z n fuel' (S k)
      end
  end.

(** [String(z)] for a binary64 number with an integral value [z] of 2^53
    or more: the digits of the shortest numeral that reads back as [z],
    followed by zeros below 10^21, and in exponent notation from there on. *)
Definition shortest_string (z : Z) : string :=
  let n := String.length (String_of_Z z) in
  let '(s, k, n') := shortest z n n 1 in
  let digits := String_of_Z s in
  if (n' <=? 21)%nat then digits +:+ String.concat "" (repeat "0"%string (n' - k))
  else
    match digits with
    | String d EmptyString => String d ("e+" +:+ String_of_Z (Z.of_nat n' - 1))
    | String d rest => String d ("." +:+ rest +:+ "e+" +:+ String_of_Z (Z.of_nat n' - 1))
    | EmptyString => digits
    end.

(** [String(z)] for a binary64 number with an integral value [z].  Below
    2^53 every integer is a binary64 number and the shortest numeral that
    reads back as [z] is [z] itself: all the digits are printed. *)
Definition String_of_integer (z : Z) : string :=
  if Z.abs z <? 2 ^ 53 then String_of_Z z
  else if z <? 0 then "-" +:+ shortest_string (- z)
  else shortest_string z.

(** [String(x)] for a number with an integral value. *)
Definition String_of_num (x : num) : string :=
  match x with
  | NaN => "NaN"
  | PInf => "Infinity"
  | NInf => "-Infinity"
  | Fin a => String_of_integer (Qfloor a)
  end.

(** [s.padStart(width, "0")]. *)
Definition padStart0 (s : string) (width : nat) : string :=
  String.concat "" (repeat "0"%string (width - String.length s)) +:+ s.

(** A property that may be missing ([undefined]), [null], or hold a value. *)
Inductive prop (A : Type) : Type :=
| Absent
| Null
| Val (a : A).
Arguments Absent {A}.
Arguments Null {A}.
Arguments Val {A} a.

(** [v != null]. *)
Definition not_nullish {A} (v : prop A) : bool :=
  match v with Val _ => true | _ => false end.

(** [v ?? d]. *)
Definition coalesce {A} (v : prop A) (d : A) : A :=
  match v with Val a => a | _ => d end.

(** [String(v)] of a string-valued property. *)
Definition String_of_prop (v : prop string) : string :=
  match v with
  | Absent => "undefined"
  | Null => "null"
  | Val s => s
  end.

End Js.

(* ===================================================================== *)
(** ** Exceptions *)
(* ===================================================================== *)

(** What a script throws.  An error carries the values its message is built
    from. *)
Inductive error : Type :=
| MissingFile (path : string)
| PointsNotArray
| MissingNumericMile (id : Js.prop string)
| BadMileValue (mile : Js.num)
| UnexpectedNormalsFormat
| DuplicateId (label id : string)
| NormalsRecordWithoutId
| NormalsNoMatchingPoint (id : string)
| PointMissingLegacyId (id : string)
| HistoricalNoMatch (id : string)
| NoValidMile (idx : nat) (id : Js.prop string)
| TypeError (what : string)
| HistNotObject
| NoDailyTime
| HttpError (status : Z)
| RetryExhausted.

Inductive result (A : Type) : Type :=
| Ok (a : A)
| Throw (e : error).
Arguments Ok {A} a.
Arguments Throw {A} e.

Definition bind {A B} (r : result A) (k : A -> result B) : result B :=
  match r with
  | Ok a => k a
  | Throw e => Throw e
  end.

Notation "'let!' x ':=' r 'in' k" := (bind r (fun x => k))
  (at level 10, x pattern, r at level 100, k at level 200).

(** [xs.map(f)] with a callback that can throw: the first exception ends
    the loop. *)
Fixpoint mapM {A B} (f : A -> result B) (xs : list A) : result (list B) :=
  match xs with
  | [] => Ok []
  | x :: xs' =>
      let! y := f x in
      let! ys := mapM f xs' in
      Ok (y :: ys)
  end.

(* ===================================================================== *)
(** ** Identity codec ([migrate-ids-at-main.js]) *)
(* ===================================================================== *)

Module Codec.
Import Js.

Definition TRAIL_CODE : string := "at".
Definition ALIGNMENT : string := "main".
Definition SCALE : num := Fin 1000.
Definition PAD_WIDTH : nat := 7.

(** [mileToToken(mile)], for a [mile] that is already a number, as
    [mileFromPoint] returns it: [Number(mile)] is [mile]. *)
Definition mileToToken (mile : num) : result string :=
  let n := Math_round (mul mile SCALE) in
  if negb (Number_isFinite n) then Throw (BadMileValue mile)
  else Ok (padStart0 (String_of_num n) PAD_WIDTH).

(** [toNewId(mile)]. *)
Definition toNewId (mile : num) : result string :=
  let! token := mileToToken mile in
  Ok (TRAIL_CODE +:+ "-" +:+ ALIGNMENT +:+ "-mi" +:+ token).

(** The integer [Math.round(mile * 1000)], when it is finite. *)
Definition scaled (mile : num) : option Z :=
  match Math_round (mul mile SCALE) with
  | Fin a => Some (Qfloor a)
  | _ => None
  end.

(** Reading a token back: the value of a string of decimal digits. *)
Definition token_value (s : string) : option Z :=
  option_map Z.of_uint (NilEmpty.uint_of_string s).

(** The fixed part of an id. *)
Definition prefix : string := "at-main-mi".

(** Whether the exact product [q * 1000] reaches the overflow threshold. *)
Definition overflows (q : Q) : bool :=
  Qle_bool OVERFLOW (q * 1000) || Qle_bool (q * 1000) (- OVERFLOW).

End Codec.

(* ===================================================================== *)
(** ** The two JSON stores *)
(* ===================================================================== *)

Module Store.
Import Js.

(** A property the scripts convert with [Number(...)]: missing
    ([undefined]), [null], the empty string, or a number.  These are the
    values the scripts tell apart; a store holds numbers there, and other
    strings are left out. *)
Inductive numField : Type :=
| FAbsent
| FNull
| FEmpty
| FNum (x : num).

(** [Number(f)]. *)
Definition Number_of (f : numField) : num :=
  match f with
  | FAbsent => NaN
  | FNull => Fin 0
  | FEmpty => Fin 0
  | FNum x => x
  end.

(** A number of a parsed file is a binary64 number. *)
Definition parsed (f : numField) : Prop :=
  match f with
  | FNum (Fin q) => binary64 q
  | _ => True
  end.

(** [f != null && f !== ""]. *)
Definition present (f : numField) : bool :=
  match f with
  | FNum _ => true
  | _ => false
  end.

(** A mile property as the data model has it: missing, or a finite
    number. *)
Definition plain (f : numField) : Prop :=
  f = FAbsent \/ exists q, f = FNum (Fin q).

(** An entry of [points.json]. *)
Record Point : Type := mkPoint {
  p_id : prop string;
  p_legacy_id : prop string;
  p_mile : numField;
  p_mile_est : numField;
  p_lat : numField;
  p_lon : numField;
  p_state : prop string
}.

(** A slot of a 365-day profile: [null] or a number. *)
Definition slot : Type := option num.

(** An entry of [historical_weather.json]. *)
Record NormalsRecord : Type := mkRecord {
  r_id : prop string;
  r_legacy_id : prop string;
  r_hi : list slot;
  r_lo : list slot
}.

(** A JSON value that the scripts copy without looking into its parts: the
    value of [meta] and of the other keys of a root object. *)
#[local] Set Warnings "-register-all".
Inductive metaValue : Type :=
| MNull
| MBool (b : bool)
| MNumber (x : num)
| MString (s : string)
| MArray (l : list metaValue)
| MObject (m : gmap string metaValue).
#[local] Set Warnings "register-all".

(** The properties [0], [1], ... of an array or of a string. *)
Definition indexed_properties (l : list metaValue) : gmap string metaValue :=
  list_to_map (imap (fun i v => (String_of_Z (Z.of_nat i), v)) l).

(** The characters of a string of ASCII characters, as the strings that
    indexing gives. *)
Definition characters (s : string) : list metaValue :=
  map (fun c => MString (String c EmptyString)) (list_ascii_of_string s).

(** [{ ...(v || {}) }]: the own enumerable properties of [v], none for a
    value that is missing or falsy, for [true] and for a number. *)
Definition spread (v : option metaValue) : gmap string metaValue :=
  match v with
  | Some (MObject m) => m
  | Some (MArray l) => indexed_properties l
  | Some (MString s) => indexed_properties (characters s)
  | _ => ∅
  end.

(** A JSON object at the root of [historical_weather.json]: its [meta]
    ([None] when missing), its [points] ([None] when missing or not an
    array) and its other keys. *)
Record NormalsObject : Type := mkNormalsObject {
  o_meta : option metaValue;
  o_points : option (list NormalsRecord);
  o_other : gmap string metaValue
}.

(** The root of [historical_weather.json]. *)
Inductive NormalsRoot : Type :=
| RootArray (arr : list NormalsRecord)
| RootObject (o : NormalsObject)
| RootOther.

(** The root of [points.json]: an array of points, or something else. *)
Inductive PointsRoot : Type :=
| PointsArray (points : list Point)
| PointsOther.

Inductive FileContent : Type :=
| PointsContent (root : PointsRoot)
| NormalsContent (root : NormalsRoot).

(** The data directory: the two stores, when the files exist, and the
    backup copies, by file name. *)
Record Disk : Type := mkDisk {
  points_json : option PointsRoot;
  historical_weather_json : option NormalsRoot;
  backups : gmap string FileContent
}.

Definition POINTS_PATH : string := "trails/appalachian-trail/data/points.json".
Definition NORMALS_PATH : string := "trails/appalachian-trail/data/historical_weather.json".

(** The name of the backup copy of the file [p] made when [timestampTag()]
    is [tag]: [`${p}.${tag}.bak`]. *)
Definition backupPath (p tag : string) : string := p +:+ "." +:+ tag +:+ ".bak".

End Store.

(* ===================================================================== *)
(** ** File-system effects *)
(* ===================================================================== *)

Module Fs.
Import Store.

(** A computation that reads and writes the data directory and can throw.
    The disk it returns is the disk at the time it returned or threw. *)
Definition M (A : Type) : Type := Disk -> result A * Disk.

Definition ret {A} (a : A) : M A := fun d => (Ok a, d).

Definition throw {A} (e : error) : M A := fun d => (Throw e, d).

Definition mbind {A B} (m : M A) (k : A -> M B) : M B :=
  fun d =>
    match m d with
    | (Ok a, d') => k a d'
    | (Throw e, d') => (Throw e, d')
    end.

Definition lift {A} (r : result A) : M A := fun d => (r, d).

(** [if (!fs.existsSync(POINTS_PATH)) throw ...]. *)
Definition requirePoints : M unit :=
  fun d =>
    match points_json d with
    | Some _ => (Ok tt, d)
    | None => (Throw (MissingFile POINTS_PATH), d)
    end.

Definition requireNormals : M unit :=
  fun d =>
    match historical_weather_json d with
    | Some _ => (Ok tt, d)
    | None => (Throw (MissingFile NORMALS_PATH), d)
    end.

(** [readJson(POINTS_PATH)]. *)
Definition readPoints : M PointsRoot :=
  fun d =>
    match points_json d with
    | Some root => (Ok root, d)
    | None => (Throw (MissingFile POINTS_PATH), d)
    end.

(** [readJson(NORMALS_PATH)]. *)
Definition readNormals : M NormalsRoot :=
  fun d =>
    match historical_weather_json d with
    | Some root => (Ok root, d)
    | None => (Throw (MissingFile NORMALS_PATH), d)
    end.

(** [backupFile(POINTS_PATH)] when [timestampTag()] is [tag]:
    [copyFileSync] writes the copy, over a file of that name when there is
    one. *)
Definition backupPoints (tag : string) : M unit :=
  fun d =>
    match points_json d with
    | Some root =>
        (Ok tt, mkDisk (points_json d) (historical_weather_json d)
                  (<[ backupPath POINTS_PATH tag := PointsContent root ]> (backups d)))
    | None => (Throw (MissingFile POINTS_PATH), d)
    end.

(** [backupFile(NORMALS_PATH)] when [timestampTag()] is [tag]. *)
Definition backupNormals (tag : string) : M unit :=
  fun d =>
    match historical_weather_json d with
    | Some root =>
        (Ok tt, mkDisk (points_json d) (historical_weather_json d)
                  (<[ backupPath NORMALS_PATH tag := NormalsContent root ]> (backups d)))
    | None => (Throw (MissingFile NORMALS_PATH), d)
    end.

(** [writeJson(POINTS_PATH, root)]. *)
Definition writePoints (root : PointsRoot) : M unit :=
  fun d => (Ok tt, mkDisk (Some root) (historical_weather_json d) (backups d)).

(** [writeJson(NORMALS_PATH, root)]. *)
Definition writeNormals (root : NormalsRoot) : M unit :=
  fun d => (Ok tt, mkDisk (points_json d) (Some root) (backups d)).

End Fs.

Notation "'let*' x ':=' m 'in' k" := (Fs.mbind m (fun x => k))
  (at level 10, x pattern, m at level 100, k at level 200).

(* ===================================================================== *)
(** ** [migrate-ids-at-main.js] *)
(* ===================================================================== *)

Module Migrate.
Import Js Store Codec Fs.

#[export] Instance prop_eq_dec {A} `{EqDecision A} : EqDecision (prop A).
Proof. solve_decision. Defined.

Definition prop_to_option {A} (v : prop A) : option (option A) :=
  match v with
  | Absent => None
  | Null => Some None
  | Val a => Some (Some a)
  end.

Definition prop_of_option {A} (o : option (option A)) : prop A :=
  match o with
  | None => Absent
  | Some None => Null
  | Some (Some a) => Val a
  end.

#[export] Instance prop_countable {A} `{Countable A} : Countable (prop A).
Proof.
  apply (inj_countable' prop_to_option prop_of_option).
  intros [| |a]; reflexivity.
Defined.

(** [mileFromPoint(p)]. *)
Definition mileFromPoint (p : Point) : result num :=
  let v := if present (p_mile p) then Number_of (p_mile p)
           else Number_of (p_mile_est p) in
  if negb (Number_isFinite v) then Throw (MissingNumericMile (p_id p))
  else Ok v.

Inductive mode : Type := rootArray | pointsArray.

(** [getNormalsArray(normalsRoot)]. *)
Definition getNormalsArray (normalsRoot : NormalsRoot)
  : result (list NormalsRecord * mode) :=
  match normalsRoot with
  | RootArray arr => Ok (arr, rootArray)
  | RootObject o =>
      match o_points o with
      | Some arr => Ok (arr, pointsArray)
      | None => Throw UnexpectedNormalsFormat
      end
  | RootOther => Throw UnexpectedNormalsFormat
  end.

(** The loop of [ensureUniqueIds], from a set [seen] of ids already met. *)
Fixpoint ensureUniqueIds_from (seen : gset (prop string))
    (ids : list (prop string)) (label : string) : result unit :=
  match ids with
  | [] => Ok tt
  | id :: rest =>
      if decide (id ∈ seen) then Throw (DuplicateId label (String_of_prop id))
      else ensureUniqueIds_from ({[ id ]} ∪ seen) rest label
  end.

(** [ensureUniqueIds(ids, label)]. *)
Definition ensureUniqueIds (ids : list (prop string)) (label : string)
  : result unit :=
  ensureUniqueIds_from ∅ ids label.

(** The callback of [points.map] in [main]; it also records the pair in
    [legacyToNew]. *)
Definition migratePoint (legacyToNew : gmap string string) (p : Point)
  : result (Point * gmap string string) :=
  let legacyId := String_of_prop (p_id p) in
  let! mile := mileFromPoint p in
  let! newId := toNewId mile in
  Ok (mkPoint (Val newId) (Val (coalesce (p_legacy_id p) legacyId))
        (p_mile p) (p_mile_est p) (p_lat p) (p_lon p) (p_state p),
      <[ legacyId := newId ]> legacyToNew).

(** [points.map(...)], threading [legacyToNew]. *)
Fixpoint migratePoints (legacyToNew : gmap string string) (points : list Point)
  : result (list Point * gmap string string) :=
  match points with
  | [] => Ok ([], legacyToNew)
  | p :: rest =>
      let! (p', m1) := migratePoint legacyToNew p in
      let! (rest', m2) := migratePoints m1 rest in
      Ok (p' :: rest', m2)
  end.

(** The callback of [normalsArr.map] in [main]. *)
Definition migrateRecord (legacyToNew : gmap string string) (rec : NormalsRecord)
  : result NormalsRecord :=
  if negb (not_nullish (r_id rec)) then Throw NormalsRecordWithoutId
  else
    let legacyId := String_of_prop (r_id rec) in
    match legacyToNew !! legacyId with
    | None => Throw (NormalsNoMatchingPoint legacyId)
    | Some newId =>
        if String.eqb newId "" then Throw (NormalsNoMatchingPoint legacyId)
        else Ok (mkRecord (Val newId) (Val (coalesce (r_legacy_id rec) legacyId))
                   (r_hi rec) (r_lo rec))
    end.

Definition id_format : string := "at-main-mi0000000 (mile*1000)".

(** The [meta] object of the rewritten normals root, from the [meta] of
    the root that was read. *)
Definition updatedMeta (meta : option metaValue) : gmap string metaValue :=
  <[ "id_migration_note"%string := MString "IDs migrated; legacy_id preserved" ]>
  (<[ "id_trail_code"%string := MString TRAIL_CODE ]>
  (<[ "id_alignment"%string := MString ALIGNMENT ]>
  (<[ "id_scale"%string := MNumber SCALE ]>
  (<[ "id_format"%string := MString id_format ]>
  (spread meta))))).

(** The rewritten normals root. *)
Definition updatedNormalsRoot (normalsRoot : NormalsRoot) (m : mode)
    (updatedNormalsArr : list NormalsRecord) : NormalsRoot :=
  match m, normalsRoot with
  | pointsArray, RootObject o =>
      RootObject (mkNormalsObject (Some (MObject (updatedMeta (o_meta o))))
                    (Some updatedNormalsArr) (o_other o))
  | _, _ => RootArray updatedNormalsArr
  end.

(** What a completed run reports: whether the count warning was printed,
    and the example mapping. *)
Record Report : Type := mkReport {
  count_warning : bool;
  example_legacy_id : prop string;
  example_id : prop string
}.

(** [main()]; [tagPoints] and [tagNormals] are what [timestampTag()]
    returns in the two calls of [backupFile]. *)
Definition main (tagPoints tagNormals : string) : M Report :=
  let* _ := requirePoints in
  let* _ := requireNormals in
  let* pointsRoot := readPoints in
  match pointsRoot with
  | PointsOther => throw PointsNotArray
  | PointsArray points =>
      let* (updatedPoints, legacyToNew) := lift (migratePoints ∅ points) in
      let* _ := lift (ensureUniqueIds (map p_id updatedPoints) "points") in
      let* normalsRoot := readNormals in
      let* (normalsArr, m) := lift (getNormalsArray normalsRoot) in
      let* updatedNormalsArr := lift (mapM (migrateRecord legacyToNew) normalsArr) in
      let* _ := lift (ensureUniqueIds (map r_id updatedNormalsArr) "normals") in
      let warning := negb (length updatedNormalsArr =? length updatedPoints)%nat in
      let root' := updatedNormalsRoot normalsRoot m updatedNormalsArr in
      let* _ := backupPoints tagPoints in
      let* _ := backupNormals tagNormals in
      let* _ := writePoints (PointsArray updatedPoints) in
      let* _ := writeNormals root' in
      match updatedPoints with
      | [] => throw (TypeError "ex is undefined")
      | ex :: _ => ret (mkReport warning (p_legacy_id ex) (p_id ex))
      end
  end.

(** The checks of [main] on the content of the two files, without the file
    system: the rewritten points, the rewritten normals root, and whether
    the counts differ. *)
Definition validate (points : list Point) (normalsRoot : NormalsRoot)
  : result (list Point * NormalsRoot * bool) :=
  let! (updatedPoints, legacyToNew) := migratePoints ∅ points in
  let! _ := ensureUniqueIds (map p_id updatedPoints) "points" in
  let! (normalsArr, m) := getNormalsArray normalsRoot in
  let! updatedNormalsArr := mapM (migrateRecord legacyToNew) normalsArr in
  let! _ := ensureUniqueIds (map r_id updatedNormalsArr) "normals" in
  Ok (updatedPoints,
      updatedNormalsRoot normalsRoot m updatedNormalsArr,
      negb (length updatedNormalsArr =? length updatedPoints)%nat).

(** The disk after the two backups and the two writes of [main]. *)
Definition commit (tagPoints tagNormals : string) (d : Disk)
    (pointsRoot : PointsRoot) (normalsRoot : NormalsRoot)
    (updatedPoints : list Point) (root' : NormalsRoot) : Disk :=
  mkDisk (Some (PointsArray updatedPoints)) (Some root')
    (<[ backupPath NORMALS_PATH tagNormals := NormalsContent normalsRoot ]>
       (<[ backupPath POINTS_PATH tagPoints := PointsContent pointsRoot ]> (backups d))).

(** The exception thrown after the two writes, by [ex.legacy_id] on an
    empty points array. *)
Definition after_commit (e : error) : Prop := e = TypeError "ex is undefined".

End Migrate.

(* ===================================================================== *)
(** ** [normalize-points-mile-only.js] *)
(* ===================================================================== *)

Module Normalize.
Import Js Store.

(** [normalizePoint(pt, idx)]. *)
Definition normalizePoint (pt : Point) (idx : nat) : result Point :=
  let mile :=
    if present (p_mile pt) && Number_isFinite (Number_of (p_mile pt))
    then Number_of (p_mile pt)
    else Number_of (p_mile_est pt) in
  if negb (Number_isFinite mile) then Throw (NoValidMile idx (p_id pt))
  else Ok (mkPoint (p_id pt) (p_legacy_id pt) (FNum mile) FAbsent
             (p_lat pt) (p_lon pt) (p_state pt)).

End Normalize.

(* ===================================================================== *)
(** ** [migrate-historical-ids-mixed.js] *)
(* ===================================================================== *)

Module MigrateMixed.
Import Js Store Fs.

(** [isNewId(id)], for a string. *)
Definition isNewId (id : string) : bool := String.prefix "at-main-mi" id.

(** The loop that builds the two maps from [points.json]. *)
Fixpoint buildMaps (legacyToNew newToLegacy : gmap string string)
    (points : list Point) : result (gmap string string * gmap string string) :=
  match points with
  | [] => Ok (legacyToNew, newToLegacy)
  | p :: rest =>
      let newId := String_of_prop (p_id p) in
      match p_legacy_id p with
      | Val legacyId =>
          if String.eqb legacyId "" then Throw (PointMissingLegacyId newId)
          else buildMaps (<[ legacyId := newId ]> legacyToNew)
                         (<[ newId := legacyId ]> newToLegacy) rest
      | _ => Throw (PointMissingLegacyId newId)
      end
  end.

(** The callback of [histRoot.points.map]: the record it returns, whether it
    counted as changed, and whether it already had a new id. *)
Definition normalizeRecord (legacyToNew newToLegacy : gmap string string)
    (rec : NormalsRecord) : result (NormalsRecord * bool * bool) :=
  let currentId := String_of_prop (r_id rec) in
  if isNewId currentId then
    match r_legacy_id rec with
    | Val _ => Ok (rec, false, true)
    | _ =>
        match newToLegacy !! currentId with
        | Some legacy =>
            if String.eqb legacy "" then Ok (rec, false, true)
            else Ok (mkRecord (Val currentId) (Val legacy) (r_hi rec) (r_lo rec),
                     true, true)
        | None => Ok (rec, false, true)
        end
    end
  else
    match legacyToNew !! currentId with
    | None => Throw (HistoricalNoMatch currentId)
    | Some mapped =>
        if String.eqb mapped "" then Throw (HistoricalNoMatch currentId)
        else Ok (mkRecord (Val mapped) (Val (coalesce (r_legacy_id rec) currentId))
                   (r_hi rec) (r_lo rec),
                 true, false)
    end.

Definition migration_note : string :=
  "Historical IDs normalized to at-main-mi...; legacy_id preserved/filled where possible.".

Record Report : Type := mkReport {
  records : nat;
  alreadyNew : nat;
  changed : nat
}.

Definition count (f : NormalsRecord * bool * bool -> bool)
    (l : list (NormalsRecord * bool * bool)) : nat :=
  length (filter (fun x => f x = true) l).

(** [main()]; [tag] is what [timestampTag()] returns in [backupFile]. *)
Definition main (tag : string) : M Report :=
  let* _ := requirePoints in
  let* _ := requireNormals in
  let* pointsRoot := readPoints in
  match pointsRoot with
  | PointsOther => throw PointsNotArray
  | PointsArray points =>
      let* (legacyToNew, newToLegacy) := lift (buildMaps ∅ ∅ points) in
      let* histRoot := readNormals in
      match histRoot with
      | RootObject (mkNormalsObject meta (Some histPoints) other) =>
          let* results := lift (mapM (normalizeRecord legacyToNew newToLegacy) histPoints) in
          let updated := map (fun x => fst (fst x)) results in
          let* _ := backupNormals tag in
          let updatedRoot :=
            RootObject (mkNormalsObject
              (Some (MObject (<[ "id_migration_note"%string := MString migration_note ]>
                                (spread meta))))
              (Some updated) other) in
          let* _ := writeNormals updatedRoot in
          ret (mkReport (length updated)
                 (count (fun x => snd x) results)
                 (count (fun x => snd (fst x)) results))
      | _ => throw UnexpectedNormalsFormat
      end
  end.

End MigrateMixed.

(* ===================================================================== *)
(** ** The climate archive *)
(* ===================================================================== *)

Module Http.
Import Js Store.

(** The [daily] object of a response body, represented by the number of
    dates of its [time] array and by the two 365-slot profiles that
    [compute365AveragesFromDaily] derives from it.  The averaging itself is
    not part of this development. *)
Record Daily : Type := mkDaily {
  time_length : nat;
  hi365 : list slot;
  lo365 : list slot
}.

(** A response: its status, [Number(...)] of its [Retry-After] header when
    the header is a non-empty string, and the [daily] object of its body when
    there is one. *)
Record Response : Type := mkResponse {
  status : Z;
  retry_after : option num;
  daily : option Daily
}.

(** [resp.ok]. *)
Definition ok (resp : Response) : bool :=
  (200 <=? status resp) && (status resp <=? 299).

(** The network: the response to the request with a given sequence
    number. *)
Definition Network : Type := nat -> Response.

End Http.

(* ===================================================================== *)
(** ** [build_planning_normals.js]: the retry wrapper *)
(* ===================================================================== *)

Module Retry.
Import Js Http.

(** The options of [fetchWithRetry].  [maxRetries] is a count, a natural
    number: the two calls of the script pass no options, so that it is the
    default, 8.  A call with a [maxRetries] that is negative, fractional,
    infinite or not a number is not covered. *)
Record Options : Type := mkOptions {
  maxRetries : nat;
  baseDelayMs : num;
  maxDelayMs : num
}.

Definition defaults : Options := mkOptions 8 (Fin 800) (Fin 20000).

(** [resp.status === 429 || resp.status === 502 || resp.status === 503]. *)
Definition retryable (resp : Response) : bool :=
  (status resp =? 429) || (status resp =? 502) || (status resp =? 503).

(** [baseDelayMs * Math.pow(2, attempt)]. *)
Definition backoff (o : Options) (attempt : nat) : num :=
  mul (baseDelayMs o) (of_Z (2 ^ Z.of_nat attempt)).

(** The delay slept before the next attempt. *)
Definition delay (o : Options) (resp : Response) (attempt : nat) : num :=
  let d0 := match retry_after resp with
            | Some ra => mul ra (Fin 1000)
            | None => backoff o attempt
            end in
  let d1 := if negb (Number_isFinite d0) || le d0 (Fin 0)
            then backoff o attempt else d0 in
  Math_min d1 (maxDelayMs o).

(** What a call did: the requests it sent and the delays it slept, in
    order. *)
Record Trace : Type := mkTrace {
  requests : nat;
  slept : list num
}.

(** The loop of [fetchWithRetry] from attempt number [attempt], with
    [remaining] iterations left before [attempt <= maxRetries] fails.  The
    request of attempt [i] is request [first + i] of the network. *)
Fixpoint fetchWithRetry_loop (o : Options) (net : Network) (first : nat)
    (attempt remaining : nat) (t : Trace) : result Response * Trace :=
  match remaining with
  | O => (Throw RetryExhausted, t)
  | S remaining' =>
      let resp := net (first + attempt)%nat in
      let t1 := mkTrace (S (requests t)) (slept t) in
      if ok resp then (Ok resp, t1)
      else if negb (retryable resp) || (attempt =? maxRetries o)%nat
      then (Throw (HttpError (status resp)), t1)
      else
        let d := delay o resp attempt in
        fetchWithRetry_loop o net first (S attempt) remaining'
          (mkTrace (requests t1) (slept t1 ++ [d]))
  end.

(** [fetchWithRetry(url, options)]. *)
Definition fetchWithRetry (o : Options) (net : Network) (first : nat)
  : result Response * Trace :=
  fetchWithRetry_loop o net first 0 (S (maxRetries o)) (mkTrace 0 []).

(** The first [i] attempts all get a response that is not 2xx and has a
    retryable status. *)
Definition retryable_failures (net : Network) (first i : nat) : Prop :=
  forall a, (a < i)%nat ->
            ok (net (first + a)%nat) = false /\
            retryable (net (first + a)%nat) = true.

(** The delays slept after attempts [0 .. i - 1]. *)
Definition delays (o : Options) (net : Network) (first i : nat) : list num :=
  map (fun a => delay o (net (first + a)%nat) a) (seq 0 i).

End Retry.

(* ===================================================================== *)
(** ** [generate-missing-normals-at.js] *)
(* ===================================================================== *)

Module Aggregator.
Import Js Store Http.

(** [hist.meta] in memory: an object, or an array, whose named properties
    [JSON.stringify] leaves out. *)
Inductive HistMeta : Type :=
| MetaObject (m : gmap string metaValue)
| MetaArray (l : list metaValue).

(** The [hist] object in memory.  When the root of the file is an array,
    [h_array] holds its elements and [points]/[meta] are properties set on
    that array, which [JSON.stringify] leaves out. *)
Record Hist : Type := mkHist {
  h_array : option (list NormalsRecord);
  h_meta : HistMeta;
  h_points : list NormalsRecord;
  h_other : gmap string metaValue
}.

(** [if (!hist.meta || typeof hist.meta !== "object") hist.meta = {}]. *)
Definition ensureMeta (meta : option metaValue) : HistMeta :=
  match meta with
  | Some (MObject m) => MetaObject m
  | Some (MArray l) => MetaArray l
  | _ => MetaObject ∅
  end.

(** [ensureHistShape(hist)]. *)
Definition ensureHistShape (root : NormalsRoot) : result Hist :=
  match root with
  | RootOther => Throw HistNotObject
  | RootObject o =>
      Ok (mkHist None (ensureMeta (o_meta o)) (default [] (o_points o)) (o_other o))
  | RootArray arr => Ok (mkHist (Some arr) (MetaObject ∅) [] ∅)
  end.

(** What [JSON.stringify] writes for [hist.meta]. *)
Definition serializeMeta (meta : HistMeta) : metaValue :=
  match meta with
  | MetaObject m => MObject m
  | MetaArray l => MArray l
  end.

(** What [writeJson(HIST_PATH, hist)] stores. *)
Definition serialize (hist : Hist) : NormalsRoot :=
  match h_array hist with
  | Some arr => RootArray arr
  | None =>
      RootObject (mkNormalsObject (Some (serializeMeta (h_meta hist)))
                    (Some (h_points hist)) (h_other hist))
  end.

(** [fetchDailyMaxMin(lat, lon)]: one request, any status that is not 2xx
    throws. *)
Definition fetchDailyMaxMin (net : Network) (request : nat)
  : result (option Daily) :=
  let resp := net request in
  if negb (ok resp) then Throw (HttpError (status resp))
  else Ok (daily resp).

(** [existingIds]. *)
Definition existingIds (hist : Hist) : gset string :=
  list_to_set (map (fun r => String_of_prop (r_id r)) (h_points hist)).

(** [missing]. *)
Definition missing (points : list Point) (hist : Hist) : list Point :=
  filter (fun p => String_of_prop (p_id p) ∉ existingIds hist) points.

Definition normals_source : string :=
  "Open-Meteo Historical Weather API (daily max/min averaged by MM-DD)".
Definition normals_range : string := "2018-01-01..2024-12-31".
Definition DATASET : string := "ERA5-Land".

(** The record built for point [p] from a daily series. *)
Definition newRecord (p : Point) (d : Daily) : NormalsRecord :=
  mkRecord (Val (String_of_prop (p_id p)))
    (match p_legacy_id p with
     | Val l => if String.eqb l "" then Absent else Val l
     | _ => Absent
     end)
    (hi365 d) (lo365 d).

(** The three assignments to properties of [hist.meta]. *)
Definition stampMeta (meta : HistMeta) : HistMeta :=
  match meta with
  | MetaObject m =>
      MetaObject
        (<[ "normals_dataset"%string := MString DATASET ]>
         (<[ "normals_range"%string := MString normals_range ]>
          (<[ "normals_source"%string := MString normals_source ]> m)))
  | MetaArray l => MetaArray l
  end.

(** [hist.points.push(rec)] followed by the three [hist.meta] updates. *)
Definition push (hist : Hist) (rec : NormalsRecord) : Hist :=
  mkHist (h_array hist) (stampMeta (h_meta hist)) (h_points hist ++ [rec])
    (h_other hist).

Inductive Status : Type :=
| Running
| Done
| Exited (e : error).

(** The state of a run: the disk, [hist], the points of [toProcess] not yet
    visited, [processed], and the number of requests sent. *)
Record State : Type := mkState {
  st_status : Status;
  st_disk : Disk;
  st_hist : Hist;
  st_queue : list Point;
  st_processed : nat;
  st_requests : nat
}.

(** [writeJson(HIST_PATH, hist)]. *)
Definition writeHist (hist : Hist) (d : Disk) : Disk :=
  mkDisk (points_json d) (Some (serialize hist)) (backups d).

(** One iteration of the [for (const p of toProcess)] loop. *)
Definition step (net : Network) (s : State) : State :=
  match st_status s, st_queue s with
  | Running, [] =>
      mkState Done (st_disk s) (st_hist s) [] (st_processed s) (st_requests s)
  | Running, p :: rest =>
      let lat := Number_of (p_lat p) in
      let lon := Number_of (p_lon p) in
      if negb (Number_isFinite lat) || negb (Number_isFinite lon) then
        mkState Running (st_disk s) (st_hist s) rest (st_processed s) (st_requests s)
      else
        let attempt :=
          let! body := fetchDailyMaxMin net (st_requests s) in
          match body with
          | None => Throw NoDailyTime
          | Some d =>
              if (time_length d =? 0)%nat then Throw NoDailyTime else Ok d
          end in
        match attempt with
        | Throw e =>
            mkState (Exited e) (st_disk s) (st_hist s) rest (st_processed s)
              (S (st_requests s))
        | Ok d =>
            let hist' := push (st_hist s) (newRecord p d) in
            mkState Running (writeHist hist' (st_disk s)) hist' rest
              (S (st_processed s)) (S (st_requests s))
        end
  | _, _ => s
  end.

(** [n] iterations. *)
Fixpoint steps (net : Network) (n : nat) (s : State) : State :=
  match n with
  | O => s
  | S n' => steps net n' (step net s)
  end.

(** The state in which [main] enters its loop, or the exception it throws
    before that. *)
Definition start (d : Disk) : State :=
  let failed e := mkState (Exited e) d (mkHist None (MetaObject ∅) [] ∅) [] 0 0 in
  match points_json d, historical_weather_json d with
  | None, _ => failed (MissingFile POINTS_PATH)
  | Some _, None => failed (MissingFile NORMALS_PATH)
  | Some PointsOther, Some _ => failed PointsNotArray
  | Some (PointsArray points), Some root =>
      match ensureHistShape root with
      | Throw e => failed e
      | Ok hist => mkState Running d hist (missing points hist) 0 0
      end
  end.

(** [main()], run to its end. *)
Definition main (net : Network) (d : Disk) : State :=
  let s := start d in
  steps net (S (length (st_queue s))) s.

(** [String(p.id)]. *)
Definition idOf (p : Point) : string := String_of_prop (p_id p).

(** The records of the normals store, as a run reads them. *)
Definition stored_records (d : Disk) : list NormalsRecord :=
  match historical_weather_json d with
  | Some root =>
      match ensureHistShape root with
      | Ok hist => h_points hist
      | Throw _ => []
      end
  | None => []
  end.

(** What holds of every state of a run over the points [points] that
    started with the records [initial] in the store and [n] points to
    process: the file on disk is [hist]; [hist] holds the initial records
    followed by one record per processed point; and the points still
    missing from [hist] are the points visited without a record followed by
    the points not yet visited. *)
Record consistent (points : list Point) (initial : list NormalsRecord) (n : nat)
    (s : State) : Prop := mkConsistent {
  c_points : points_json (st_disk s) = Some (PointsArray points);
  c_object : h_array (st_hist s) = None;
  c_disk : exists root,
      historical_weather_json (st_disk s) = Some root /\
      ensureHistShape root = Ok (st_hist s);
  c_written : exists written,
      h_points (st_hist s) = initial ++ written /\
      length written = st_processed s;
  c_pending : exists skipped,
      missing points (st_hist s) = skipped ++ st_queue s /\
      (length skipped + st_processed s + length (st_queue s) = n)%nat
}.

End Aggregator.

(* ===================================================================== *)
(** ** [js/app.js]: the point index *)
(* ===================================================================== *)

Module PointIndex.
Import Js.

(** A point as [loadPoints] keeps it: every field already converted, and
    [mile_est], [lat], [lon] finite. *)
Record Point : Type := mkPoint {
  id : string;
  state : string;
  mile_est : num;
  lat : num;
  lon : num
}.

(** What a call does: it returns, throws, or is still looping when the
    iterations counted by the model are used up. *)
Inductive outcome (A : Type) : Type :=
| Returns (a : A)
| Throws (e : error)
| OutOfFuel.
Arguments Returns {A} a.
Arguments Throws {A} e.
Arguments OutOfFuel {A}.

(** [ToInt32(z)]. *)
Definition toInt32 (z : Z) : Z := (z + 2 ^ 31) mod 2 ^ 32 - 2 ^ 31.

(** [arr[i]] for an integer [i]. *)
Definition at_index {A} (arr : list A) (i : Z) : option A :=
  if i <? 0 then None else arr !! Z.to_nat i.

(** How the [while (lo <= hi)] loop ends: with the exact match it returns,
    or with the final [lo] and [hi]. *)
Inductive search : Type :=
| Exact (p : Point)
| Bounds (lo hi : Z).

(** The binary search loop, for at most [fuel] iterations. *)
Fixpoint search_loop (fuel : nat) (arr : list Point) (targetMile : num)
    (lo hi : Z) : outcome search :=
  if lo <=? hi then
    match fuel with
    | O => OutOfFuel
    | S fuel' =>
        let mid := Z.shiftr (toInt32 (lo + hi)) 1 in
        match at_index arr mid with
        | None => Throws (TypeError "arr[mid] is undefined")
        | Some p =>
            let m := mile_est p in
            if strict_eq m targetMile then Returns (Exact p)
            else if lt m targetMile
                 then search_loop fuel' arr targetMile (mid + 1) hi
                 else search_loop fuel' arr targetMile lo (mid - 1)
        end
    end
  else Returns (Bounds lo hi).

(** [Math.max(0, Math.min(arr.length - 1, i))]. *)
Definition clamp_index {A} (arr : list A) (i : Z) : Z :=
  Z.max 0 (Z.min (Z.of_nat (length arr) - 1) i).

(** The statements after the loop: the closer of [arr[hi]] and [arr[lo]],
    indices clamped to the array; [None] is [null]. *)
Definition closer_candidate (arr : list Point) (targetMile : num) (lo hi : Z)
  : option Point :=
  let a := at_index arr (clamp_index arr hi) in
  let b := at_index arr (clamp_index arr lo) in
  match a, b with
  | None, _ => b
  | Some _, None => a
  | Some pa, Some pb =>
      if le (Math_abs (sub (mile_est pa) targetMile))
            (Math_abs (sub (mile_est pb) targetMile))
      then Some pa else Some pb
  end.

(** [getNearestPointByMile(targetMile)] over [allPointsSortedByMile = arr]. *)
Definition getNearestPointByMile (arr : list Point) (targetMile : num)
  : outcome (option Point) :=
  if (length arr =? 0)%nat || negb (Number_isFinite targetMile) then Returns None
  else
    match search_loop (S (length arr)) arr targetMile 0 (Z.of_nat (length arr) - 1) with
    | OutOfFuel => OutOfFuel
    | Throws e => Throws e
    | Returns (Exact p) => Returns (Some p)
    | Returns (Bounds lo hi) => Returns (closer_candidate arr targetMile lo hi)
    end.

(** The distance the code compares: [Math.abs(p.mile_est - targetMile)]. *)
Definition distance (p : Point) (targetMile : num) : num :=
  Math_abs (sub (mile_est p) targetMile).

(** The finite value of [p.mile_est]. *)
Definition mileQ (p : Point) : Q :=
  match mile_est p with
  | Fin q => q
  | _ => 0
  end.

(** Every [mile_est] is finite, as [loadPoints] makes sure. *)
Definition finite_miles (arr : list Point) : Prop :=
  forall p, p ∈ arr -> mile_est p = Fin (mileQ p).

(** Every [mile_est] is a binary64 number, as every number of a page is. *)
Definition binary64_miles (arr : list Point) : Prop :=
  forall p, p ∈ arr -> binary64 (mileQ p).

(** The array is in ascending order of [mile_est]. *)
Definition sorted_by_mile (arr : list Point) : Prop :=
  forall (i j : nat) (p q : Point),
    (i <= j)%nat -> arr !! i = Some p -> arr !! j = Some q ->
    (mileQ p <= mileQ q)%Q.

(** Every point before index [lo] is below the target [t]. *)
Definition below (arr : list Point) (t : Q) (lo : Z) : Prop :=
  forall (i : nat) (p : Point),
    Z.of_nat i < lo -> arr !! i = Some p -> (mileQ p < t)%Q.

(** Every point after index [hi] is above the target [t]. *)
Definition above (arr : list Point) (t : Q) (hi : Z) : Prop :=
  forall (i : nat) (p : Point),
    hi < Z.of_nat i -> arr !! i = Some p -> (t < mileQ p)%Q.

(** Half a unit in the last place of the binary64 numbers around [q]: the
    most that a rounding moves [q]. *)
Definition half_ulp (q : Q) : Q := ((1 # 2) * 2 ^ ulp_exponent q)%Q.

(** [p] is a nearest point of [arr] to the finite target [t]: it is in the
    array; no point has a smaller distance as the code computes it, in
    binary64; it is at the target mile when some point is; it lies above the
    target only when every point below the target is farther, as computed
    (two candidates as far go to the lower mile); and when its computed
    distance is finite, its exact distance exceeds the exact distance of no
    point by more than the rounding of the two distances. *)
Definition nearest (arr : list Point) (t : Q) (p : Point) : Prop :=
  p ∈ arr /\
  (forall q, q ∈ arr -> le (distance p (Fin t)) (distance q (Fin t)) = true) /\
  (forall q, q ∈ arr -> (mileQ q == t)%Q -> (mileQ p == t)%Q) /\
  (forall q, q ∈ arr -> (mileQ q < t)%Q -> (t < mileQ p)%Q ->
             le (distance q (Fin t)) (distance p (Fin t)) = false) /\
  (forall q d, q ∈ arr -> distance p (Fin t) = Fin d ->
               (Qabs (mileQ p - t)
                <= Qabs (mileQ q - t) + half_ulp (mileQ p - t) + half_ulp (mileQ q - t))%Q).

End PointIndex.

(* ===================================================================== *)
(** ** [js/app.js]: the duration extremes *)
(* ===================================================================== *)

Module Extremes.
Import Js Store PointIndex.

(** A [Date] at local midnight, as the number of days since 1970-01-01. *)
Definition Date : Type := Z.

(** [addDays(dateObj, days)]. *)
Definition addDays (dateObj : Date) (days : Z) : Date := dateObj + days.

(** The day number of a calendar date (proleptic Gregorian calendar); a day
    of the month out of range carries over, as in [new Date(y, m - 1, d)]. *)
Definition days_from_civil (y m d : Z) : Z :=
  let y' := if m <=? 2 then y - 1 else y in
  let era := y' / 400 in
  let yoe := y' - era * 400 in
  let doy := (153 * (if 2 <? m then m - 3 else m + 9) + 2) / 5 + d - 1 in
  let doe := yoe * 365 + yoe / 4 - yoe / 100 + doy in
  era * 146097 + doe - 719468.

(** The calendar date (year, month, day of the month) of a day number. *)
Definition civil_from_days (z : Z) : Z * Z * Z :=
  let z' := z + 719468 in
  let era := z' / 146097 in
  let doe := z' - era * 146097 in
  let yoe := (doe - doe / 1460 + doe / 36524 - doe / 146096) / 365 in
  let doy := doe - (365 * yoe + yoe / 4 - yoe / 100) in
  let mp := (5 * doy + 2) / 153 in
  let d := doy - (153 * mp + 2) / 5 + 1 in
  let m := if mp <? 10 then mp + 3 else mp - 9 in
  (yoe + era * 400 + (if m <=? 2 then 1 else 0), m, d).

(** [toISODate(d).slice(5)]: the month and the day of the month that the
    string ["MM-DD"] spells. *)
Definition monthDay (d : Date) : Z * Z :=
  let '(_, m, dd) := civil_from_days d in (m, dd).

(** [dayIndexInNonLeapYearFromMonthDay(monthDay)]. *)
Definition dayIndexInNonLeapYearFromMonthDay (md : Z * Z) : Z :=
  let '(mm, dd) := md in
  let diffDays := days_from_civil 2021 mm dd - days_from_civil 2021 1 1 in
  Z.max 0 (Z.min 364 diffDays).

(** An entry of [normalsByPointId]. *)
Record Normals : Type := mkNormals {
  hi : list slot;
  lo : list slot
}.

(** The globals of the page that the extremes read. *)
Record App : Type := mkApp {
  allPointsSortedByMile : list Point;
  trailMinMiles : option num;
  trailMaxMiles : option num;
  normalsByPointId : gmap string Normals
}.

(** The arguments of [computeAndRenderDurationExtremes]; [durationDays] is
    the number of iterations of its loop, whose counter is exact up to
    2^53. *)
Record Trip : Type := mkTrip {
  direction : string;
  startDate : Date;
  milesPerDay : num;
  durationDays : nat
}.

(** The record kept for a day. *)
Record DayRec : Type := mkDayRec {
  date : Date;
  targetMile : num;
  point : Point;
  avgHigh : num;
  avgLow : num
}.

(** What the page shows afterwards. *)
Inductive View : Type :=
| NormalsNotLoaded
| PointsStillLoading
| UnableToCompute
| Tables (hottest coldest : DayRec).

(** [renderDurExtremesBlocks(hottest, coldest)]. *)
Definition renderDurExtremesBlocks (hottest coldest : option DayRec) : View :=
  match hottest, coldest with
  | Some h, Some c => Tables h c
  | _, _ => UnableToCompute
  end.

(** [arr[idx]] when it is a finite number. *)
Definition finite_slot (arr : list slot) (idx : Z) : option num :=
  match at_index arr idx with
  | Some (Some (Fin q)) => Some (Fin q)
  | _ => None
  end.

(** The body of the loop for day [i]: the record of the day, or [None] when
    the day is skipped.  [startMile] and [sign] are set before the loop; the
    three bindings of [targetMile] are its declaration and the two
    assignments that clamp it. *)
Definition dayRecord (app : App) (trip : Trip) (trailMin trailMax : num) (i : nat)
  : outcome (option DayRec) :=
  let startMile := if String.eqb (direction trip) "SOBO" then trailMax else trailMin in
  let sign := if String.eqb (direction trip) "SOBO" then Fin (-1) else Fin 1 in
  let d := addDays (startDate trip) (Z.of_nat i) in
  let targetMile :=
    add startMile (mul sign (mul (milesPerDay trip) (of_Z (Z.of_nat i)))) in
  let targetMile := if lt targetMile trailMin then trailMin else targetMile in
  let targetMile := if gt targetMile trailMax then trailMax else targetMile in
  match getNearestPointByMile (allPointsSortedByMile app) targetMile with
  | OutOfFuel => OutOfFuel
  | Throws e => Throws e
  | Returns None => Returns None
  | Returns (Some p) =>
      match normalsByPointId app !! id p with
      | None => Returns None
      | Some normals =>
          let idx := dayIndexInNonLeapYearFromMonthDay (monthDay d) in
          match finite_slot (hi normals) idx, finite_slot (lo normals) idx with
          | Some h, Some l => Returns (Some (mkDayRec d targetMile p h l))
          | _, _ => Returns None
          end
      end
  end.

(** The two updates at the end of the loop body. *)
Definition update (best : option DayRec * option DayRec) (rec : DayRec)
  : option DayRec * option DayRec :=
  let '(hottest, coldest) := best in
  (match hottest with
   | None => Some rec
   | Some h => if gt (avgHigh rec) (avgHigh h) then Some rec else Some h
   end,
   match coldest with
   | None => Some rec
   | Some c => if lt (avgLow rec) (avgLow c) then Some rec else Some c
   end).

(** The loop [for (let i = 0; i < durationDays; i++)], from day [i] with
    [remaining] days to go. *)
Fixpoint loop (app : App) (trip : Trip) (trailMin trailMax : num)
    (i remaining : nat) (best : option DayRec * option DayRec)
  : outcome (option DayRec * option DayRec) :=
  match remaining with
  | O => Returns best
  | S remaining' =>
      match dayRecord app trip trailMin trailMax i with
      | OutOfFuel => OutOfFuel
      | Throws e => Throws e
      | Returns None => loop app trip trailMin trailMax (S i) remaining' best
      | Returns (Some rec) =>
          loop app trip trailMin trailMax (S i) remaining' (update best rec)
      end
  end.

(** [Number.isFinite(v)] for a global that starts as [null]. *)
Definition finite_global (v : option num) : option num :=
  match v with
  | Some (Fin q) => Some (Fin q)
  | _ => None
  end.

(** [computeAndRenderDurationExtremes(trip)]: what the page shows when the
    call settles. *)
Definition computeAndRenderDurationExtremes (app : App) (trip : Trip)
  : outcome View :=
  if (size (normalsByPointId app) =? 0)%nat then Returns NormalsNotLoaded
  else
    match finite_global (trailMinMiles app), finite_global (trailMaxMiles app) with
    | Some trailMin, Some trailMax =>
        if (length (allPointsSortedByMile app) =? 0)%nat then Returns PointsStillLoading
        else
          match loop app trip trailMin trailMax 0 (durationDays trip) (None, None) with
          | OutOfFuel => OutOfFuel
          | Throws e => Throws e
          | Returns (hottest, coldest) =>
              Returns (renderDurExtremesBlocks hottest coldest)
          end
    | _, _ => Returns PointsStillLoading
    end.

(** The record of day [i] when the day has one. *)
Definition record_of_day (app : App) (trip : Trip) (trailMin trailMax : num) (i : nat)
  : option DayRec :=
  match dayRecord app trip trailMin trailMax i with
  | Returns (Some rec) => Some rec
  | _ => None
  end.

(** The records of the days [i], ..., [i + n - 1] that have one, in the
    order of the days. *)
Definition day_records (app : App) (trip : Trip) (trailMin trailMax : num) (i n : nat)
  : list DayRec :=
  omap (record_of_day app trip trailMin trailMax) (seq i n).

(** [h] is the first record of [recs] with the highest [avgHigh]. *)
Definition first_hottest (recs : list DayRec) (h : DayRec) : Prop :=
  exists k : nat,
    recs !! k = Some h /\
    forall (j : nat) (r : DayRec),
      recs !! j = Some r ->
      le (avgHigh r) (avgHigh h) = true /\
      ((j < k)%nat -> lt (avgHigh r) (avgHigh h) = true).

(** [c] is the first record of [recs] with the lowest [avgLow]. *)
Definition first_coldest (recs : list DayRec) (c : DayRec) : Prop :=
  exists k : nat,
    recs !! k = Some c /\
    forall (j : nat) (r : DayRec),
      recs !! j = Some r ->
      le (avgLow c) (avgLow r) = true /\
      ((j < k)%nat -> lt (avgLow c) (avgLow r) = true).

(** What the two updates keep true of the records seen so far. *)
Definition tracked (recs : list DayRec) (best : option DayRec * option DayRec) : Prop :=
  match recs with
  | [] => best = (None, None)
  | _ :: _ =>
      exists h c, best = (Some h, Some c) /\ first_hottest recs h /\ first_coldest recs c
  end.

(** Both temperatures of a record are finite. *)
Definition finite_record (r : DayRec) : Prop :=
  Number_isFinite (avgHigh r) = true /\ Number_isFinite (avgLow r) = true.

End Extremes.

(* ===================================================================== *)
(** ** Sample data *)
(* ===================================================================== *)

Module Samples.
Import Js Store Http.

(** A point of the old scheme: a legacy id and [mile_est] only. *)
Definition legacy_point : Point :=
  mkPoint (Val "GA_0010_0") Absent FAbsent (FNum (Fin 10))
    (FNum (Fin (346 # 10))) (FNum (Fin (- 842 # 10))) (Val "GA").

Definition legacy_record : NormalsRecord :=
  mkRecord (Val "GA_0010_0") Absent [Some (Fin 50)] [Some (Fin 30)].

(** A data directory of the old scheme. *)
Definition legacy_disk : Disk :=
  mkDisk (Some (PointsArray [legacy_point]))
    (Some (RootObject (mkNormalsObject None (Some [legacy_record]) ∅))) ∅.

(** Two points at the same mile. *)
Definition twin_point : Point :=
  mkPoint (Val "GA_0010_1") Absent (FNum (Fin 10)) FAbsent
    (FNum (Fin (346 # 10))) (FNum (Fin (- 842 # 10))) (Val "GA").

Definition twin_disk : Disk :=
  mkDisk (Some (PointsArray [legacy_point; twin_point]))
    (Some (RootArray [legacy_record])) ∅.

(** A point whose [mile] is missing and whose [mile_est] is [null]. *)
Definition null_estimate_point : Point :=
  mkPoint (Val "GA_0010_0") Absent FAbsent FNull
    (FNum (Fin (346 # 10))) (FNum (Fin (- 842 # 10))) (Val "GA").

(** A point whose [mile] overflowed to [Infinity] when parsed and whose
    [mile_est] is a number. *)
Definition infinite_mile_point : Point :=
  mkPoint (Val "GA_0010_0") Absent (FNum PInf) (FNum (Fin 10))
    (FNum (Fin (346 # 10))) (FNum (Fin (- 842 # 10))) (Val "GA").

(** A migrated point that never had a legacy id. *)
Definition canonical_point : Point :=
  mkPoint (Val "at-main-mi0010000") Absent (FNum (Fin 10)) FAbsent
    (FNum (Fin (346 # 10))) (FNum (Fin (- 842 # 10))) (Val "GA").

Definition canonical_disk : Disk :=
  mkDisk (Some (PointsArray [canonical_point])) (Some RootOther) ∅.

(** Two points with the same id and an empty normals store. *)
Definition same_id_disk : Disk :=
  mkDisk (Some (PointsArray [canonical_point;
                             mkPoint (Val "at-main-mi0010000") (Val "GA_0010_0")
                               (FNum (Fin 10)) FAbsent
                               (FNum (Fin (346 # 10))) (FNum (Fin (- 842 # 10)))
                               (Val "GA")]))
    (Some (RootObject (mkNormalsObject None (Some []) ∅))) ∅.

(** A store in a mixed state: the point is migrated, and the normals hold
    a record under its legacy id and a record under its new id. *)
Definition migrated_point : Point :=
  mkPoint (Val "at-main-mi0010000") (Val "GA_0010_0") (FNum (Fin 10)) FAbsent
    (FNum (Fin (346 # 10))) (FNum (Fin (- 842 # 10))) (Val "GA").

Definition canonical_record : NormalsRecord :=
  mkRecord (Val "at-main-mi0010000") Absent [Some (Fin 51)] [Some (Fin 31)].

Definition mixed_disk : Disk :=
  mkDisk (Some (PointsArray [migrated_point]))
    (Some (RootObject
             (mkNormalsObject None (Some [legacy_record; canonical_record]) ∅))) ∅.

(** Two points without normals, and an empty normals store. *)
Definition second_point : Point :=
  mkPoint (Val "at-main-mi0020000") (Val "GA_0020_0") (FNum (Fin 20)) FAbsent
    (FNum (Fin (347 # 10))) (FNum (Fin (- 841 # 10))) (Val "GA").

Definition empty_store_disk : Disk :=
  mkDisk (Some (PointsArray [migrated_point; second_point]))
    (Some (RootObject (mkNormalsObject None (Some []) ∅))) ∅.

(** Two readings of the clock, one second apart. *)
Definition noon : string := "20240501_120000".
Definition noon_01 : string := "20240501_120001".

(** An archive that answers every request with a one-day series. *)
Definition archive_up : Network :=
  fun _ => mkResponse 200 None (Some (mkDaily 1 [Some (Fin 50)] [Some (Fin 30)])).

(** An archive that answers every request with status 429. *)
Definition archive_limited : Network :=
  fun _ => mkResponse 429 (Some (Fin 1)) None.

(** The index of the specification's example: points at miles 0, 10, 20. *)
Definition index_point (mile : Z) : PointIndex.Point :=
  PointIndex.mkPoint "p" "GA" (Fin (inject_Z mile)) (Fin 0) (Fin 0).

Definition three_points : list PointIndex.Point :=
  [index_point 0; index_point 10; index_point 20].

(** A page with those points and one profile, warm in January and without
    data on January 2. *)
Definition sample_app : Extremes.App :=
  Extremes.mkApp three_points (Some (Fin 0)) (Some (Fin 20))
    {[ "p"%string := Extremes.mkNormals
                        [Some (Fin 40); None; Some (Fin 45)]
                        [Some (Fin 20); Some (Fin 10); Some (Fin 25)] ]}.

(** Three days northbound from 2021-01-01 at ten miles a day. *)
Definition sample_trip : Extremes.Trip :=
  Extremes.mkTrip "NOBO" (Extremes.days_from_civil 2021 1 1) (Fin 10) 3.

End Samples.

(* ===================================================================== *)
(** ** [migrate-ids-at-main.js]: the range of the miles *)
(* ===================================================================== *)

Module CodecRange.
Import Js.

(** The largest magnitude of a mile considered: ten million miles.  Up to
    it the product with 1000 stays below 2^34, where the binary64 numbers
    are less than 2^-18 apart. *)
Definition MAX_MILE : Q := inject_Z (10 ^ 7).

End CodecRange.

(* ===================================================================== *)
(** ** [migrate-ids-at-main.js]: what a run leaves behind *)
(* ===================================================================== *)

Module MigrateRun.
Import Js Store Codec Fs Migrate.

(** How a completed pass relates a point to its rewritten point: the new id
    encodes the mile, the old id is kept as [legacy_id] unless there was one
    already, and nothing else changes. *)
Definition rekeyed_point (p p' : Point) : Prop :=
  (exists mile newId,
      mileFromPoint p = Ok mile /\ toNewId mile = Ok newId /\ p_id p' = Val newId) /\
  p_legacy_id p' = Val (coalesce (p_legacy_id p) (String_of_prop (p_id p))) /\
  p_mile p' = p_mile p /\ p_mile_est p' = p_mile_est p /\
  p_lat p' = p_lat p /\ p_lon p' = p_lon p /\ p_state p' = p_state p.

(** How a completed pass relates a normals record to its rewritten record,
    given the rewritten points. *)
Definition rekeyed_record (ups : list Point) (rec rec' : NormalsRecord) : Prop :=
  r_id rec' ∈ map p_id ups /\
  r_legacy_id rec' = Val (coalesce (r_legacy_id rec) (String_of_prop (r_id rec))) /\
  r_hi rec' = r_hi rec /\ r_lo rec' = r_lo rec.

(** The five keys that the run sets in [meta]. *)
Definition id_keys : list string :=
  ["id_format"; "id_scale"; "id_alignment"; "id_trail_code"; "id_migration_note"]%string.

(** The directory after a run that wrote, with the time stamps [tagPoints]
    and [tagNormals]: both files rewritten, and the two files as they were
    copied under the two backup names. *)
Definition committed (tagPoints tagNormals : string) (d d' : Disk) : Prop :=
  exists (pointsRoot : PointsRoot) (normalsRoot : NormalsRoot)
         (ups : list Point) (root' : NormalsRoot)
         (urecs : list NormalsRecord) (md : mode),
    points_json d = Some pointsRoot /\
    historical_weather_json d = Some normalsRoot /\
    d' = mkDisk (Some (PointsArray ups)) (Some root')
           (<[ backupPath NORMALS_PATH tagNormals := NormalsContent normalsRoot ]>
              (<[ backupPath POINTS_PATH tagPoints := PointsContent pointsRoot ]>
                 (backups d))) /\
    NoDup (map p_id ups) /\
    getNormalsArray root' = Ok (urecs, md) /\
    NoDup (map r_id urecs).

End MigrateRun.

(* ===================================================================== *)
(** ** [normalize-points-mile-only.js]: the run *)
(* ===================================================================== *)

Module NormalizeRun.
Import Js Store Normalize.

(** The value of [data.points] when [data] is not an array: falsy (missing,
    [null], [false], [0], the empty string), an array of points, or any other
    value. *)
Inductive pointsField : Type :=
| FieldFalsy
| FieldArray (points : list Point)
| FieldOther.

(** What [readJson(POINTS_PATH)] returns: an array of points, [null], or a
    value with properties, given by its [points] property and its other own
    properties (none for a number or a boolean). *)
Inductive Data : Type :=
| DataArray (points : list Point)
| DataNull
| DataObject (points : pointsField) (other : gmap string metaValue).

(** The points file, when it exists, and the backup copies, by file
    name. *)
Record Dir : Type := mkDir {
  file : option Data;
  copies : gmap string Data
}.

(** How a run ends: it logs the number of records, or throws. *)
Inductive exit : Type :=
| Completed (records : nat)
| Failed (e : error)
| UnexpectedShape.

(** [points.map(normalizePoint)]: the callback gets the element and its
    index; the first exception ends the loop. *)
Fixpoint normalizeFrom (idx : nat) (points : list Point) : result (list Point) :=
  match points with
  | [] => Ok []
  | pt :: rest =>
      let! out := normalizePoint pt idx in
      let! outs := normalizeFrom (S idx) rest in
      Ok (out :: outs)
  end.

(** [Array.isArray(data)]. *)
Definition isArray (data : Data) : bool :=
  match data with DataArray _ => true | _ => false end.

(** The points that [main] selects: [data] itself, or [data.points || []];
    or the exception of this stage. *)
Definition select (data : Data) : exit + list Point :=
  match data with
  | DataArray points => inr points
  | DataNull => inl (Failed (TypeError "data is null"))
  | DataObject FieldFalsy _ => inr []
  | DataObject (FieldArray points) _ => inr points
  | DataObject FieldOther _ => inl UnexpectedShape
  end.

(** [isArray ? normalized : { ...data, points: normalized }]. *)
Definition rewritten (data : Data) (normalized : list Point) : Data :=
  if isArray data then DataArray normalized
  else DataObject (FieldArray normalized)
         (match data with DataObject _ other => other | _ => ∅ end).

(** [main()]; [tag] is what [timestampTag()] returns.  [copyFileSync]
    writes the backup copy, over a file of that name when there is one. *)
Definition main (tag : string) (d : Dir) : exit * Dir :=
  match file d with
  | None => (Failed (MissingFile POINTS_PATH), d)
  | Some data =>
      match select data with
      | inl e => (e, d)
      | inr points =>
          match normalizeFrom 0 points with
          | Throw e => (Failed e, d)
          | Ok normalized =>
              (Completed (length normalized),
               mkDir (Some (rewritten data normalized))
                 (<[ backupPath POINTS_PATH tag := data ]> (copies d)))
          end
      end
  end.

(** A point as the script leaves it: a finite number in [mile], no
    [mile_est]. *)
Definition mile_only (pt : Point) : Prop :=
  (exists q, p_mile pt = FNum (Fin q)) /\ p_mile_est pt = FAbsent.

(** [out] is [pt] with its mile moved to [mile]: every other property is
    the same. *)
Definition same_but_mile (pt out : Point) : Prop :=
  p_id out = p_id pt /\ p_legacy_id out = p_legacy_id pt /\
  p_lat out = p_lat pt /\ p_lon out = p_lon pt /\ p_state out = p_state pt.

(** The points a file holds, as [main] selects them. *)
Definition points_of (data : Data) : list Point :=
  match select data with
  | inr points => points
  | inl _ => []
  end.

End NormalizeRun.

Module NormalizeSamples.
Import Js Store NormalizeRun.

(** A points file of the shape [{ points: [...] }] with a legacy point. *)
Definition wrapped_dir : Dir :=
  mkDir (Some (DataObject (FieldArray [Samples.legacy_point])
                 {[ "version"%string := MString "1" ]})) ∅.

(** A point without [mile] and without [mile_est]. *)
Definition mileless_point : Point :=
  mkPoint (Val "GA_0020_0") Absent FAbsent FAbsent
    (FNum (Fin (347 # 10))) (FNum (Fin (- 841 # 10))) (Val "GA").

Definition broken_dir : Dir :=
  mkDir (Some (DataArray [Samples.legacy_point; mileless_point])) ∅.

End NormalizeSamples.

(* ===================================================================== *)
(** ** [migrate-historical-ids-mixed.js]: what a run leaves behind *)
(* ===================================================================== *)

Module MixedRun.
Import Js Store Fs MigrateMixed.

(** [String(p.id)] and [String(rec.id)]. *)
Definition pointId (p : Point) : string := String_of_prop (p_id p).
Definition recordId (rec : NormalsRecord) : string := String_of_prop (r_id rec).

(** The legacy id of a point that has one. *)
Definition legacyOf (p : Point) : string := coalesce (p_legacy_id p) "".

(** Every point carries an id of the new scheme. *)
Definition canonical_points (points : list Point) : Prop :=
  forall p, p ∈ points -> isNewId (pointId p) = true.

(** How a completed run relates a record to the record written for it: the
    profiles are kept; a [legacy_id] that was set is kept; the id is kept
    when it is of the new scheme, and is otherwise the id of a point whose
    [legacy_id] it was. *)
Definition normalized_record (points : list Point) (rec rec' : NormalsRecord) : Prop :=
  r_hi rec' = r_hi rec /\ r_lo rec' = r_lo rec /\
  (forall l, r_legacy_id rec = Val l -> r_legacy_id rec' = Val l) /\
  (if isNewId (recordId rec) then recordId rec' = recordId rec
   else exists p, p ∈ points /\ p_legacy_id p = Val (recordId rec) /\
                  r_id rec' = Val (pointId p) /\
                  r_legacy_id rec' = Val (coalesce (r_legacy_id rec) (recordId rec))).

End MixedRun.

(* ===================================================================== *)
(** ** [generate-missing-normals-at.js]: a run over an archive that answers *)
(* ===================================================================== *)

Module AggregatorRun.
Import Js Store Http Aggregator.

(** [Number.isFinite(lat) && Number.isFinite(lon)] for the coordinates of a
    point. *)
Definition has_coordinates (p : Point) : bool :=
  Number_isFinite (Number_of (p_lat p)) && Number_isFinite (Number_of (p_lon p)).

(** The archive answers the request with a 2xx response that carries a
    daily series with at least one date. *)
Definition answers (net : Network) (request : nat) (d : Daily) : Prop :=
  ok (net request) = true /\ daily (net request) = Some d /\ time_length d <> 0%nat.

(** The records a run appends when every request is answered: one per point
    with coordinates, in the order of the points, the [k]-th of them from the
    response to request [first + k]. *)
Fixpoint appended (net : Network) (first : nat) (queue : list Point)
  : list NormalsRecord :=
  match queue with
  | [] => []
  | p :: rest =>
      if has_coordinates p then
        match daily (net first) with
        | Some d => newRecord p d :: appended net (S first) rest
        | None => appended net (S first) rest
        end
      else appended net first rest
  end.

(** [String(r.id)] of a record of the store. *)
Definition storedId (r : NormalsRecord) : string := String_of_prop (r_id r).

(** The daily series the archive gives for a request, when it answers
    with a 2xx response that carries one with at least one date. *)
Definition series (net : Network) (request : nat) : option Daily :=
  if ok (net request) then
    match daily (net request) with
    | Some d => if (time_length d =? 0)%nat then None else Some d
    | None => None
    end
  else None.

(** The records that the specification asks of a run over a queue of
    points, whatever the archive does: one record per point with coordinates,
    in the order of the queue, from the series of the next request; nothing
    for a point without coordinates; and nothing more from the first request
    that brings no series, at which the run stops. *)
Fixpoint stored_for (net : Network) (first : nat) (queue : list Point)
  : list NormalsRecord :=
  match queue with
  | [] => []
  | p :: rest =>
      if has_coordinates p then
        match series net first with
        | Some d => newRecord p d :: stored_for net (S first) rest
        | None => []
        end
      else stored_for net first rest
  end.

End AggregatorRun.

(* ===================================================================== *)
(** ** The calendar of a year that is not a leap year *)
(* ===================================================================== *)

Module Calendar.
Import Extremes.

(** The number of days of a month of a year that is not a leap year. *)
Definition month_length (m : Z) : Z :=
  if m =? 2 then 28
  else if (m =? 4) || (m =? 6) || (m =? 9) || (m =? 11) then 30
  else 31.

(** [(m, d)] is a day of a year that is not a leap year. *)
Definition calendar_day (md : Z * Z) : bool :=
  let '(m, d) := md in
  (1 <=? m) && (m <=? 12) && (1 <=? d) && (d <=? month_length m).

(** The number of days of a non-leap year before the month [m]. *)
Definition days_before_month (m : Z) : Z :=
  if m =? 1 then 0 else if m =? 2 then 31 else if m =? 3 then 59
  else if m =? 4 then 90 else if m =? 5 then 120 else if m =? 6 then 151
  else if m =? 7 then 181 else if m =? 8 then 212 else if m =? 9 then 243
  else if m =? 10 then 273 else if m =? 11 then 304 else 334.

(** The days of 2021 in order, as [toISODate(addDays(start, i)).slice(5)]
    gives them. *)
Definition year_days : list (Z * Z) :=
  map (fun n => monthDay (addDays (days_from_civil 2021 1 1) (Z.of_nat n))) (seq 0 365).

End Calendar.

(* ===================================================================== *)
(** ** [js/app.js]: what the extremes of a trip have to be *)
(* ===================================================================== *)

Module ExtremesSpec.
Import Js Store PointIndex Extremes Calendar.

(** The miles walked before day [i] at the daily rate of the trip. *)
Definition cumulative_miles (trip : Trip) (i : nat) : num :=
  mul (milesPerDay trip) (Fin (inject_Z (Z.of_nat i))).

(** [x] brought into the interval from [a] to [b]:
    [min(max(x, a), b)]. *)
Definition clamped (a b : Q) (x : num) : num :=
  match x with
  | NaN => NaN
  | PInf => Fin b
  | NInf => Fin (Qmin a b)
  | Fin q => Fin (Qmin (Qmax q a) b)
  end.

(** The projected mile of day [i]: the cumulative miles counted forward
    from the lower end of the trail, or backward from its upper end for a
    southbound trip, clamped to the trail. *)
Definition projected_mile (trip : Trip) (trailMin trailMax : Q) (i : nat) : num :=
  clamped trailMin trailMax
    (if String.eqb (direction trip) "SOBO"
     then sub (Fin trailMax) (cumulative_miles trip i)
     else add (Fin trailMin) (cumulative_miles trip i)).

(** The index of a date in the reference year, which is not a leap year:
    the days before its month plus its day of the month, counted from 0.
    February 29 gets 59, the index of March 1. *)
Definition reference_day (d : Date) : Z :=
  let '(m, dd) := monthDay d in days_before_month m + dd - 1.

(** The two temperatures of a point for a date: the slots of its normals
    record for the reference day, when the point has a record and both slots
    hold a finite number. *)
Definition temperatures (app : App) (p : Point) (d : Date) : option (Q * Q) :=
  match normalsByPointId app !! id p with
  | Some normals =>
      match at_index (hi normals) (reference_day d),
            at_index (lo normals) (reference_day d) with
      | Some (Some (Fin h)), Some (Some (Fin l)) => Some (h, l)
      | _, _ => None
      end
  | None => None
  end.

(** What day [i] of a trip contributes: nothing when its projected mile is
    not a number; else, for a nearest point of the index to the projected
    mile, the record of the date, the mile, the point and its two
    temperatures, or nothing when the point has no temperatures for the
    date. *)
Definition day_outcome (app : App) (trip : Trip) (trailMin trailMax : Q)
    (i : nat) (o : option DayRec) : Prop :=
  let d := addDays (startDate trip) (Z.of_nat i) in
  match projected_mile trip trailMin trailMax i with
  | Fin t =>
      exists p,
        nearest (allPointsSortedByMile app) t p /\
        o = match temperatures app p d with
            | Some (h, l) => Some (mkDayRec d (Fin t) p (Fin h) (Fin l))
            | None => None
            end
  | _ => o = None
  end.

(** What the page has to show for a trip: a status while the normals or the
    points are not loaded; else, with what each day of the trip contributes,
    the first hottest and the first coldest of the records, or "unable to
    compute" when no day contributes one. *)
Definition expected_view (app : App) (trip : Trip) (view : View) : Prop :=
  if (size (normalsByPointId app) =? 0)%nat then view = NormalsNotLoaded
  else
    match trailMinMiles app, trailMaxMiles app with
    | Some (Fin trailMin), Some (Fin trailMax) =>
        if (length (allPointsSortedByMile app) =? 0)%nat then view = PointsStillLoading
        else
          exists days : list (option DayRec),
            length days = durationDays trip /\
            (forall (i : nat) (o : option DayRec),
                days !! i = Some o -> day_outcome app trip trailMin trailMax i o) /\
            match omap (fun o : option DayRec => o) days with
            | [] => view = UnableToCompute
            | recs =>
                exists h c, view = Tables h c /\
                            first_hottest recs h /\ first_coldest recs c
            end
    | _, _ => view = PointsStillLoading
    end.

End ExtremesSpec.

(* ===================================================================== *)
(** ** [generate-missing-normals-at.js]: the averages *)
(* ===================================================================== *)

Module Averages.
Import Js Store Extremes.

(** An entry of [daily.time]: the date string ["YYYY-MM-DD"], by the three
    numbers it spells.  A month and a day of the month are written with two
    digits, so two such strings have the same ["MM-DD"] part exactly when
    their months and days are equal. *)
Record IsoDate : Type := mkIso {
  iso_year : Z;
  iso_month : Z;
  iso_day : Z
}.

(** The [daily] object of a response body; a missing array is empty. *)
Record RawDaily : Type := mkRawDaily {
  time : list IsoDate;
  temperature_2m_max : list slot;
  temperature_2m_min : list slot
}.

(** [iso.slice(5)]: the key ["MM-DD"], by its two numbers. *)
Definition mmdd (iso : IsoDate) : Z * Z := (iso_month iso, iso_day iso).

(** [dayIndexFromMMDD(mmdd)], for a month from 1 to 12. *)
Definition dayIndexFromMMDD (key : Z * Z) : Z :=
  let '(mm, dd) := key in
  days_from_civil 2021 mm dd - days_from_civil 2021 1 1.

(** [isFeb29(isoDate)]. *)
Definition isFeb29 (iso : IsoDate) : bool :=
  (iso_month iso =? 2) && (iso_day iso =? 29).

(** [buildEmpty365()]. *)
Definition buildEmpty365 : list slot := repeat None 365.

(** A value of the map [acc]. *)
Record Bucket : Type := mkBucket {
  maxSum : num;
  maxN : nat;
  minSum : num;
  minN : nat
}.

Definition emptyBucket : Bucket := mkBucket (Fin 0) 0 (Fin 0) 0.

(** [arr[i]] of the first element, [undefined] past the end counting as
    [null]: neither is a finite number. *)
Definition first (arr : list slot) : slot := default None (head arr).

(** The two updates of a bucket for one date. *)
Definition observe (b : Bucket) (hi lo : slot) : Bucket :=
  let b1 := match hi with
            | Some (Fin q) => mkBucket (add (maxSum b) (Fin q)) (S (maxN b)) (minSum b) (minN b)
            | _ => b
            end in
  match lo with
  | Some (Fin q) => mkBucket (maxSum b1) (maxN b1) (add (minSum b1) (Fin q)) (S (minN b1))
  | _ => b1
  end.

(** The map [acc], in insertion order. *)
Definition Acc : Type := list ((Z * Z) * Bucket).

(** [acc.get(key)]. *)
Fixpoint get (key : Z * Z) (acc : Acc) : option Bucket :=
  match acc with
  | [] => None
  | (k, b) :: rest => if decide (k = key) then Some b else get key rest
  end.

(** [if (!acc.has(key)) acc.set(key, empty)] followed by the update [f] of
    [acc.get(key)]: a new key goes to the end. *)
Fixpoint upsert (key : Z * Z) (f : Bucket -> Bucket) (acc : Acc) : Acc :=
  match acc with
  | [] => [(key, f emptyBucket)]
  | (k, b) :: rest =>
      if decide (k = key) then (k, f b) :: rest else (k, b) :: upsert key f rest
  end.

(** The first loop, over the dates from index [i] on; [tmax] and [tmin] are
    the two arrays from index [i] on. *)
Fixpoint accumulate (times : list IsoDate) (tmax tmin : list slot) (acc : Acc) : Acc :=
  match times with
  | [] => acc
  | iso :: times' =>
      let acc' :=
        if isFeb29 iso then acc
        else upsert (mmdd iso) (fun b => observe b (first tmax) (first tmin)) acc in
      accumulate times' (tail tmax) (tail tmin) acc'
  end.

(** [sum / n] for a count [n] that is not zero. *)
Definition div_count (sum : num) (n : nat) : num :=
  match sum with
  | Fin a => fl (a / inject_Z (Z.of_nat n))
  | _ => sum
  end.

(** [n ? (sum / n) : null]. *)
Definition average (sum : num) (n : nat) : slot :=
  if (n =? 0)%nat then None else Some (div_count sum n).

(** One iteration of the second loop. *)
Definition fill (profiles : list slot * list slot) (entry : (Z * Z) * Bucket)
  : list slot * list slot :=
  let idx := dayIndexFromMMDD (fst entry) in
  if (idx <? 0) || (364 <? idx) then profiles
  else (<[ Z.to_nat idx := average (maxSum (snd entry)) (maxN (snd entry)) ]> (fst profiles),
        <[ Z.to_nat idx := average (minSum (snd entry)) (minN (snd entry)) ]> (snd profiles)).

(** [Number.isFinite(v)] for a slot. *)
Definition finiteValue (v : slot) : bool :=
  match v with
  | Some x => Number_isFinite x
  | None => false
  end.

(** [arr.filter(v => Number.isFinite(v)).length]. *)
Definition countFinite (arr : list slot) : nat :=
  length (filter (fun v => finiteValue v = true) arr).

Record Summary : Type := mkSummary {
  hi365 : list slot;
  lo365 : list slot;
  hiCount : nat;
  loCount : nat
}.

(** [compute365AveragesFromDaily(daily)]. *)
Definition compute365AveragesFromDaily (daily : RawDaily) : Summary :=
  let acc := accumulate (time daily) (temperature_2m_max daily)
               (temperature_2m_min daily) [] in
  let profiles := fold_left fill acc (buildEmpty365, buildEmpty365) in
  mkSummary (fst profiles) (snd profiles)
    (countFinite (fst profiles)) (countFinite (snd profiles)).

(** The finite values of [vals] on the dates of [times] that fall on the
    calendar day [key], in the order of the dates. *)
Fixpoint day_values (key : Z * Z) (times : list IsoDate) (vals : list slot) : list num :=
  match times with
  | [] => []
  | iso :: times' =>
      let rest := day_values key times' (tail vals) in
      if decide (mmdd iso = key) then
        match first vals with
        | Some (Fin q) => Fin q :: rest
        | _ => rest
        end
      else rest
  end.

(** The mean of a list of numbers as the script computes it: the sum from
    0 in list order, divided by the count; [null] for no number. *)
Definition mean (xs : list num) : slot :=
  match xs with
  | [] => None
  | _ => Some (div_count (fold_left add xs (Fin 0)) (length xs))
  end.

(** A date of the calendar: a day of a non-leap year, or a February 29. *)
Definition calendar_date (iso : IsoDate) : Prop :=
  Calendar.calendar_day (mmdd iso) = true \/ mmdd iso = (2, 29).

(** The values a slot adds to a sum. *)
Definition finite_part (v : slot) : list num :=
  match v with
  | Some (Fin q) => [Fin q]
  | _ => []
  end.

(** A bucket after more values. *)
Definition grown (b : Bucket) (his los : list num) : Bucket :=
  mkBucket (fold_left add his (maxSum b)) (maxN b + length his)
           (fold_left add los (minSum b)) (minN b + length los).

(** Whether some date of [times] falls on the calendar day [key]. *)
Definition occurs (key : Z * Z) (times : list IsoDate) : bool :=
  existsb (fun iso => bool_decide (mmdd iso = key)) times.

End Averages.

Module AveragesSamples.
Import Js Store Averages.

(** A series over a leap day: February 29 and March 1 of 2020, March 1 of
    2021, the last without a low. *)
Definition leap_series : RawDaily :=
  mkRawDaily [mkIso 2020 2 29; mkIso 2020 3 1; mkIso 2021 3 1]
    [Some (Fin 90); Some (Fin 50); Some (Fin 60)]
    [Some (Fin 10); Some (Fin 30); None].

End AveragesSamples.

(* ===================================================================== *)
(** ** [js/app.js]: loading the points and the normals *)
(* ===================================================================== *)

Module Loader.
Import Js Store.

(** [Math.max(x, y)]. *)
Definition Math_max (x y : num) : num :=
  match x, y with
  | NaN, _ | _, NaN => NaN
  | _, _ => if le x y then y else x
  end.

(** The comparator of the two sorts by mile says that [a] goes after [b]:
    [a.mile_est - b.mile_est > 0]. *)
Definition after (a b : PointIndex.Point) : bool :=
  gt (sub (PointIndex.mile_est a) (PointIndex.mile_est b)) (Fin 0).

(** [arr.sort((a, b) => a.mile_est - b.mile_est)].  The sort of an array is
    stable, and over finite miles the comparator is a consistent order, which
    determines the sorted array: it is the one that insertion from the right
    builds. *)
Fixpoint insert_by_mile (p : PointIndex.Point) (sorted : list PointIndex.Point)
  : list PointIndex.Point :=
  match sorted with
  | [] => [p]
  | q :: rest => if after p q then q :: insert_by_mile p rest else p :: sorted
  end.

Definition sort_by_mile (arr : list PointIndex.Point) : list PointIndex.Point :=
  foldr insert_by_mile [] arr.

Section WithStrings.

(** [s.toUpperCase()] and [String(x)] of a number. *)
Variable toUpperCase : string -> string.
Variable Number_toString : num -> string.

(** The callback of [data.map] in [loadPoints]. *)
Definition convert (p : Point) : PointIndex.Point :=
  let state := toUpperCase (match p_state p with Val s => s | _ => "" end) in
  let mile_est := Number_of (p_mile_est p) in
  PointIndex.mkPoint
    (match p_id p with
     | Val s => s
     | _ => state +:+ "_" +:+ Number_toString mile_est
     end)
    state mile_est (Number_of (p_lat p)) (Number_of (p_lon p)).

(** The callback of [filter] in [loadPoints]. *)
Definition usable (p : PointIndex.Point) : bool :=
  negb (String.eqb (PointIndex.state p) "") &&
  Number_isFinite (PointIndex.mile_est p) &&
  Number_isFinite (PointIndex.lat p) && Number_isFinite (PointIndex.lon p).

(** The globals that [loadPoints] sets. *)
Record Loaded : Type := mkLoaded {
  allPoints : list PointIndex.Point;
  allPointsSortedByMile : list PointIndex.Point;
  pointsByState : gmap string (list PointIndex.Point);
  trailMaxMiles : num;
  trailMinMiles : num;
  trailTotalMiles : option num
}.

(** The first loop of [buildPointsByState]. *)
Definition groupByState (points : list PointIndex.Point)
  : gmap string (list PointIndex.Point) :=
  fold_left
    (fun m p => <[ PointIndex.state p := default [] (m !! PointIndex.state p) ++ [p] ]> m)
    points ∅.

(** [buildPointsByState()]. *)
Definition buildPointsByState (points : list PointIndex.Point)
  : gmap string (list PointIndex.Point) :=
  sort_by_mile <$> groupByState points.

(** [loadPoints()], from the array that the response holds. *)
Definition loadPoints (data : list Point) : Loaded :=
  let all := filter (fun p => usable p = true) (map convert data) in
  let mx := fold_left (fun mx p => Math_max mx (PointIndex.mile_est p)) all NInf in
  let mn := fold_left (fun mn p => Math_min mn (PointIndex.mile_est p)) all PInf in
  mkLoaded all (sort_by_mile all) (buildPointsByState all) mx mn
    (if Number_isFinite mx && Number_isFinite mn then Some (sub mx mn) else None).

End WithStrings.

(** An element of [payload.points] that is not [null]: its id, and its
    [hi] and [lo] when they are arrays. *)
Record Entry : Type := mkEntry {
  e_id : prop string;
  e_hi : option (list slot);
  e_lo : option (list slot)
}.

(** The loop of [loadPrecomputedNormals] over [payload.points]; an element
    that is [null] is [None]. *)
Definition indexNormals (pts : list (option Entry)) : gmap string Extremes.Normals :=
  fold_left
    (fun m p =>
       match p with
       | Some e =>
           match e_id e with
           | Val s =>
               if String.eqb s "" then m
               else
                 match e_hi e, e_lo e with
                 | Some hi, Some lo => <[ s := Extremes.mkNormals hi lo ]> m
                 | _, _ => m
                 end
           | _ => m
           end
       | None => m
       end)
    pts ∅.

(** The element [p] is a record with the id [s] and the two profiles [n]:
    one that [loadPrecomputedNormals] does not skip. *)
Definition indexed (s : string) (p : option Entry) : option Extremes.Normals :=
  match p with
  | Some e =>
      match e_id e, e_hi e, e_lo e with
      | Val s', Some hi, Some lo =>
          if String.eqb s' s && negb (String.eqb s' "")
          then Some (Extremes.mkNormals hi lo) else None
      | _, _, _ => None
      end
  | None => None
  end.

(** The miles are in ascending order. *)
Definition ascending (arr : list PointIndex.Point) : Prop :=
  StronglySorted (fun a b => (PointIndex.mileQ a <= PointIndex.mileQ b)%Q) arr.

End Loader.

(* ===================================================================== *)
(** ** [js/app.js]: the planning average of the weather tool *)
(* ===================================================================== *)

Module Planning.
Import Js Store Extremes Averages.

Definition TYPICAL_WINDOW_DAYS : nat := 3.

(** A value of the map of [indexHistoricalByMonthDay]: the arrays [max] and
    [min]. *)
Definition Series : Type := list num * list num.

(** [if (v != null) arr.push(v)]. *)
Definition pushValue (arr : list num) (v : slot) : list num :=
  match v with
  | Some x => arr ++ [x]
  | None => arr
  end.

(** [indexHistoricalByMonthDay(histDaily)], from the dates of [times] on;
    [tmax] and [tmin] are the two arrays from the same index on. *)
Fixpoint indexFrom (times : list IsoDate) (tmax tmin : list slot)
    (idx : gmap (Z * Z) Series) : gmap (Z * Z) Series :=
  match times with
  | [] => idx
  | iso :: times' =>
      let bucket := default ([], []) (idx !! mmdd iso) in
      indexFrom times' (tail tmax) (tail tmin)
        (<[ mmdd iso := (pushValue (fst bucket) (first tmax),
                         pushValue (snd bucket) (first tmin)) ]> idx)
  end.

Definition indexHistoricalByMonthDay (histDaily : RawDaily) : gmap (Z * Z) Series :=
  indexFrom (time histDaily) (temperature_2m_max histDaily)
    (temperature_2m_min histDaily) ∅.

(** [mdWindowKeys(dateISO, windowDays)] for the date ["2001-MM-DD"] of a
    month and a day: the keys of the days from [windowDays] before to
    [windowDays] after that day of 2001. *)
Definition mdWindowKeys (md : Z * Z) (windowDays : nat) : list (Z * Z) :=
  let base := days_from_civil 2001 (fst md) (snd md) in
  map (fun j => monthDay (addDays base (Z.of_nat j - Z.of_nat windowDays)))
      (seq 0 (2 * windowDays + 1)).

(** [avg(arr)]. *)
Definition avg (arr : list num) : slot :=
  match arr with
  | [] => None
  | _ => Some (div_count (fold_left add arr (Fin 0)) (length arr))
  end.

(** [computePlanningAverageForMonthDay(histDaily, monthDay, windowDays)]:
    [avgHigh] and [avgLow]. *)
Definition computePlanningAverageForMonthDay (histDaily : RawDaily) (md : Z * Z)
    (windowDays : nat) : slot * slot :=
  let idx := indexHistoricalByMonthDay histDaily in
  let keys := mdWindowKeys md windowDays in
  let maxVals := concat (map (fun k => fst (default ([], []) (idx !! k))) keys) in
  let minVals := concat (map (fun k => snd (default ([], []) (idx !! k))) keys) in
  (avg maxVals, avg minVals).

(** The values of [vals] that are not [null] on the dates of [times] that
    fall on the calendar day [key], in the order of the dates. *)
Fixpoint observed (key : Z * Z) (times : list IsoDate) (vals : list slot) : list num :=
  match times with
  | [] => []
  | iso :: times' =>
      let rest := observed key times' (tail vals) in
      if decide (mmdd iso = key) then
        match first vals with
        | Some x => x :: rest
        | None => rest
        end
      else rest
  end.

(** The slot of the day after the day of slot [i], around the year. *)
Definition next_slot (i : Z) : Z := (i + 1) mod 365.

(** The keys follow each other day by day. *)
Fixpoint consecutive (keys : list (Z * Z)) : bool :=
  match keys with
  | k :: (k' :: _) as rest =>
      (dayIndexInNonLeapYearFromMonthDay k'
       =? next_slot (dayIndexInNonLeapYearFromMonthDay k)) && consecutive rest
  | _ => true
  end.

(** The window of a day: seven different days of the calendar, one after
    the other around the year, the day itself in the middle. *)
Definition same_day (a b : Z * Z) : bool := (fst a =? fst b) && (snd a =? snd b).

Fixpoint distinct (keys : list (Z * Z)) : bool :=
  match keys with
  | [] => true
  | k :: rest => negb (existsb (same_day k) rest) && distinct rest
  end.

Definition centred_week (md : Z * Z) (keys : list (Z * Z)) : bool :=
  (length keys =? 7)%nat && distinct keys &&
  forallb Calendar.calendar_day keys &&
  match keys !! 3%nat with Some k => same_day k md | None => false end &&
  consecutive keys.

End Planning.

(* ===================================================================== *)
(** ** [js/app.js]: the start date of a hike *)
(* ===================================================================== *)

Module Duration.
Import Extremes.

(** [resolveStartDateFromMonthDay(monthDay)], on the day [today]: this
    year's occurrence of the month and day, or next year's when this year's
    is past. *)
Definition resolveStartDateFromMonthDay (today : Date) (md : Z * Z) : Date :=
  let '(mm, dd) := md in
  let year := fst (fst (civil_from_days today)) in
  let candidate := days_from_civil year mm dd in
  if candidate <? today then days_from_civil (year + 1) mm dd else candidate.

End Duration.

(* ===================================================================== *)
(** ** [js/app.js]: the cache in [localStorage] *)
(* ===================================================================== *)

Module Cache.
Import Js.

Section WithData.

(** The values that are cached: what [JSON.parse] gives back for what
    [JSON.stringify] wrote. *)
Variable Data : Type.

(** A stored string: one that does not parse, or parses to something without
    [ts]; or the object [{ ts, data }] with a number for [ts]. *)
Inductive Item : Type :=
| Unreadable
| Stamped (ts : num) (data : Data).

(** Whether a number is truthy. *)
Definition truthy (x : num) : bool :=
  match x with
  | NaN => false
  | Fin q => negb (Qeq_bool q 0)
  | _ => true
  end.

(** [cacheGet(key, ttlMs)] when [Date.now()] is [now]; [None] is [null]. *)
Definition cacheGet (key : string) (ttlMs : num) (now : Z) (st : gmap string Item) : option Data :=
  match st !! key with
  | Some (Stamped ts data) =>
      if negb (truthy ts) then None
      else if gt (sub (of_Z now) ts) ttlMs then None
      else Some data
  | _ => None
  end.

(** [cacheSet(key, data)] when [Date.now()] is [now]. *)
Definition cacheSet (key : string) (data : Data) (now : Z) (st : gmap string Item)
  : gmap string Item :=
  <[ key := Stamped (of_Z now) data ]> st.

End WithData.

Arguments Unreadable {Data}.
Arguments Stamped {Data} ts data.

(** Thirty minutes, the time to live of a forecast. *)
Definition FORECAST_TTL_MS : num := Fin (inject_Z (30 * 60 * 1000)).

End Cache.

(* ===================================================================== *)
(** ** [build_planning_normals.js]: how a call of the retry wrapper ends *)
(* ===================================================================== *)

Module RetryTotal.
Import Js Http Retry.

(** What a call that ended at its request number [n] did: every request
    before the last got a retryable failure, a delay was slept after each of
    them, and the last response decided the result. *)
Definition settled (o : Options) (net : Network) (first : nat)
    (r : result Response) (t : Trace) : Prop :=
  exists n : nat,
    requests t = S n /\ (n <= maxRetries o)%nat /\
    slept t = delays o net first n /\
    retryable_failures net first n /\
    match r with
    | Ok resp => resp = net (first + n)%nat /\ ok resp = true
    | Throw e =>
        e = HttpError (status (net (first + n)%nat)) /\
        ok (net (first + n)%nat) = false /\
        (retryable (net (first + n)%nat) = false \/ n = maxRetries o)
    end.

End RetryTotal.

(* ===================================================================== *)
(** * Properties *)
(* ===================================================================== *)

(** ** Binary64 rounding *)

Module RoundFacts.
Import Js.
Local Open Scope Q_scope.

Lemma two_pos : 0 < 2. Proof. reflexivity. Qed.
Lemma two_nz : ~ 2 == 0. Proof. discriminate. Qed.
Lemma one_lt_two : 1 < 2. Proof. reflexivity. Qed.
Lemma one_le_two : 1 <= 2. Proof. discriminate. Qed.

Lemma pow2_pos (e : Z) : 0 < 2 ^ e.
Proof. apply Qpower_0_lt, two_pos. Qed.

Lemma pow2_nz (e : Z) : ~ 2 ^ e == 0.
Proof. apply Qpower_not_0, two_nz. Qed.

Lemma pow2_succ (e : Z) : 2 ^ (e + 1) == 2 * 2 ^ e.
Proof. rewrite Qpower_plus by exact two_nz. change (2 ^ 1) with 2. ring. Qed.

Lemma pow2_le (a b : Z) : (a <= b)%Z -> 2 ^ a <= 2 ^ b.
Proof. intros H. apply Qpower_le_compat_l; [exact H | exact one_le_two]. Qed.

Lemma pow2_lt (a b : Z) : (a < b)%Z -> 2 ^ a < 2 ^ b.
Proof. intros H. apply Qpower_lt_compat_l; [exact H | exact one_lt_two]. Qed.

Lemma pow2_Z (k : Z) : (0 <= k)%Z -> inject_Z (2 ^ k) == 2 ^ k.
Proof. intros H. now rewrite Zpower_Qpower. Qed.

(** *** The binary logarithm *)

Lemma ilog2_unique (q : Q) (a b : Z) :
  2 ^ a <= q -> q < 2 ^ (a + 1) -> 2 ^ b <= q -> q < 2 ^ (b + 1) -> a = b.
Proof.
  intros A1 A2 B1 B2.
  assert (H1 : (a < b + 1)%Z).
  { apply Qpower_lt_compat_l_inv with (q := 2); [|exact one_lt_two].
    eapply Qle_lt_trans; eassumption. }
  assert (H2 : (b < a + 1)%Z).
  { apply Qpower_lt_compat_l_inv with (q := 2); [|exact one_lt_two].
    eapply Qle_lt_trans; eassumption. }
  lia.
Qed.

Lemma log2_bounds (n : Z) :
  (0 < n)%Z -> 2 ^ Z.log2 n <= inject_Z n /\ inject_Z n < 2 ^ (Z.log2 n + 1).
Proof.
  intros H. destruct (Z.log2_spec n H) as [L U].
  pose proof (Z.log2_nonneg n) as Hn.
  rewrite <- !pow2_Z by lia. rewrite <- Zle_Qle, <- Zlt_Qlt.
  replace (Z.log2 n + 1)%Z with (Z.succ (Z.log2 n)) by lia. auto.
Qed.

Lemma ilog2_spec (q : Q) : 0 < q -> 2 ^ ilog2 q <= q /\ q < 2 ^ (ilog2 q + 1).
Proof.
  intros Hq. unfold ilog2.
  destruct q as [n d]. cbn [Qnum Qden].
  assert (Hn : (0 < n)%Z).
  { unfold Qlt in Hq. cbn in Hq. lia. }
  destruct (log2_bounds n Hn) as [Ln Un].
  destruct (log2_bounds (Zpos d) eq_refl) as [Ld Ud].
  set (a := Z.log2 n) in *. set (b := Z.log2 (Zpos d)) in *.
  assert (Eq : n # d == inject_Z n / inject_Z (Zpos d)) by apply Qmake_Qdiv.
  assert (Hd : 0 < inject_Z (Zpos d)) by reflexivity.
  assert (Hup : n # d < 2 ^ (a - b + 1)).
  { rewrite Eq. apply Qlt_shift_div_r; [exact Hd|].
    apply Qlt_le_trans with (2 ^ (a + 1)); [exact Un|].
    replace (a + 1)%Z with ((a - b + 1) + b)%Z by lia.
    rewrite Qpower_plus by exact two_nz.
    apply Qmult_le_l; [apply pow2_pos | exact Ld]. }
  assert (Hlo : 2 ^ (a - b - 1) < n # d).
  { rewrite Eq. apply Qlt_shift_div_l; [exact Hd|].
    apply Qlt_le_trans with (2 ^ a); [|exact Ln].
    replace a with ((a - b - 1) + (b + 1))%Z at 2 by lia.
    rewrite Qpower_plus by exact two_nz.
    apply Qmult_lt_l; [apply pow2_pos | exact Ud]. }
  destruct (Qle_bool (2 ^ (a - b)) (n # d)) eqn:E.
  - apply Qle_bool_iff in E. split; [exact E | exact Hup].
  - split; [apply Qlt_le_weak, Hlo|].
    replace (a - b - 1 + 1)%Z with (a - b)%Z by lia.
    apply Qnot_le_lt. intros H. apply Qle_bool_iff in H. congruence.
Qed.

Lemma ilog2_eq (q : Q) (e : Z) : 2 ^ e <= q -> q < 2 ^ (e + 1) -> ilog2 q = e.
Proof.
  intros L U.
  assert (Hq : 0 < q) by (eapply Qlt_le_trans; [apply pow2_pos | exact L]).
  destruct (ilog2_spec q Hq) as [L' U'].
  eapply ilog2_unique; eassumption.
Qed.

Lemma ilog2_comp (q q' : Q) : 0 < q -> q == q' -> ilog2 q = ilog2 q'.
Proof.
  intros Hq E. destruct (ilog2_spec q Hq) as [L U].
  symmetry. apply ilog2_eq; rewrite <- E; assumption.
Qed.

Lemma ilog2_mono (q q' : Q) : 0 < q -> q <= q' -> (ilog2 q <= ilog2 q')%Z.
Proof.
  intros Hq Hle.
  destruct (ilog2_spec q Hq) as [L U].
  destruct (ilog2_spec q') as [L' U']; [eapply Qlt_le_trans; eassumption|].
  assert (H : (ilog2 q < ilog2 q' + 1)%Z).
  { apply Qpower_lt_compat_l_inv with (q := 2); [|exact one_lt_two].
    eapply Qle_lt_trans; [exact L|]. eapply Qle_lt_trans; eassumption. }
  lia.
Qed.

(** *** Rounding to an integer *)

Lemma nearest_even_cases (m : Q) :
  let f := Qfloor m in
  (nearest_even m = f /\ m - inject_Z f <= 1 # 2) \/
  (nearest_even m = (f + 1)%Z /\ 1 # 2 <= m - inject_Z f).
Proof.
  cbv zeta. unfold nearest_even.
  destruct (Qcompare_spec (m - inject_Z (Qfloor m)) (1 # 2)) as [E|E|E].
  - destruct (Z.even (Qfloor m)); [left | right]; split; auto; rewrite E; apply Qle_refl.
  - left. split; [reflexivity | apply Qlt_le_weak, E].
  - right. split; [reflexivity | apply Qlt_le_weak, E].
Qed.

Lemma floor_bounds (m : Q) : inject_Z (Qfloor m) <= m /\ m < inject_Z (Qfloor m) + 1.
Proof.
  split; [apply Qfloor_le|].
  pose proof (Qlt_floor m) as H. rewrite inject_Z_plus in H. exact H.
Qed.

Lemma nearest_even_error (m : Q) : Qabs (inject_Z (nearest_even m) - m) <= 1 # 2.
Proof.
  destruct (floor_bounds m) as [L U].
  destruct (nearest_even_cases m) as [[-> H]|[-> H]]; apply Qabs_Qle_condition.
  - split; lra.
  - rewrite inject_Z_plus. change (inject_Z 1) with 1. split; lra.
Qed.

Lemma nearest_even_Z (z : Z) : nearest_even (inject_Z z) = z.
Proof.
  unfold nearest_even. rewrite Qfloor_Z.
  destruct (Qcompare_spec (inject_Z z - inject_Z z) (1 # 2)) as [E|E|E];
    [exfalso; lra | reflexivity | exfalso; lra].
Qed.

Lemma nearest_even_comp (m m' : Q) : m == m' -> nearest_even m = nearest_even m'.
Proof.
  intros E. unfold nearest_even. rewrite (Qfloor_comp _ _ E).
  assert (E' : m - inject_Z (Qfloor m') == m' - inject_Z (Qfloor m')) by (rewrite E; reflexivity).
  rewrite (Qcompare_comp _ _ E' _ _ (Qeq_refl _)). reflexivity.
Qed.

Lemma nearest_even_mono (m m' : Q) : m <= m' -> (nearest_even m <= nearest_even m')%Z.
Proof.
  intros Hle.
  pose proof (Qfloor_resp_le _ _ Hle) as Hf.
  destruct (floor_bounds m) as [L U]. destruct (floor_bounds m') as [L' U'].
  destruct (Z.eq_dec (Qfloor m) (Qfloor m')) as [E|N].
  - unfold nearest_even. rewrite <- E.
    destruct (Qcompare_spec (m - inject_Z (Qfloor m)) (1 # 2)) as [A|A|A];
      destruct (Qcompare_spec (m' - inject_Z (Qfloor m)) (1 # 2)) as [B|B|B];
      try destruct (Z.even (Qfloor m)); try lia; exfalso; lra.
  - destruct (nearest_even_cases m) as [[-> _]|[-> _]];
      destruct (nearest_even_cases m') as [[-> _]|[-> _]]; lia.
Qed.

Lemma nearest_even_opp (m : Q) : nearest_even (- m) = (- nearest_even m)%Z.
Proof.
  destruct (floor_bounds m) as [L U]. destruct (floor_bounds (- m)) as [L' U'].
  set (f := Qfloor m) in *. set (g := Qfloor (- m)) in *.
  assert (Hg : (g = - f \/ g = - f - 1)%Z).
  { assert (H1 : inject_Z g < inject_Z (- f + 1)).
    { rewrite inject_Z_plus, inject_Z_opp. change (inject_Z 1) with 1. lra. }
    assert (H2 : inject_Z (- f - 1) < inject_Z (g + 1)).
    { unfold Z.sub. rewrite !inject_Z_plus, !inject_Z_opp. change (inject_Z 1) with 1. lra. }
    rewrite <- Zlt_Qlt in H1, H2. lia. }
  unfold nearest_even. fold f g.
  destruct Hg as [Hg|Hg].
  - (* m is an integer *)
    assert (Em : m == inject_Z f).
    { rewrite Hg, inject_Z_opp in L'. lra. }
    destruct (Qcompare_spec (- m - inject_Z g) (1 # 2)) as [A|A|A];
      destruct (Qcompare_spec (m - inject_Z f) (1 # 2)) as [B|B|B];
      rewrite ?Hg, ?inject_Z_opp in *; try lia; exfalso; lra.
  - assert (Eg : inject_Z g == - inject_Z f - 1).
    { rewrite Hg. unfold Z.sub. rewrite inject_Z_plus, !inject_Z_opp. reflexivity. }
    assert (Ev : Z.even g = negb (Z.even f)).
    { rewrite Hg. replace (- f - 1)%Z with (- (f + 1))%Z by lia.
      rewrite Z.even_opp. replace (f + 1)%Z with (Z.succ f) by lia.
      rewrite Z.even_succ, <- Z.negb_even. reflexivity. }
    destruct (Qcompare_spec (- m - inject_Z g) (1 # 2)) as [A|A|A];
      destruct (Qcompare_spec (m - inject_Z f) (1 # 2)) as [B|B|B];
      rewrite ?Ev; try destruct (Z.even f); cbn [negb]; try lia; exfalso; lra.
Qed.


(** *** Rounding to binary64 *)

Lemma Qabs_opp' (q : Q) : Qabs (- q) = Qabs q.
Proof. destruct q as [n d]. unfold Qabs, Qopp. cbn. now rewrite Z.abs_opp. Qed.

Lemma round64_eq (q : Q) :
  round64 q == inject_Z (nearest_even (q / 2 ^ ulp_exponent q)) * 2 ^ ulp_exponent q.
Proof. apply Qred_correct. Qed.

Lemma round64_zero (q : Q) : q == 0 -> round64 q = 0.
Proof.
  intros E. unfold round64.
  assert (H : q / 2 ^ ulp_exponent q == inject_Z 0).
  { generalize (2 ^ ulp_exponent q). intros x. rewrite E.
    change (inject_Z 0) with 0. unfold Qdiv. ring. }
  rewrite (nearest_even_comp _ _ H), nearest_even_Z.
  change 0 with (Qred 0). apply Qred_complete. change (inject_Z 0) with 0. ring.
Qed.

Lemma ulp_exponent_comp (q q' : Q) : ~ q == 0 -> q == q' -> ulp_exponent q = ulp_exponent q'.
Proof.
  intros N E. unfold ulp_exponent. f_equal. f_equal.
  apply ilog2_comp; [|now rewrite E].
  pose proof (Qabs_nonneg q) as H. apply Qle_lt_or_eq in H. destruct H as [H|H]; [exact H|].
  exfalso. apply N. symmetry in H. revert H. apply Qabs_case; intros; lra.
Qed.

Lemma round64_comp (q q' : Q) : q == q' -> round64 q = round64 q'.
Proof.
  intros E. destruct (Qeq_dec q 0) as [Z|N].
  - rewrite (round64_zero q Z), (round64_zero q'); [reflexivity | now rewrite <- E].
  - unfold round64. rewrite <- (ulp_exponent_comp q q' N E).
    assert (H : q / 2 ^ ulp_exponent q == q' / 2 ^ ulp_exponent q).
    { generalize (2 ^ ulp_exponent q). intros x. rewrite E. reflexivity. }
    rewrite (nearest_even_comp _ _ H). reflexivity.
Qed.

Lemma round64_opp (q : Q) : round64 (- q) = - round64 q.
Proof.
  unfold round64, ulp_exponent. rewrite Qabs_opp'.
  set (e := (Z.max (ilog2 (Qabs q)) (-1022) - 52)%Z).
  assert (H : - q / 2 ^ e == - (q / 2 ^ e)) by (unfold Qdiv; ring).
  rewrite (nearest_even_comp _ _ H), nearest_even_opp, <- Qred_opp.
  apply Qred_complete. rewrite inject_Z_opp. ring.
Qed.

(** A positive number and its rounding lie in the same closed binade; the
    subnormal numbers form one such interval from 0. *)
Lemma round64_binade (q : Q) :
  0 < q ->
  ((-1022 <= ilog2 q)%Z -> 2 ^ ilog2 q <= round64 q /\ round64 q <= 2 ^ (ilog2 q + 1)) /\
  ((ilog2 q < -1022)%Z -> 0 <= round64 q /\ round64 q <= 2 ^ (-1022)).
Proof.
  intros Hq. destruct (ilog2_spec q Hq) as [L U].
  assert (Ea : Qabs q = q).
  { destruct q as [n d]. unfold Qabs. cbn. f_equal. unfold Qlt in Hq. cbn in Hq. lia. }
  rewrite round64_eq. unfold ulp_exponent. rewrite Ea.
  set (e := ilog2 q) in *.
  split; intros He.
  - rewrite Z.max_l by lia.
    set (m := q / 2 ^ (e - 52)).
    assert (Lm : inject_Z (2 ^ 52) <= m).
    { unfold m. apply Qle_shift_div_l; [apply pow2_pos|].
      rewrite pow2_Z, <- Qpower_plus by (try exact two_nz; lia).
      now replace (52 + (e - 52))%Z with e by lia. }
    assert (Um : m <= inject_Z (2 ^ 53)).
    { unfold m. apply Qle_shift_div_r; [apply pow2_pos|].
      rewrite pow2_Z, <- Qpower_plus by (try exact two_nz; lia).
      replace (53 + (e - 52))%Z with (e + 1)%Z by lia. now apply Qlt_le_weak. }
    apply nearest_even_mono in Lm, Um. rewrite nearest_even_Z in Lm, Um.
    split.
    + replace e with (52 + (e - 52))%Z at 1 by lia.
      rewrite Qpower_plus by exact two_nz.
      apply Qmult_le_compat_r; [|apply Qlt_le_weak, pow2_pos].
      rewrite <- pow2_Z by lia. now rewrite <- Zle_Qle.
    + replace (e + 1)%Z with (53 + (e - 52))%Z by lia.
      rewrite Qpower_plus by exact two_nz.
      apply Qmult_le_compat_r; [|apply Qlt_le_weak, pow2_pos].
      rewrite <- pow2_Z by lia. now rewrite <- Zle_Qle.
  - rewrite Z.max_r by lia. change (-1022 - 52)%Z with (-1074)%Z.
    set (m := q / 2 ^ (-1074)).
    assert (Lm : inject_Z 0 <= m).
    { unfold m. apply Qle_shift_div_l; [apply pow2_pos|].
      change (inject_Z 0) with 0. rewrite Qmult_0_l. now apply Qlt_le_weak. }
    assert (Um : m <= inject_Z (2 ^ 52)).
    { unfold m. apply Qle_shift_div_r; [apply pow2_pos|].
      rewrite pow2_Z, <- Qpower_plus by (try exact two_nz; lia).
      change (52 + -1074)%Z with (-1022)%Z.
      apply Qlt_le_weak. eapply Qlt_le_trans; [exact U|]. apply pow2_le. lia. }
    apply nearest_even_mono in Lm, Um. rewrite nearest_even_Z in Lm, Um.
    split.
    + apply Qmult_le_0_compat; [|apply Qlt_le_weak, pow2_pos].
      change 0 with (inject_Z 0). now rewrite <- Zle_Qle.
    + change (-1022)%Z with (52 + -1074)%Z.
      rewrite Qpower_plus by exact two_nz.
      apply Qmult_le_compat_r; [|apply Qlt_le_weak, pow2_pos].
      rewrite <- pow2_Z by lia. now rewrite <- Zle_Qle.
Qed.

Lemma round64_nonneg (q : Q) : 0 <= q -> 0 <= round64 q.
Proof.
  intros H. apply Qle_lt_or_eq in H. destruct H as [H|H].
  - destruct (round64_binade q H) as [A B].
    destruct (Z_le_gt_dec (-1022) (ilog2 q)) as [C|C].
    + destruct (A C) as [A1 _]. eapply Qle_trans; [|exact A1]. apply Qlt_le_weak, pow2_pos.
    + apply B. lia.
  - rewrite (round64_zero q); [apply Qle_refl | now symmetry].
Qed.

Lemma round64_mono_pos (q q' : Q) : 0 < q -> q <= q' -> round64 q <= round64 q'.
Proof.
  intros Hq Hle.
  assert (Hq' : 0 < q') by (eapply Qlt_le_trans; eassumption).
  pose proof (ilog2_mono q q' Hq Hle) as He.
  destruct (round64_binade q Hq) as [A B]. destruct (round64_binade q' Hq') as [A' B'].
  assert (Ea : forall x, 0 < x -> Qabs x = x).
  { intros [n d] Hx. unfold Qabs. cbn. f_equal. unfold Qlt in Hx. cbn in Hx. lia. }
  destruct (Z.eq_dec (Z.max (ilog2 q) (-1022)) (Z.max (ilog2 q') (-1022))) as [E|N].
  - rewrite !round64_eq. unfold ulp_exponent. rewrite !Ea by assumption. rewrite <- E.
    apply Qmult_le_compat_r; [|apply Qlt_le_weak, pow2_pos].
    rewrite <- Zle_Qle. apply nearest_even_mono.
    apply Qmult_le_compat_r; [exact Hle|]. apply Qlt_le_weak, Qinv_lt_0_compat, pow2_pos.
  - assert (H' : (-1022 <= ilog2 q')%Z) by lia.
    destruct (A' H') as [L' _].
    eapply Qle_trans; [|exact L'].
    destruct (Z_le_gt_dec (-1022) (ilog2 q)) as [C|C].
    + destruct (A C) as [_ U1]. eapply Qle_trans; [exact U1|]. apply pow2_le. lia.
    + destruct B as [_ U1]; [lia|]. eapply Qle_trans; [exact U1|]. apply pow2_le. lia.
Qed.

Lemma round64_mono (q q' : Q) : q <= q' -> round64 q <= round64 q'.
Proof.
  intros Hle.
  destruct (Qlt_le_dec 0 q) as [Hq|Hq].
  - now apply round64_mono_pos.
  - destruct (Qlt_le_dec q' 0) as [Hq'|Hq'].
    + (* both negative *)
      assert (H : round64 (- q') <= round64 (- q)) by (apply round64_mono_pos; lra).
      rewrite !round64_opp in H. lra.
    + apply Qle_trans with 0; [|now apply round64_nonneg].
      assert (H : 0 <= round64 (- q)) by (apply round64_nonneg; lra).
      rewrite round64_opp in H. lra.
Qed.

(** The distance to the nearest binary64 number is at most half a unit in
    the last place. *)
Lemma round64_error (q : Q) :
  Qabs (round64 q - q) <= (1 # 2) * 2 ^ ulp_exponent q.
Proof.
  rewrite round64_eq. set (e := ulp_exponent q).
  pose proof (nearest_even_error (q / 2 ^ e)) as H.
  assert (E : inject_Z (nearest_even (q / 2 ^ e)) * 2 ^ e - q
              == (inject_Z (nearest_even (q / 2 ^ e)) - q / 2 ^ e) * 2 ^ e).
  { field. apply pow2_nz. }
  rewrite E, Qabs_Qmult, (Qabs_pos (2 ^ e)) by apply Qlt_le_weak, pow2_pos.
  apply Qmult_le_compat_r; [exact H | apply Qlt_le_weak, pow2_pos].
Qed.

(** Below [2 ^ k] in magnitude the distance is at most [2 ^ (k - 54)]. *)
Lemma round64_error_below (q : Q) (k : Z) :
  (-1021 <= k)%Z -> Qabs q < 2 ^ k -> Qabs (round64 q - q) <= 2 ^ (k - 54).
Proof.
  intros Hk Hq.
  destruct (Qeq_dec q 0) as [Z0|N0].
  { rewrite (round64_zero q Z0).
    assert (E : 0 - q == 0) by (rewrite Z0; reflexivity).
    rewrite E. apply Qlt_le_weak, pow2_pos. }
  assert (Ha : 0 < Qabs q).
  { pose proof (Qabs_nonneg q) as H. apply Qle_lt_or_eq in H. destruct H as [H|H]; [exact H|].
    exfalso. apply N0. symmetry in H. revert H. apply Qabs_case; intros; lra. }
  destruct (ilog2_spec _ Ha) as [L _].
  assert (He : (ilog2 (Qabs q) < k)%Z).
  { apply Qpower_lt_compat_l_inv with (q := 2); [|exact one_lt_two].
    eapply Qle_lt_trans; eassumption. }
  eapply Qle_trans; [apply round64_error|].
  replace (k - 54)%Z with (-1 + (k - 53))%Z by lia.
  rewrite Qpower_plus by exact two_nz. change (2 ^ (-1)) with (1 # 2).
  apply Qmult_le_l; [reflexivity|]. apply pow2_le. unfold ulp_exponent. lia.
Qed.

(** A multiple of the unit in the last place is a binary64 number. *)
Lemma round64_exact (q : Q) (n : Z) :
  q == inject_Z n * 2 ^ ulp_exponent q -> round64 q == q.
Proof.
  intros E. rewrite round64_eq.
  assert (H : q / 2 ^ ulp_exponent q == inject_Z n).
  { rewrite E at 1. field. apply pow2_nz. }
  rewrite (nearest_even_comp _ _ H), nearest_even_Z. now symmetry.
Qed.

(** The integers up to 2^53 in magnitude are binary64 numbers. *)
Lemma round64_Z (z : Z) : (Z.abs z <= 2 ^ 53)%Z -> round64 (inject_Z z) == inject_Z z.
Proof.
  intros Hz. destruct (Z.eq_dec z 0%Z) as [->|N].
  - now rewrite round64_zero.
  - assert (Hpos : forall p : Z, (0 < p <= 2 ^ 53)%Z -> round64 (inject_Z p) == inject_Z p).
    { intros p [P1 P2].
      assert (Hq : 0 < inject_Z p) by (change 0 with (inject_Z 0); now rewrite <- Zlt_Qlt).
      destruct (ilog2_spec _ Hq) as [L U].
      assert (He : (ilog2 (inject_Z p) <= 53)%Z).
      { assert (H : (ilog2 (inject_Z p) < 54)%Z); [|lia].
        apply Qpower_lt_compat_l_inv with (q := 2); [|exact one_lt_two].
        eapply Qle_lt_trans; [exact L|]. rewrite <- pow2_Z by lia. rewrite <- Zlt_Qlt. lia. }
      assert (He0 : (0 <= ilog2 (inject_Z p))%Z).
      { assert (H : (0 < ilog2 (inject_Z p) + 1)%Z); [|lia].
        apply Qpower_lt_compat_l_inv with (q := 2); [|exact one_lt_two].
        eapply Qle_lt_trans; [|exact U]. change (2 ^ 0) with (inject_Z 1).
        rewrite <- Zle_Qle. lia. }
      assert (Ea : Qabs (inject_Z p) = inject_Z p).
      { unfold Qabs, inject_Z. f_equal. lia. }
      set (e := ilog2 (inject_Z p)) in *.
      assert (Eu : ulp_exponent (inject_Z p) = (e - 52)%Z).
      { unfold ulp_exponent. rewrite Ea. fold e. lia. }
      destruct (Z_le_gt_dec e 52%Z) as [C|C].
      - apply round64_exact with (n := (p * 2 ^ (52 - e))%Z). rewrite Eu.
        rewrite inject_Z_mult, pow2_Z by lia.
        rewrite <- Qmult_assoc, <- Qpower_plus by exact two_nz.
        replace (52 - e + (e - 52))%Z with 0%Z by lia. change (2 ^ 0) with 1. ring.
      - assert (e = 53%Z) by lia.
        assert (Ep : p = (2 ^ 53)%Z).
        { assert (H1 : (2 ^ 53 <= p)%Z); [|lia].
          rewrite Zle_Qle, pow2_Z by lia. now replace 53%Z with e by lia. }
        apply round64_exact with (n := (2 ^ 52)%Z). rewrite Eu, Ep.
        replace (e - 52)%Z with 1%Z by lia. reflexivity. }
    destruct (Z_lt_le_dec 0%Z z) as [P|P].
    + apply Hpos. lia.
    + assert (H : round64 (inject_Z (- z)) == inject_Z (- z)) by (apply Hpos; lia).
      rewrite inject_Z_opp, round64_opp in H. lra.
Qed.


Lemma Qabs_pos_eq (x : Q) : 0 <= x -> Qabs x = x.
Proof.
  destruct x as [n d]. intros H. unfold Qabs. cbn. f_equal.
  unfold Qle in H. cbn in H. lia.
Qed.

Lemma ulp_exponent_pos (q : Q) :
  0 < q -> ulp_exponent q = (Z.max (ilog2 q) (-1022) - 52)%Z.
Proof. intros H. unfold ulp_exponent. rewrite Qabs_pos_eq by now apply Qlt_le_weak. reflexivity. Qed.

Lemma round64_idem_pos (q : Q) : 0 < q -> round64 (round64 q) == round64 q.
Proof.
  intros Hq.
  pose proof (round64_eq q) as Er. rewrite (ulp_exponent_pos q Hq) in Er.
  destruct (round64_binade q Hq) as [A B].
  set (r := round64 q) in *. set (e := ilog2 q) in *.
  set (n := nearest_even (q / 2 ^ (Z.max e (-1022) - 52))) in *.
  destruct (Qeq_dec r 0) as [Z0|N0].
  { rewrite (round64_zero r Z0). now symmetry. }
  assert (Hr : 0 < r).
  { assert (H0 : 0 <= r) by now apply round64_nonneg, Qlt_le_weak.
    apply Qle_lt_or_eq in H0. destruct H0 as [H0|H0]; [exact H0|].
    exfalso. apply N0. now symmetry. }
  destruct (ilog2_spec r Hr) as [Lr Ur].
  destruct (Z_le_gt_dec (-1022) e) as [C|C].
  - destruct (A C) as [L U]. apply Qle_lt_or_eq in U. destruct U as [U|U].
    + assert (Ee : ilog2 r = e) by now apply ilog2_eq.
      apply round64_exact with (n := n).
      rewrite (ulp_exponent_pos r Hr), Ee. exact Er.
    + assert (Ee : ilog2 r = (e + 1)%Z).
      { apply ilog2_eq; [rewrite U; apply Qle_refl|].
        rewrite U. apply pow2_lt. lia. }
      apply round64_exact with (n := (2 ^ 52)%Z).
      rewrite (ulp_exponent_pos r Hr), Ee, U.
      rewrite pow2_Z, <- Qpower_plus by (try exact two_nz; lia).
      rewrite Z.max_l by lia. now replace (52 + (e + 1 - 52))%Z with (e + 1)%Z by lia.
  - destruct B as [L U]; [lia|].
    assert (Ee : (ilog2 r <= -1022)%Z).
    { assert (H : (ilog2 r < -1022 + 1)%Z); [|lia].
      apply Qpower_lt_compat_l_inv with (q := 2); [|exact one_lt_two].
      eapply Qle_lt_trans; [exact Lr|].
      eapply Qle_lt_trans; [exact U|]. apply pow2_lt. lia. }
    apply round64_exact with (n := n).
    rewrite (ulp_exponent_pos r Hr).
    rewrite Z.max_r by lia. rewrite Z.max_r in Er by lia. exact Er.
Qed.

(** The result of a rounding is a binary64 number. *)
Lemma round64_idem (q : Q) : round64 (round64 q) = round64 q.
Proof.
  assert (H : round64 (round64 q) == round64 q).
  { destruct (Qlt_le_dec 0 q) as [Hq|Hq]; [now apply round64_idem_pos|].
    apply Qle_lt_or_eq in Hq. destruct Hq as [Hq|Hq].
    - assert (Hn : round64 (round64 (- q)) == round64 (- q)) by (apply round64_idem_pos; lra).
      rewrite !round64_opp in Hn. lra.
    - rewrite (round64_zero q Hq). rewrite round64_zero; reflexivity. }
  unfold round64 at 1 3. apply Qred_complete.
  rewrite <- !round64_eq. exact H.
Qed.

Lemma round64_abs (q : Q) : round64 (Qabs q) == Qabs (round64 q).
Proof.
  destruct (Qlt_le_dec q 0) as [H|H].
  - assert (E : Qabs q == - q) by (apply Qabs_neg; lra).
    rewrite (round64_comp _ _ E), round64_opp.
    symmetry. apply Qabs_neg.
    assert (Hn : 0 <= round64 (- q)) by (apply round64_nonneg; lra).
    rewrite round64_opp in Hn. lra.
  - rewrite (Qabs_pos_eq q H). symmetry. apply Qabs_pos. now apply round64_nonneg.
Qed.

(** A binary64 number is a multiple of the least positive one. *)
Lemma binary64_grid (q : Q) :
  round64 q == q -> exists n : Z, q == inject_Z n * 2 ^ (-1074).
Proof.
  intros H. rewrite round64_eq in H.
  set (e := ulp_exponent q) in *. set (n := nearest_even (q / 2 ^ e)) in *.
  assert (He : (-1074 <= e)%Z) by (unfold e, ulp_exponent; lia).
  exists (n * 2 ^ (e + 1074))%Z.
  rewrite inject_Z_mult, pow2_Z by lia.
  rewrite <- Qmult_assoc, <- Qpower_plus by exact two_nz.
  replace (e + 1074 + -1074)%Z with e by lia. now symmetry.
Qed.

(** A difference of two binary64 numbers that are not equal does not round
    to zero. *)
Lemma round64_sub_pos (a b : Q) :
  round64 a == a -> round64 b == b -> b < a -> 0 < round64 (a - b).
Proof.
  intros Ha Hb Hlt.
  destruct (binary64_grid a Ha) as [na Ea]. destruct (binary64_grid b Hb) as [nb Eb].
  assert (Hn : (nb < na)%Z).
  { rewrite Zlt_Qlt. apply Qmult_lt_r with (z := 2 ^ (-1074)); [apply pow2_pos|].
    now rewrite <- Ea, <- Eb. }
  assert (Hge : 2 ^ (-1074) <= a - b).
  { rewrite Ea, Eb.
    assert (H1 : inject_Z 1 <= inject_Z (na - nb)) by (rewrite <- Zle_Qle; lia).
    unfold Z.sub in H1. rewrite inject_Z_plus, inject_Z_opp in H1. change (inject_Z 1) with 1 in H1.
    pose proof (pow2_pos (-1074)) as Hp. nra. }
  apply round64_mono in Hge.
  eapply Qlt_le_trans; [|exact Hge].
  assert (E : round64 (2 ^ (-1074)) == 2 ^ (-1074)).
  { apply round64_exact with (n := 1%Z).
    assert (Eu : ulp_exponent (2 ^ (-1074)) = (-1074)%Z) by (vm_compute; reflexivity).
    rewrite Eu. ring. }
  rewrite E. apply pow2_pos.
Qed.

End RoundFacts.

(** ** Numbers *)

Module JsFacts.
Import Js RoundFacts.

Lemma OVERFLOW_pos : (0 < OVERFLOW)%Q.
Proof. reflexivity. Qed.

Lemma fl_cases (q : Q) :
  (fl q = PInf /\ (OVERFLOW <= q)%Q) \/
  (fl q = NInf /\ (q <= - OVERFLOW)%Q) \/
  (fl q = Fin (round64 q) /\ (- OVERFLOW < q < OVERFLOW)%Q).
Proof.
  unfold fl.
  destruct (Qle_bool OVERFLOW q) eqn:E1.
  - left. split; [reflexivity|]. now apply Qle_bool_iff.
  - destruct (Qle_bool q (- OVERFLOW)) eqn:E2.
    + right; left. split; [reflexivity|]. now apply Qle_bool_iff.
    + right; right. split; [reflexivity|].
      split; apply Qnot_le_lt; intros H; apply Qle_bool_iff in H; congruence.
Qed.

Lemma fl_small (q : Q) : (- OVERFLOW < q < OVERFLOW)%Q -> fl q = Fin (round64 q).
Proof.
  intros [H1 H2].
  destruct (fl_cases q) as [[_ H]|[[_ H]|[H _]]]; [lra | lra | exact H].
Qed.

(** An integer up to 2^53 in magnitude is a number as it is. *)
Lemma round64_integer (z : Z) : Z.abs z <= 2 ^ 53 -> round64 (inject_Z z) = inject_Z z.
Proof.
  intros H. pose proof (round64_Z z H) as E.
  unfold round64 in *. rewrite Qred_correct in E.
  rewrite (Qred_complete _ _ E). apply Qcanon.Qred_identity.
  cbn. apply Z.gcd_1_r.
Qed.

Lemma of_Z_integer (z : Z) : Z.abs z <= 2 ^ 53 -> of_Z z = Fin (inject_Z z).
Proof.
  intros H. unfold of_Z. rewrite fl_small.
  - now rewrite round64_integer.
  - unfold OVERFLOW. rewrite <- inject_Z_opp, <- !Zlt_Qlt.
    assert ((2:Z) ^ 53 < 2 ^ 1024 - 2 ^ 970) by (vm_compute; reflexivity). lia.
Qed.

(** The result of an operation is a binary64 number. *)
Lemma fl_binary64 (q r : Q) : fl q = Fin r -> binary64 r.
Proof.
  destruct (fl_cases q) as [[-> _]|[[-> _]|[-> _]]]; try discriminate.
  intros [= <-]. unfold binary64. now rewrite round64_idem.
Qed.

Section Overflow.
Local Open Scope Q_scope.

Lemma overflow_split : OVERFLOW == inject_Z (2 ^ 54 - 1) * 2 ^ 970.
Proof.
  rewrite <- (pow2_Z 970) by lia. rewrite <- inject_Z_mult. unfold OVERFLOW.
  apply inject_Z_injective. vm_compute. reflexivity.
Qed.

Lemma pow2_1024_split : 2 ^ 1024 == inject_Z (2 ^ 54) * 2 ^ 970.
Proof.
  rewrite <- (pow2_Z 970), <- (pow2_Z 1024) by lia. rewrite <- inject_Z_mult.
  apply inject_Z_injective. vm_compute. reflexivity.
Qed.

Lemma pow2_1023_split : 2 ^ 1023 == inject_Z (2 ^ 53) * 2 ^ 970.
Proof.
  rewrite <- (pow2_Z 970), <- (pow2_Z 1023) by lia. rewrite <- inject_Z_mult.
  apply inject_Z_injective. vm_compute. reflexivity.
Qed.

Lemma pow2_971_split : 2 ^ 971 == 2 * 2 ^ 970.
Proof. apply (pow2_succ 970). Qed.

(** A rounded value stays below the overflow threshold. *)
Lemma round64_below_overflow (q : Q) : 0 < q -> q < OVERFLOW -> round64 q < OVERFLOW.
Proof.
  intros Hpos Hq.
  destruct (Qlt_le_dec (round64 q) OVERFLOW) as [H|H]; [exact H|exfalso].
  set (X := 2 ^ 970) in *.
  assert (HX : 0 < X) by apply pow2_pos.
  pose proof overflow_split as EO. pose proof pow2_1024_split as E24.
  pose proof pow2_1023_split as E23. pose proof pow2_971_split as E71.
  fold X in EO, E24, E23, E71.
  assert (Hq24 : Qabs q < 2 ^ 1024).
  { rewrite Qabs_pos by lra. rewrite E24. rewrite EO in Hq.
    eapply Qlt_trans; [exact Hq|]. apply Qmult_lt_r; [exact HX|].
    rewrite <- Zlt_Qlt. vm_compute. reflexivity. }
  pose proof (round64_error_below q 1024 ltac:(lia) Hq24) as Herr.
  change (1024 - 54)%Z with 970%Z in Herr. fold X in Herr.
  apply Qabs_Qle_condition in Herr. destruct Herr as [_ Herr].
  set (r := round64 q) in *.
  assert (Hr24 : r < 2 ^ 1024).
  { rewrite E24. rewrite EO in Hq.
    assert (E : inject_Z (2 ^ 54) == inject_Z (2 ^ 54 - 1) + 1).
    { change 1 with (inject_Z 1). rewrite <- inject_Z_plus. apply inject_Z_injective. reflexivity. }
    rewrite E. generalize dependent (inject_Z (2 ^ 54 - 1)). intros c; intros. 
    assert ((c + 1) * X == c * X + X) by ring. lra. }
  assert (Hr23 : 2 ^ 1023 <= r).
  { eapply Qle_trans; [|exact H]. rewrite E23, EO.
    apply Qmult_le_compat_r; [|lra]. rewrite <- Zle_Qle. vm_compute. discriminate. }
  assert (Hrpos : 0 < r) by (eapply Qlt_le_trans; [apply (pow2_pos 1023) | exact Hr23]).
  assert (Hlog : ilog2 r = 1023%Z) by (apply ilog2_eq; assumption).
  pose proof (round64_eq r) as Er.
  rewrite (ulp_exponent_pos r Hrpos), Hlog in Er.
  change (Z.max 1023 (-1022) - 52)%Z with 971%Z in Er.
  unfold r in Er at 1. rewrite round64_idem in Er. fold r in Er.
  set (n := nearest_even (r / 2 ^ 971)) in *.
  rewrite E71 in Er. rewrite EO in H. rewrite E24 in Hr24.
  assert (L : inject_Z (2 ^ 54 - 1) <= inject_Z (2 * n)).
  { apply Qmult_le_r with (z := X); [exact HX|].
    rewrite inject_Z_mult. change (inject_Z 2) with 2.
    assert (E : 2 * inject_Z n * X == inject_Z n * (2 * X)) by ring.
    rewrite E, <- Er. exact H. }
  assert (U : inject_Z (2 * n) < inject_Z (2 ^ 54)).
  { apply Qmult_lt_r with (z := X); [exact HX|].
    rewrite inject_Z_mult. change (inject_Z 2) with 2.
    assert (E : 2 * inject_Z n * X == inject_Z n * (2 * X)) by ring.
    rewrite E, <- Er. exact Hr24. }
  rewrite <- Zle_Qle in L. rewrite <- Zlt_Qlt in U.
  assert ((2:Z) ^ 54 = 2 * 2 ^ 53)%Z by reflexivity. lia.
Qed.

Lemma round64_bounded (q : Q) :
  - OVERFLOW < q < OVERFLOW -> - OVERFLOW < round64 q < OVERFLOW.
Proof.
  intros [L U]. pose proof OVERFLOW_pos as HO.
  destruct (Qlt_le_dec 0 q) as [Hq|Hq].
  - split; [|now apply round64_below_overflow].
    pose proof (round64_nonneg q ltac:(lra)). lra.
  - destruct (Qeq_dec q 0) as [E|N].
    + rewrite (round64_zero q E). lra.
    + assert (Hn : 0 < - q) by lra.
      pose proof (round64_below_overflow (- q) Hn ltac:(lra)) as Hb.
      rewrite round64_opp in Hb.
      pose proof (round64_nonneg (- q) ltac:(lra)) as Hnn. rewrite round64_opp in Hnn.
      split; lra.
Qed.

End Overflow.

Lemma fl_comp (q q' : Q) : (q == q')%Q -> fl q = fl q'.
Proof.
  intros E. unfold fl.
  assert (H1 : Qle_bool OVERFLOW q = Qle_bool OVERFLOW q').
  { apply eq_true_iff_eq. rewrite !Qle_bool_iff, E. reflexivity. }
  assert (H2 : Qle_bool q (- OVERFLOW) = Qle_bool q' (- OVERFLOW)).
  { apply eq_true_iff_eq. rewrite !Qle_bool_iff, E. reflexivity. }
  rewrite H1, H2, (round64_comp q q' E). reflexivity.
Qed.

Lemma fl_opp (q : Q) : fl (- q) = neg (fl q).
Proof.
  pose proof OVERFLOW_pos as HO.
  destruct (fl_cases q) as [[-> H]|[[-> H]|[-> H]]]; cbn [neg].
  - destruct (fl_cases (- q)) as [[_ H']|[[E _]|[_ H']]]; [lra | exact E | lra].
  - destruct (fl_cases (- q)) as [[E _]|[[_ H']|[_ H']]]; [exact E | lra | lra].
  - rewrite fl_small by lra. now rewrite round64_opp.
Qed.

(** What an operation gives is a number. *)
Lemma fl_double (q : Q) : double (fl q).
Proof.
  destruct (fl_cases q) as [[-> _]|[[-> _]|[-> H]]]; cbn [double]; trivial.
  rewrite fl_small by now apply round64_bounded. now rewrite round64_idem.
Qed.

Lemma mul_double (x y : num) : double (mul x y).
Proof.
  destruct x as [| | |a], y as [| | |b]; cbn [mul double]; trivial;
    try (destruct (Qsign _); exact I).
  apply fl_double.
Qed.

(** Multiplying by 1 or by -1 is exact. *)
Lemma mul_sign (x : num) :
  double x -> mul (Fin 1) x = x /\ mul (Fin (-1)) x = neg x.
Proof.
  destruct x as [| | |q]; cbn [double]; intros H; split; try reflexivity.
  - cbn [mul]. rewrite <- H. apply fl_comp. ring.
  - cbn [mul]. rewrite (fl_comp (-1 * q) (- q)) by ring.
    now rewrite fl_opp, H.
Qed.

(** A product with a factor that is not finite is not finite. *)
Lemma mul_not_finite_l (x y : num) :
  Number_isFinite x = false -> Number_isFinite (mul x y) = false.
Proof.
  destruct x, y; simpl; try reflexivity; try discriminate;
    intros _; destruct (Qsign q); reflexivity.
Qed.

Lemma round_finite (x : num) :
  Number_isFinite (Math_round x) = Number_isFinite x.
Proof. destruct x; reflexivity. Qed.

(** *** Comparisons of finite numbers *)

Lemma le_Fin (a b : Q) : le (Fin a) (Fin b) = true <-> (a <= b)%Q.
Proof. apply Qle_bool_iff. Qed.

Lemma lt_Fin (a b : Q) : lt (Fin a) (Fin b) = true <-> (a < b)%Q.
Proof.
  cbn [lt]. rewrite negb_true_iff. split.
  - intros H. apply Qnot_le_lt. intros Hle. apply Qle_bool_iff in Hle. congruence.
  - intros H. destruct (Qle_bool b a) eqn:E; [|reflexivity].
    apply Qle_bool_iff in E. lra.
Qed.

Lemma lt_Fin_false (a b : Q) : lt (Fin a) (Fin b) = false <-> (b <= a)%Q.
Proof.
  cbn [lt]. rewrite negb_false_iff. apply Qle_bool_iff.
Qed.

Lemma strict_eq_Fin (a b : Q) : strict_eq (Fin a) (Fin b) = true <-> (a == b)%Q.
Proof. apply Qeq_bool_iff. Qed.

Lemma strict_eq_Fin_false (a b : Q) : strict_eq (Fin a) (Fin b) = false <-> ~ (a == b)%Q.
Proof.
  cbn [strict_eq]. split.
  - intros H E. apply Qeq_bool_iff in E. congruence.
  - intros H. destruct (Qeq_bool a b) eqn:E; [|reflexivity].
    apply Qeq_bool_iff in E. contradiction.
Qed.

Lemma Qabs_cases (q : Q) :
  (0 <= q /\ Qabs q == q)%Q \/ (q <= 0 /\ Qabs q == - q)%Q.
Proof.
  destruct (Qlt_le_dec q 0) as [H|H].
  - right. split; [lra|]. apply Qabs_neg. lra.
  - left. split; [exact H|]. now apply Qabs_pos.
Qed.

Lemma le_trans (x y z : num) : le x y = true -> le y z = true -> le x z = true.
Proof.
  destruct x, y, z; cbn [le]; try discriminate; try reflexivity.
  rewrite !Qle_bool_iff. intros; lra.
Qed.

(** *** Distances *)

(** [Math.abs(a - t)] for finite [a] and [t]: infinite when the difference
    overflows, else the binary64 number nearest to the exact distance. *)
Lemma abs_sub_cases (a t : Q) :
  (Math_abs (sub (Fin a) (Fin t)) = PInf /\ (OVERFLOW <= Qabs (a - t))%Q) \/
  (exists d, Math_abs (sub (Fin a) (Fin t)) = Fin d /\
             (d == round64 (Qabs (a - t)))%Q /\ (Qabs (a - t) < OVERFLOW)%Q).
Proof.
  unfold sub. cbn [neg add].
  assert (E : (a + - t == a - t)%Q) by ring.
  destruct (Qabs_cases (a - t)) as [[Hs Ha]|[Hs Ha]];
    destruct (fl_cases (a + - t)) as [[-> Hf]|[[-> Hf]|[-> Hf]]]; cbn [Math_abs];
    try (left; split; [reflexivity | lra]);
    right; eexists; (split; [reflexivity|]); (split; [|lra]);
    rewrite (round64_comp _ _ E); symmetry; apply round64_abs.
Qed.

(** The computed distance is monotone in the exact distance. *)
Lemma distance_mono (a b t : Q) :
  (Qabs (a - t) <= Qabs (b - t))%Q ->
  le (Math_abs (sub (Fin a) (Fin t))) (Math_abs (sub (Fin b) (Fin t))) = true.
Proof.
  intros H.
  destruct (abs_sub_cases a t) as [[-> Ha]|(da & -> & Ea & Ha)];
    destruct (abs_sub_cases b t) as [[-> Hb]|(db & -> & Eb & Hb)]; cbn [le]; try reflexivity.
  - lra.
  - apply Qle_bool_iff. rewrite Ea, Eb. now apply round64_mono.
Qed.

(** Two computed distances are comparable, and the greater one belongs to
    the greater exact distance. *)
Lemma le_distance_total (a b t : Q) :
  le (Math_abs (sub (Fin a) (Fin t))) (Math_abs (sub (Fin b) (Fin t))) = false ->
  le (Math_abs (sub (Fin b) (Fin t))) (Math_abs (sub (Fin a) (Fin t))) = true /\
  (Qabs (b - t) < Qabs (a - t))%Q.
Proof.
  intros H.
  assert (Hlt : (Qabs (b - t) < Qabs (a - t))%Q).
  { apply Qnot_le_lt. intros Hle. apply (distance_mono a b t) in Hle. congruence. }
  split; [|exact Hlt]. apply distance_mono. now apply Qlt_le_weak.
Qed.

Lemma ulp_exponent_abs (q : Q) : ulp_exponent (Qabs q) = ulp_exponent q.
Proof.
  unfold ulp_exponent. f_equal. f_equal. f_equal.
  destruct q as [n d]. unfold Qabs. cbn. f_equal. apply Z.abs_eq, Z.abs_nonneg.
Qed.

(** A computed distance that is not greater belongs to an exact distance
    that is not greater by more than the two roundings. *)
Lemma distance_close (a b t da : Q) :
  Math_abs (sub (Fin a) (Fin t)) = Fin da ->
  le (Math_abs (sub (Fin a) (Fin t))) (Math_abs (sub (Fin b) (Fin t))) = true ->
  (Qabs (a - t)
   <= Qabs (b - t) + (1 # 2) * 2 ^ ulp_exponent (a - t)
      + (1 # 2) * 2 ^ ulp_exponent (b - t))%Q.
Proof.
  pose proof (round64_error (Qabs (a - t))) as Ea.
  pose proof (round64_error (Qabs (b - t))) as Eb.
  rewrite ulp_exponent_abs in Ea, Eb.
  pose proof (pow2_pos (ulp_exponent (a - t))) as Pa.
  pose proof (pow2_pos (ulp_exponent (b - t))) as Pb.
  apply Qabs_Qle_condition in Ea, Eb. destruct Ea as [Ea1 Ea2]. destruct Eb as [Eb1 Eb2].
  destruct (abs_sub_cases a t) as [[-> Ha]|(da' & -> & Eda & Ha)]; [discriminate|]. intros _.
  destruct (abs_sub_cases b t) as [[-> Hb]|(db & -> & Edb & Hb)]; cbn [le].
  - intros _. lra.
  - rewrite Qle_bool_iff, Eda, Edb. intros H. lra.
Qed.

End JsFacts.

(** ** Identity codec *)

Module CodecFacts.
Import Js Codec RoundFacts JsFacts.

(** *** Decimal digits *)

Lemma length_string_of_uint (d : Decimal.uint) :
  String.length (NilEmpty.string_of_uint d) = Decimal.nb_digits d.
Proof. induction d; simpl; congruence. Qed.

Lemma of_uint_acc_lower (d : Decimal.uint) (acc : positive) :
  Z.pos acc * 10 ^ Z.of_nat (Decimal.nb_digits d) <= Z.pos (Pos.of_uint_acc d acc).
Proof.
  revert acc.
  induction d; intros acc; cbn [Pos.of_uint_acc Decimal.nb_digits];
    [ rewrite Z.pow_0_r; lia | .. ];
    rewrite Nat2Z.inj_succ, Z.pow_succ_r by lia;
    assert (0 <= 10 ^ Z.of_nat (Decimal.nb_digits d)) by (apply Z.pow_nonneg; lia);
    match goal with
    | |- _ <= Z.pos (Pos.of_uint_acc _ ?a) => pose proof (IHd a) as IH
    end;
    nia.
Qed.

Lemma to_uint_lower (p : positive) :
  10 ^ (Z.of_nat (Decimal.nb_digits (Pos.to_uint p)) - 1) <= Z.pos p.
Proof.
  pose proof (DecimalPos.Unsigned.of_to p) as Hof.
  pose proof (DecimalPos.Unsigned.to_of (Pos.to_uint p)) as Hnorm.
  rewrite Hof in Hnorm. cbn [N.to_uint] in Hnorm.
  pose proof (DecimalPos.Unsigned.to_uint_nonnil p) as Hnil.
  pose proof (DecimalPos.Unsigned.to_uint_nonzero p) as Hzero.
  destruct (Pos.to_uint p) as [|u|u|u|u|u|u|u|u|u|u] eqn:E;
    [ congruence | | .. ].
  1: { exfalso. destruct u as [|u'|u'|u'|u'|u'|u'|u'|u'|u'|u'] eqn:Eu;
      [ apply Hzero; reflexivity | .. ];
      rewrite <- Eu in *;
      (assert (Hu : u <> Decimal.Nil) by (rewrite Eu; discriminate));
      pose proof (DecimalFacts.nb_digits_unorm u Hu) as Hle;
      change (Decimal.unorm (Decimal.D0 u)) with (Decimal.unorm u) in Hnorm;
      rewrite <- Hnorm in Hle; cbn [Decimal.nb_digits] in Hle; lia. }
  all: cbn [Pos.of_uint] in Hof; injection Hof as Hof; rewrite <- Hof;
    cbn [Decimal.nb_digits];
    match goal with
    | |- _ <= Z.pos (Pos.of_uint_acc ?v ?a) =>
        pose proof (of_uint_acc_lower v a) as Hlow;
        replace (Z.of_nat (S (Decimal.nb_digits v)) - 1)
          with (Z.of_nat (Decimal.nb_digits v)) by lia;
        assert (0 < 10 ^ Z.of_nat (Decimal.nb_digits v))
          by (apply Z.pow_pos_nonneg; lia)
    end;
    nia.
Qed.

(** The decimal digits of an integer below [10 ^ k] are at most [k]. *)
Lemma length_String_of_Z (n : Z) (k : nat) :
  0 <= n < 10 ^ Z.of_nat k -> (0 < k)%nat ->
  (String.length (String_of_Z n) <= k)%nat.
Proof.
  intros [Hn Hlt] Hk. unfold String_of_Z.
  destruct n as [|p|p]; [simpl; lia | | lia].
  cbn [Z.to_int NilZero.string_of_int].
  pose proof (DecimalPos.Unsigned.to_uint_nonnil p) as Hnil.
  unfold NilZero.string_of_uint.
  destruct (Pos.to_uint p) eqn:E; [congruence | ..];
    rewrite <- E, length_string_of_uint;
    pose proof (to_uint_lower p) as Hlow;
    assert (Z.of_nat (Decimal.nb_digits (Pos.to_uint p)) - 1 < Z.of_nat k)
      by (apply (Z.pow_lt_mono_r_iff 10); lia);
    lia.
Qed.

(** Reading the digits of a natural number back gives the number. *)
Lemma token_value_String_of_Z (n : Z) :
  0 <= n -> token_value (String_of_Z n) = Some n.
Proof.
  intros Hn. unfold token_value, String_of_Z.
  destruct n as [|p|p]; [reflexivity | | lia].
  cbn [Z.to_int NilZero.string_of_int].
  pose proof (DecimalPos.Unsigned.to_uint_nonnil p) as Hnil.
  unfold NilZero.string_of_uint.
  destruct (Pos.to_uint p) eqn:E; [congruence | ..];
    rewrite <- E, NilEmpty.usu; cbn [option_map]; unfold Z.of_uint;
    rewrite DecimalPos.Unsigned.of_to; reflexivity.
Qed.

(** *** Padding *)

Lemma zeros_succ (k : nat) :
  String.concat "" (repeat "0"%string (S k))
  = String "0" (String.concat "" (repeat "0"%string k)).
Proof. destruct k; reflexivity. Qed.

Lemma length_zeros (k : nat) :
  String.length (String.concat "" (repeat "0"%string k)) = k.
Proof.
  induction k; [reflexivity|].
  rewrite zeros_succ. cbn [String.length]. congruence.
Qed.

Lemma append_cons (a : ascii) (s t : string) :
  String a s +:+ t = String a (s +:+ t).
Proof. reflexivity. Qed.

Lemma length_append (s t : string) :
  String.length (s +:+ t) = (String.length s + String.length t)%nat.
Proof.
  induction s; [reflexivity|].
  rewrite append_cons. cbn [String.length]. now rewrite IHs.
Qed.

Lemma length_padStart0 (s : string) (w : nat) :
  String.length (padStart0 s w) = Nat.max w (String.length s).
Proof. unfold padStart0. rewrite length_append, length_zeros. lia. Qed.

Lemma token_value_zero (s : string) :
  token_value (String "0" s) = token_value s.
Proof.
  unfold token_value. cbn [NilEmpty.uint_of_string].
  destruct (NilEmpty.uint_of_string s); reflexivity.
Qed.

Lemma token_value_padStart0 (s : string) (w : nat) :
  token_value (padStart0 s w) = token_value s.
Proof.
  unfold padStart0.
  induction (w - String.length s)%nat as [|k IH]; [reflexivity|].
  rewrite zeros_succ, append_cons. now rewrite token_value_zero.
Qed.

(** *** The codec *)

Lemma String_of_integer_small (n : Z) :
  Z.abs n < 2 ^ 53 -> String_of_integer n = String_of_Z n.
Proof.
  intros H. unfold String_of_integer.
  destruct (Z.ltb_spec (Z.abs n) (2 ^ 53)); [reflexivity | lia].
Qed.

Lemma toNewId_unfold (m : num) :
  toNewId m =
  match scaled m with
  | Some n => Ok (prefix +:+ padStart0 (String_of_integer n) PAD_WIDTH)
  | None => Throw (BadMileValue m)
  end.
Proof.
  unfold toNewId, mileToToken, scaled.
  destruct (Math_round (mul m SCALE)); reflexivity.
Qed.

(** The scaled value of a finite mile is the binary64 product, rounded to
    an integer, unless the product overflows. *)
Lemma scaled_finite (q : Q) :
  (- OVERFLOW < q * 1000 < OVERFLOW)%Q ->
  scaled (Fin q) = Some (Qfloor (round64 (q * 1000) + (1 # 2))).
Proof.
  intros H. unfold scaled, SCALE. cbn [mul].
  rewrite (fl_small _ H). cbn [Math_round].
  now rewrite Qfloor_Z.
Qed.

Lemma scaled_overflow (q : Q) :
  (OVERFLOW <= q * 1000)%Q \/ (q * 1000 <= - OVERFLOW)%Q ->
  scaled (Fin q) = None.
Proof.
  intros H. unfold scaled, SCALE. cbn [mul].
  destruct (fl_cases (q * 1000)) as [[-> _]|[[-> _]|[_ Hs]]];
    [reflexivity | reflexivity | lra].
Qed.

Lemma scaled_not_finite (m : num) :
  Number_isFinite m = false -> scaled m = None.
Proof.
  intros H. unfold scaled.
  pose proof (mul_not_finite_l m SCALE H) as Hm.
  rewrite <- round_finite in Hm.
  destruct (Math_round (mul m SCALE)); [reflexivity .. | discriminate].
Qed.

(** A token of the supported range has exactly seven digits and spells the
    scaled value. *)
Lemma token_in_range (n : Z) :
  0 <= n < 10 ^ 7 ->
  String.length (padStart0 (String_of_integer n) PAD_WIDTH) = 7%nat /\
  token_value (padStart0 (String_of_integer n) PAD_WIDTH) = Some n.
Proof.
  intros Hn. rewrite String_of_integer_small by lia. split.
  - rewrite length_padStart0.
    pose proof (length_String_of_Z n 7 Hn ltac:(lia)). unfold PAD_WIDTH. lia.
  - rewrite token_value_padStart0. apply token_value_String_of_Z. lia.
Qed.

Lemma append_prefix_inj (s t : string) : prefix +:+ s = prefix +:+ t -> s = t.
Proof. apply String.app_inj. Qed.

Lemma Qfloor_bounds (x : Q) :
  (inject_Z (Qfloor x) <= x < inject_Z (Qfloor x) + 1)%Q.
Proof.
  split; [apply Qfloor_le|].
  pose proof (Qlt_floor x) as H. rewrite inject_Z_plus in H. exact H.
Qed.

(** C1, as amended.  [toNewId] throws for every input that is not finite and
    for every finite mile whose product with 1000 overflows.  For every other
    finite mile [q] it returns ["at-main-mi"] followed by [String(n)] padded
    with zeros to seven characters, where [n] is the integer nearest to the
    binary64 product [q * 1000] (a half rounding up), so that [n] is within
    one half and half a unit in the last place of the exact product.  Below
    2^53 in magnitude [String(n)] is the decimal digits of [n], and when
    [0 <= n < 10^7] the token has exactly seven digits, which spell [n].
    The mile that [2190.3] denotes gives [at-main-mi2190300]. *)
Theorem toNewId_spec (m : num) :
  match m with
  | Fin q =>
      if overflows q then toNewId m = Throw (BadMileValue m)
      else
        let n := Qfloor (round64 (q * 1000) + (1 # 2)) in
        toNewId m = Ok (prefix +:+ padStart0 (String_of_integer n) PAD_WIDTH) /\
        (Qabs (inject_Z n - q * 1000)
         <= (1 # 2) + (1 # 2) * 2 ^ ulp_exponent (q * 1000))%Q /\
        (Z.abs n < 2 ^ 53 ->
         toNewId m = Ok (prefix +:+ padStart0 (String_of_Z n) PAD_WIDTH)) /\
        (0 <= n < 10 ^ 7 ->
         exists token, toNewId m = Ok ("at-main-mi" +:+ token) /\
                       String.length token = 7%nat /\
                       token_value token = Some n)
  | _ => toNewId m = Throw (BadMileValue m)
  end /\
  toNewId (fl (21903 # 10)) = Ok "at-main-mi2190300"%string.
Proof.
  split; [| vm_compute; reflexivity].
  destruct m as [| | |q]; try (rewrite toNewId_unfold, scaled_not_finite; reflexivity).
  unfold overflows.
  destruct (Qle_bool OVERFLOW (q * 1000)) eqn:E1; cbn [orb].
  { apply Qle_bool_iff in E1. rewrite toNewId_unfold, scaled_overflow; auto. }
  destruct (Qle_bool (q * 1000) (- OVERFLOW)) eqn:E2.
  { apply Qle_bool_iff in E2. rewrite toNewId_unfold, scaled_overflow; auto. }
  assert (Hs : (- OVERFLOW < q * 1000 < OVERFLOW)%Q).
  { split; apply Qnot_le_lt; intros H; apply Qle_bool_iff in H; congruence. }
  cbv zeta. rewrite toNewId_unfold, (scaled_finite q Hs).
  split; [reflexivity|]. split.
  { pose proof (round64_error (q * 1000)) as He.
    pose proof (Qfloor_bounds (round64 (q * 1000) + (1 # 2))) as [F1 F2].
    set (n := Qfloor (round64 (q * 1000) + (1 # 2))) in *.
    set (r := round64 (q * 1000)) in *.
    set (u := ((1 # 2) * 2 ^ ulp_exponent (q * 1000))%Q) in *.
    apply Qabs_Qle_condition in He. destruct He as [He1 He2].
    apply Qabs_Qle_condition. split; lra. }
  split.
  { intros Hn. now rewrite String_of_integer_small. }
  intros Hn. eexists. split; [reflexivity|]. now apply token_in_range.
Qed.

Lemma toNewId_spec_witness :
  exists token, toNewId (Fin (1 # 2)) = Ok ("at-main-mi" +:+ token) /\
                String.length token = 7%nat /\ token_value token = Some 500.
Proof.
  pose proof (toNewId_spec (Fin (1 # 2))) as [(_ & _ & _ & H) _].
  apply H. vm_compute. split; [intros E; discriminate E | reflexivity].
Defined.

(** C1 as stated fails.  A finite mile need not get an id: the mile
    [10^306] is finite, its product with 1000 is not, and [toNewId] throws.
    The number in the id is not the integer nearest to a thousand times the
    mile but to the binary64 product: the number that [1.0005] denotes lies
    below 1.0005, a thousand times it rounds to 1000, yet its binary64 product
    with 1000 is 1000.5 and the id holds 1001.  And the id need not hold the
    digits of that integer: from 2^53 on [String(n)] is the shortest numeral
    that reads back as [n]. *)
Lemma toNewId_finite_counterexample :
  ~ (forall m, Number_isFinite m = true -> exists id, toNewId m = Ok id) /\
  (let q := round64 (10005 # 10000) in
   Qfloor (q * 1000 + (1 # 2)) = 1000 /\
   toNewId (Fin q) = Ok "at-main-mi0001001"%string) /\
  (toNewId (fl (inject_Z (2 ^ 56))) = Ok "at-main-mi72057594037927940000"%string /\
   String_of_Z (2 ^ 56 * 1000) = "72057594037927936000"%string).
Proof.
  split; [|split; split; vm_compute; reflexivity].
  intros H.
  destruct (H (fl (inject_Z (10 ^ 306))) eq_refl) as [id Hid].
  vm_compute in Hid. discriminate.
Qed.

(** C2.  Two miles of the supported range whose scaled values
    [round(m * 1000)] differ get different ids. *)
Theorem toNewId_injective (m1 m2 : num) (n1 n2 : Z) :
  scaled m1 = Some n1 -> scaled m2 = Some n2 ->
  0 <= n1 < 10 ^ 7 -> 0 <= n2 < 10 ^ 7 ->
  n1 <> n2 ->
  exists id1 id2, toNewId m1 = Ok id1 /\ toNewId m2 = Ok id2 /\ id1 <> id2.
Proof.
  intros H1 H2 R1 R2 Hne.
  rewrite !toNewId_unfold, H1, H2.
  do 2 eexists. split; [reflexivity|]. split; [reflexivity|].
  intros Heq. apply append_prefix_inj in Heq.
  destruct (token_in_range n1 R1) as [_ V1].
  destruct (token_in_range n2 R2) as [_ V2].
  rewrite Heq in V1. congruence.
Qed.

Lemma toNewId_injective_witness :
  exists id1 id2,
    toNewId (Fin (21903 # 10)) = Ok id1 /\
    toNewId (Fin (21904 # 10)) = Ok id2 /\ id1 <> id2.
Proof.
  apply (toNewId_injective _ _ 2190300 2190400);
    [vm_compute; reflexivity | vm_compute; reflexivity | lia | lia | lia].
Defined.

End CodecFacts.

(** ** [migrate-ids-at-main.js] *)

Module MigrateFacts.
Import Js Store Codec Fs Migrate.

(** *** Uniqueness check *)

Lemma ensureUniqueIds_from_ok (seen : gset (prop string)) (ids : list (prop string))
    (label : string) :
  ensureUniqueIds_from seen ids label = Ok tt <->
  NoDup ids /\ (forall x, x ∈ ids -> x ∉ seen).
Proof.
  revert seen. induction ids as [|id rest IH]; intros seen; cbn [ensureUniqueIds_from].
  - split; [intros _; split; [constructor | intros x Hx; inversion Hx] | reflexivity].
  - destruct (decide (id ∈ seen)) as [Hin|Hnin].
    + split; [discriminate|]. intros [_ H]. exfalso.
      apply (H id); [apply elem_of_cons; now left | exact Hin].
    + rewrite IH. clear IH. split.
      * intros [Hnd Hseen]. split.
        -- constructor; [| exact Hnd]. intros Hin. apply (Hseen id Hin).
           apply elem_of_union_l, elem_of_singleton. reflexivity.
        -- intros x Hx. apply elem_of_cons in Hx as [->|Hx]; [exact Hnin|].
           intros Hs. apply (Hseen x Hx). now apply elem_of_union_r.
      * intros [Hnd Hseen]. apply NoDup_cons in Hnd as [Hnotin Hnd]. split; [exact Hnd|].
        intros x Hx. apply not_elem_of_union. split.
        -- apply not_elem_of_singleton. intros ->. contradiction.
        -- apply Hseen. apply elem_of_cons. now right.
Qed.

(** The check passes exactly on a list without repetition. *)
Lemma ensureUniqueIds_ok (ids : list (prop string)) (label : string) :
  ensureUniqueIds ids label = Ok tt <-> NoDup ids.
Proof.
  unfold ensureUniqueIds. rewrite ensureUniqueIds_from_ok.
  split; [tauto | intros H; split; [exact H | intros x _; apply not_elem_of_empty]].
Qed.

Lemma ensureUniqueIds_from_throw (seen : gset (prop string)) (ids : list (prop string))
    (label : string) (e : error) :
  ensureUniqueIds_from seen ids label = Throw e ->
  exists id, e = DuplicateId label id.
Proof.
  revert seen. induction ids as [|id rest IH]; intros seen; cbn [ensureUniqueIds_from].
  - discriminate.
  - destruct (decide (id ∈ seen)); [intros [= <-]; eauto | apply IH].
Qed.

(** On a list with a repetition the check throws [Duplicate ... id]. *)
Lemma ensureUniqueIds_dup (ids : list (prop string)) (label : string) :
  ~ NoDup ids -> exists id, ensureUniqueIds ids label = Throw (DuplicateId label id).
Proof.
  intros Hdup. destruct (ensureUniqueIds ids label) as [[]|e] eqn:E.
  - apply ensureUniqueIds_ok in E. contradiction.
  - apply ensureUniqueIds_from_throw in E as [id ->]. eauto.
Qed.

(** *** [main] as validation followed by commit *)

Lemma main_eq (tagPoints tagNormals : string) (d : Disk) :
  main tagPoints tagNormals d =
  match points_json d, historical_weather_json d with
  | None, _ => (Throw (MissingFile POINTS_PATH), d)
  | Some _, None => (Throw (MissingFile NORMALS_PATH), d)
  | Some PointsOther, Some _ => (Throw PointsNotArray, d)
  | Some (PointsArray points), Some root =>
      match validate points root with
      | Throw e => (Throw e, d)
      | Ok (updatedPoints, root', warning) =>
          (match updatedPoints with
           | [] => Throw (TypeError "ex is undefined")
           | ex :: _ => Ok (mkReport warning (p_legacy_id ex) (p_id ex))
           end,
           commit tagPoints tagNormals d (PointsArray points) root updatedPoints root')
      end
  end.
Proof.
  destruct d as [[[points|]|] [root|] bk];
    unfold main, mbind, requirePoints, requireNormals, readPoints, readNormals,
      lift, throw, ret; cbn [points_json historical_weather_json backups];
    try reflexivity.
  unfold validate.
  destruct (migratePoints ∅ points) as [[ups m]|e]; cbn [bind]; [|reflexivity].
  destruct (ensureUniqueIds (map p_id ups) "points") as [[]|e]; cbn [bind]; [|reflexivity].
  cbn [points_json historical_weather_json backups].
  destruct (getNormalsArray root) as [[arr md]|e]; cbn [bind]; [|reflexivity].
  destruct (mapM (migrateRecord m) arr) as [urecs|e]; cbn [bind]; [|reflexivity].
  destruct (ensureUniqueIds (map r_id urecs) "normals") as [[]|e]; cbn [bind]; [|reflexivity].
  unfold backupPoints, backupNormals, writePoints, writeNormals, commit;
    cbn [points_json historical_weather_json backups].
  destruct ups; reflexivity.
Qed.

(** *** A second pass over migrated points *)

Lemma toNewId_nonempty (mile : num) (newId : string) :
  toNewId mile = Ok newId -> newId <> ""%string.
Proof.
  unfold toNewId. destruct (mileToToken mile); cbn [bind]; [|discriminate].
  intros [= <-]. discriminate.
Qed.

Lemma migratePoint_inv (m : gmap string string) (p p' : Point) (m1 : gmap string string) :
  migratePoint m p = Ok (p', m1) ->
  exists mile newId,
    mileFromPoint p = Ok mile /\ toNewId mile = Ok newId /\
    p' = mkPoint (Val newId) (Val (coalesce (p_legacy_id p) (String_of_prop (p_id p))))
           (p_mile p) (p_mile_est p) (p_lat p) (p_lon p) (p_state p) /\
    m1 = <[ String_of_prop (p_id p) := newId ]> m.
Proof.
  unfold migratePoint.
  destruct (mileFromPoint p) as [mile|e] eqn:Hm; cbn [bind]; [|discriminate].
  destruct (toNewId mile) as [newId|e] eqn:Hid; cbn [bind]; [|discriminate].
  intros [= <- <-]. exists mile, newId. repeat split; assumption.
Qed.

(** [mileFromPoint] reads only the two mile properties. *)
Lemma mileFromPoint_ok_ext (p p' : Point) (mile : num) :
  p_mile p' = p_mile p -> p_mile_est p' = p_mile_est p ->
  mileFromPoint p = Ok mile -> mileFromPoint p' = Ok mile.
Proof.
  unfold mileFromPoint. intros -> ->.
  destruct (Number_isFinite _); [trivial | discriminate].
Qed.

(** Migrating a migrated point gives the same point back, and records its
    id as mapped to itself. *)
Lemma migratePoint_again (m m' : gmap string string) (p p' : Point)
    (m1 : gmap string string) :
  migratePoint m p = Ok (p', m1) ->
  exists newId,
    p_id p' = Val newId /\ m1 = <[ String_of_prop (p_id p) := newId ]> m /\
    migratePoint m' p' = Ok (p', <[ newId := newId ]> m').
Proof.
  intros H. apply migratePoint_inv in H as (mile & newId & Hm & Hid & -> & ->).
  exists newId. split; [reflexivity|]. split; [reflexivity|].
  unfold migratePoint.
  match goal with
  | |- context [mileFromPoint ?q] =>
      rewrite (mileFromPoint_ok_ext p q mile eq_refl eq_refl Hm)
  end.
  cbn [bind]. rewrite Hid. reflexivity.
Qed.

Lemma migratePoints_again (points : list Point) :
  forall (m m' : gmap string string) (ups : list Point) (m1 : gmap string string),
    migratePoints m points = Ok (ups, m1) ->
    (forall k v, m1 !! k = Some v -> m !! k = Some v \/ Val v ∈ map p_id ups) /\
    exists m2,
      migratePoints m' ups = Ok (ups, m2) /\
      (forall k, m' !! k = Some k -> m2 !! k = Some k) /\
      (forall k, Val k ∈ map p_id ups -> m2 !! k = Some k).
Proof.
  induction points as [|p rest IH]; intros m m' ups m1; cbn [migratePoints].
  - intros [= <- <-]. split; [auto|]. exists m'. cbn [migratePoints map].
    split; [reflexivity|]. split; [auto|]. intros k Hk. inversion Hk.
  - destruct (migratePoint m p) as [[p' ma]|e] eqn:Hp; cbn [bind]; [|discriminate].
    destruct (migratePoints ma rest) as [[rest' mb]|e] eqn:Hrest; cbn [bind]; [|discriminate].
    intros [= <- <-].
    destruct (migratePoint_again m m' p p' ma Hp) as (newId & Hid & -> & Hagain).
    destruct (IH _ (<[ newId := newId ]> m') _ _ Hrest) as (Hval & m2 & Hrun & Hself & Hids).
    split.
    + intros k v Hk. cbn [map]. destruct (Hval k v Hk) as [Hm|Hin].
      * rewrite lookup_insert in Hm. case_decide as Hd.
        -- injection Hm as <-. right. rewrite Hid. apply elem_of_cons. now left.
        -- now left.
      * right. apply elem_of_cons. now right.
    + exists m2. cbn [migratePoints]. rewrite Hagain. cbn [bind]. rewrite Hrun. cbn [bind].
      split; [reflexivity|]. split.
      * intros k Hk. apply Hself. rewrite lookup_insert. case_decide as Hd; congruence.
      * intros k Hk. cbn [map] in Hk. apply elem_of_cons in Hk as [Hk|Hk].
        -- rewrite Hid in Hk. injection Hk as ->. apply Hself. apply lookup_insert_eq.
        -- now apply Hids.
Qed.

(** *** A second pass over migrated normals *)

Lemma migrateRecord_inv (m : gmap string string) (rec rec' : NormalsRecord) :
  migrateRecord m rec = Ok rec' ->
  exists newId,
    m !! String_of_prop (r_id rec) = Some newId /\ newId <> ""%string /\
    rec' = mkRecord (Val newId)
             (Val (coalesce (r_legacy_id rec) (String_of_prop (r_id rec))))
             (r_hi rec) (r_lo rec).
Proof.
  unfold migrateRecord.
  destruct (not_nullish (r_id rec)); cbn [negb]; [|discriminate].
  destruct (m !! String_of_prop (r_id rec)) as [newId|]; [|discriminate].
  destruct (String.eqb newId "") eqn:E; [discriminate|].
  intros [= <-]. exists newId. split; [reflexivity|]. split; [|reflexivity].
  intros ->. discriminate.
Qed.

Lemma migrateRecord_again (m m' : gmap string string) (rec rec' : NormalsRecord) :
  (forall k v, m !! k = Some v -> m' !! v = Some v) ->
  migrateRecord m rec = Ok rec' -> migrateRecord m' rec' = Ok rec'.
Proof.
  intros Hm H. apply migrateRecord_inv in H as (newId & Hl & Hne & ->).
  unfold migrateRecord. cbn [r_id r_legacy_id r_hi r_lo not_nullish negb String_of_prop].
  rewrite (Hm _ _ Hl).
  destruct (String.eqb newId "") eqn:E; [apply String.eqb_eq in E; contradiction|].
  reflexivity.
Qed.

Lemma mapM_migrateRecord_again (m m' : gmap string string) (arr urecs : list NormalsRecord) :
  (forall k v, m !! k = Some v -> m' !! v = Some v) ->
  mapM (migrateRecord m) arr = Ok urecs -> mapM (migrateRecord m') urecs = Ok urecs.
Proof.
  intros Hm. revert urecs. induction arr as [|rec rest IH]; intros urecs; cbn [mapM].
  - intros [= <-]. reflexivity.
  - destruct (migrateRecord m rec) as [rec'|e] eqn:Hrec; cbn [bind]; [|discriminate].
    destruct (mapM (migrateRecord m) rest) as [rest'|e]; cbn [bind]; [|discriminate].
    intros [= <-]. cbn [mapM].
    rewrite (migrateRecord_again m m' rec rec' Hm Hrec). cbn [bind].
    rewrite (IH rest' eq_refl). reflexivity.
Qed.

(** *** A second pass over the whole store *)

Lemma updatedMeta_again (meta : option metaValue) :
  updatedMeta (Some (MObject (updatedMeta meta))) = updatedMeta meta.
Proof.
  apply map_eq. intros k. unfold updatedMeta at 1.
  change (spread (Some (MObject (updatedMeta meta)))) with (updatedMeta meta).
  unfold updatedMeta. rewrite !lookup_insert.
  repeat case_decide; reflexivity.
Qed.

Lemma updatedNormalsRoot_again (root : NormalsRoot) (arr urecs : list NormalsRecord)
    (md : mode) :
  getNormalsArray root = Ok (arr, md) ->
  getNormalsArray (updatedNormalsRoot root md urecs) = Ok (urecs, md) /\
  updatedNormalsRoot (updatedNormalsRoot root md urecs) md urecs
  = updatedNormalsRoot root md urecs.
Proof.
  destruct root as [a|o|]; cbn [getNormalsArray]; [| |discriminate].
  - intros [= <- <-]. split; reflexivity.
  - destruct (o_points o); [|discriminate]. intros [= <- <-].
    cbn [updatedNormalsRoot getNormalsArray o_points o_meta o_other].
    split; [reflexivity|]. now rewrite updatedMeta_again.
Qed.

(** Validation of a validated store succeeds and returns the store
    itself. *)
Lemma validate_again (points : list Point) (root : NormalsRoot)
    (ups : list Point) (root' : NormalsRoot) (w : bool) :
  validate points root = Ok (ups, root', w) ->
  validate ups root' = Ok (ups, root', w).
Proof.
  unfold validate.
  destruct (migratePoints ∅ points) as [[ups0 m]|e] eqn:Hp; cbn [bind]; [|discriminate].
  destruct (ensureUniqueIds (map p_id ups0) "points") as [[]|e] eqn:Hu; cbn [bind]; [|discriminate].
  destruct (getNormalsArray root) as [[arr md]|e] eqn:Hg; cbn [bind]; [|discriminate].
  destruct (mapM (migrateRecord m) arr) as [urecs|e] eqn:Hr; cbn [bind]; [|discriminate].
  destruct (ensureUniqueIds (map r_id urecs) "normals") as [[]|e] eqn:Hv; cbn [bind]; [|discriminate].
  intros [= <- <- <-].
  destruct (migratePoints_again points ∅ ∅ ups0 m Hp) as (Hval & m2 & Hrun & _ & Hids).
  rewrite Hrun. cbn [bind]. rewrite Hu. cbn [bind].
  destruct (updatedNormalsRoot_again root arr urecs md Hg) as [Hg' Hroot].
  rewrite Hg'. cbn [bind].
  rewrite (mapM_migrateRecord_again m m2 arr urecs); [|  | exact Hr].
  - cbn [bind]. rewrite Hv. cbn [bind]. now rewrite Hroot.
  - intros k v Hk. destruct (Hval k v Hk) as [Hempty|Hin].
    + rewrite lookup_empty in Hempty. discriminate.
    + now apply Hids.
Qed.

(** C3.  A second run of the migration on the output of a successful run,
    whenever the two runs are made, succeeds and writes back the two stores it
    read: every point and every normals record keeps its id and its
    [legacy_id].  In any pass, a [legacy_id] that is set on a point or on a
    normals record is kept. *)
Theorem migration_idempotent :
  (forall (tagPoints tagNormals tagPoints' tagNormals' : string)
          (d d1 : Disk) (r : Report),
      main tagPoints tagNormals d = (Ok r, d1) ->
      exists d2,
        main tagPoints' tagNormals' d1 = (Ok r, d2) /\
        points_json d2 = points_json d1 /\
        historical_weather_json d2 = historical_weather_json d1) /\
  (forall (m m1 : gmap string string) (p p' : Point) (l : string),
      migratePoint m p = Ok (p', m1) ->
      p_legacy_id p = Val l -> p_legacy_id p' = Val l) /\
  (forall (m : gmap string string) (rec rec' : NormalsRecord) (l : string),
      migrateRecord m rec = Ok rec' ->
      r_legacy_id rec = Val l -> r_legacy_id rec' = Val l).
Proof.
  split; [|split].
  - intros tp tn tp' tn' d d1 r H. rewrite main_eq in H.
    destruct (points_json d) as [[points|]|], (historical_weather_json d) as [root|];
      try discriminate H.
    destruct (validate points root) as [[[ups root'] w]|e] eqn:Hv; [| discriminate H].
    destruct ups as [|ex ups]; [discriminate H|].
    injection H as <- <-.
    eexists. rewrite main_eq. unfold commit at 1 2.
    cbn [points_json historical_weather_json].
    rewrite (validate_again _ _ _ _ _ Hv).
    split; [reflexivity|]. split; reflexivity.
  - intros m m1 p p' l H Hl.
    apply migratePoint_inv in H as (mile & newId & _ & _ & -> & _).
    cbn [p_legacy_id]. now rewrite Hl.
  - intros m rec rec' l H Hl.
    apply migrateRecord_inv in H as (newId & _ & _ & ->).
    cbn [r_legacy_id]. now rewrite Hl.
Qed.

Lemma migration_idempotent_witness :
  let d1 := snd (main Samples.noon Samples.noon Samples.legacy_disk) in
  exists d2,
    main Samples.noon Samples.noon_01 d1
    = (Ok (mkReport false (Val "GA_0010_0"%string) (Val "at-main-mi0010000"%string)), d2) /\
    points_json d2 = points_json d1 /\
    historical_weather_json d2 = historical_weather_json d1.
Proof.
  apply (proj1 migration_idempotent Samples.noon Samples.noon Samples.noon Samples.noon_01
           Samples.legacy_disk).
  vm_compute. reflexivity.
Defined.

(** *** Nothing is written before the checks have passed *)

Lemma validate_not_after_commit (points : list Point) (root : NormalsRoot) (e : error) :
  validate points root = Throw e -> ~ after_commit e.
Proof.
  unfold validate, after_commit.
  destruct (migratePoints ∅ points) as [[ups m]|e0] eqn:Hp; cbn [bind].
  2: { intros [= <-]. revert Hp. generalize (∅ : gmap string string).
       induction points as [|p rest IH]; intros m0; cbn [migratePoints]; [discriminate|].
       unfold migratePoint at 1, mileFromPoint, toNewId, mileToToken.
       repeat (match goal with
               | |- context [if ?b then _ else _] => destruct b
               end; cbn [bind]); try (intros [= <-]; discriminate).
       all: destruct (migratePoints _ rest) as [[r1 r2]|e1] eqn:Hr; cbn [bind];
         try discriminate; intros [= <-]; eapply IH; exact Hr. }
  destruct (ensureUniqueIds (map p_id ups) "points") as [[]|e0] eqn:Hu; cbn [bind].
  2: { intros [= <-]. apply ensureUniqueIds_from_throw in Hu as [id ->]. discriminate. }
  destruct (getNormalsArray root) as [[arr md]|e0] eqn:Hg; cbn [bind].
  2: { intros [= <-]. destruct root as [|o|]; cbn in Hg; try discriminate.
       - destruct (o_points o); [discriminate|]. injection Hg as <-. discriminate.
       - injection Hg as <-. discriminate. }
  destruct (mapM (migrateRecord m) arr) as [urecs|e0] eqn:Hr; cbn [bind].
  2: { intros [= <-]. clear Hg. induction arr as [|rec rest IH]; cbn [mapM] in Hr; [discriminate|].
       unfold migrateRecord at 1 in Hr.
       destruct (not_nullish (r_id rec)); cbn [negb bind] in Hr;
         [| injection Hr as <-; discriminate].
       destruct (m !! String_of_prop (r_id rec)) as [newId|]; cbn [bind] in Hr;
         [| injection Hr as <-; discriminate].
       destruct (String.eqb newId ""); cbn [bind] in Hr; [injection Hr as <-; discriminate|].
       destruct (mapM (migrateRecord m) rest); cbn [bind] in Hr; [discriminate|].
       injection Hr as <-. now apply IH. }
  destruct (ensureUniqueIds (map r_id urecs) "normals") as [[]|e0] eqn:Hv; cbn [bind];
    [discriminate|].
  intros [= <-]. apply ensureUniqueIds_from_throw in Hv as [id ->]. discriminate.
Qed.

(** A run of [migrate-ids-at-main.js] that throws before its last statement
    leaves the data directory as it found it, and a repeated id among the
    rewritten points or among the rewritten normals makes it throw. *)
Lemma main_all_or_nothing :
  (forall (tagPoints tagNormals : string) (d d' : Disk) (e : error),
      main tagPoints tagNormals d = (Throw e, d') -> ~ after_commit e -> d' = d) /\
  (forall (tagPoints tagNormals : string) (d d' : Disk) (r : result Report),
      main tagPoints tagNormals d = (r, d') -> d' <> d ->
      exists points root ups root' w,
        points_json d = Some (PointsArray points) /\
        historical_weather_json d = Some root /\
        validate points root = Ok (ups, root', w) /\
        d' = commit tagPoints tagNormals d (PointsArray points) root ups root') /\
  (forall (points ups : list Point) (root : NormalsRoot) (m : gmap string string),
      migratePoints ∅ points = Ok (ups, m) -> ~ NoDup (map p_id ups) ->
      exists id, validate points root = Throw (DuplicateId "points" id)) /\
  (forall (points ups : list Point) (root : NormalsRoot) (m : gmap string string)
          (arr urecs : list NormalsRecord) (md : mode),
      migratePoints ∅ points = Ok (ups, m) -> NoDup (map p_id ups) ->
      getNormalsArray root = Ok (arr, md) ->
      mapM (migrateRecord m) arr = Ok urecs -> ~ NoDup (map r_id urecs) ->
      exists id, validate points root = Throw (DuplicateId "normals" id)).
Proof.
  repeat split.
  - intros tp tn d d' e H Hnot. rewrite main_eq in H.
    destruct (points_json d) as [[points|]|], (historical_weather_json d) as [root|];
      try (injection H as _ <-; reflexivity).
    destruct (validate points root) as [[[ups root'] w]|e0] eqn:Hv;
      [| injection H as _ <-; reflexivity].
    destruct ups; [| discriminate H]. injection H as <- _.
    exfalso. apply Hnot. reflexivity.
  - intros tp tn d d' r H Hne. rewrite main_eq in H.
    destruct (points_json d) as [[points|]|], (historical_weather_json d) as [root|];
      try (injection H as _ <-; contradiction).
    destruct (validate points root) as [[[ups root'] w]|e0] eqn:Hv;
      [| injection H as _ <-; contradiction].
    injection H as _ <-. exists points, root, ups, root', w. auto.
  - intros points ups root m Hp Hdup. unfold validate. rewrite Hp. cbn [bind].
    destruct (ensureUniqueIds_dup _ "points" Hdup) as [id ->]. eauto.
  - intros points ups root m arr urecs md Hp Hnd Hg Hr Hdup.
    unfold validate. rewrite Hp. cbn [bind].
    apply (ensureUniqueIds_ok _ "points") in Hnd. rewrite Hnd. cbn [bind].
    rewrite Hg. cbn [bind]. rewrite Hr. cbn [bind].
    destruct (ensureUniqueIds_dup _ "normals" Hdup) as [id ->]. eauto.
Qed.

(** A run on the sample directory of the old scheme: both stores are
    re-keyed, the old ids are kept as [legacy_id], and the files read are
    backed up. *)
Example main_legacy_disk :
  exists d',
    main Samples.noon Samples.noon Samples.legacy_disk
    = (Ok (mkReport false (Val "GA_0010_0"%string) (Val "at-main-mi0010000"%string)), d') /\
    points_json d'
    = Some (PointsArray
              [mkPoint (Val "at-main-mi0010000"%string) (Val "GA_0010_0"%string)
                 FAbsent (FNum (Fin 10)) (FNum (Fin (346 # 10)))
                 (FNum (Fin (- 842 # 10))) (Val "GA"%string)]) /\
    (exists o, historical_weather_json d' = Some (RootObject o) /\
               o_points o
               = Some [mkRecord (Val "at-main-mi0010000"%string)
                         (Val "GA_0010_0"%string) [Some (Fin 50)] [Some (Fin 30)]]) /\
    backups d' !! backupPath POINTS_PATH Samples.noon
    = Some (PointsContent (PointsArray [Samples.legacy_point])) /\
    size (backups d') = 2%nat.
Proof.
  eexists. split; [vm_compute; reflexivity|].
  split; [reflexivity|]. split; [eexists; split; reflexivity|].
  split; vm_compute; reflexivity.
Qed.

(** Two points at the same mile get the same id: the run throws and the
    directory is left as it was. *)
Example main_twin_disk :
  main Samples.noon Samples.noon Samples.twin_disk
  = (Throw (DuplicateId "points" "at-main-mi0010000"), Samples.twin_disk).
Proof. vm_compute. reflexivity. Qed.

End MigrateFacts.

(** ** [migrate-historical-ids-mixed.js] *)

Module MigrateMixedFacts.
Import Js Store Fs MigrateMixed.

(** A run that throws has written nothing. *)
Lemma main_throw_unchanged (tag : string) (d d' : Disk) (e : error) :
  main tag d = (Throw e, d') -> d' = d.
Proof.
  destruct d as [[[points|]|] [root|] bk];
    unfold main, mbind, requirePoints, requireNormals, readPoints, readNormals,
      lift, throw, ret; cbn [points_json historical_weather_json backups];
    try (intros [= _ <-]; reflexivity).
  destruct (buildMaps ∅ ∅ points) as [[l n]|e0];
    cbn [points_json historical_weather_json backups];
    [| intros [= _ <-]; reflexivity].
  destruct root as [arr|[meta [hp|] other]|]; try (intros [= _ <-]; reflexivity).
  destruct (mapM (normalizeRecord l n) hp) as [results|e0];
    [| intros [= _ <-]; reflexivity].
  unfold backupNormals, writeNormals; cbn [points_json historical_weather_json backups].
  discriminate.
Qed.

(** The loop over the points throws as soon as it meets a point without a
    [legacy_id]. *)
Lemma buildMaps_missing (points : list Point) (p : Point) :
  p ∈ points -> not_nullish (p_legacy_id p) = false ->
  forall l n : gmap string string,
    exists id, buildMaps l n points = Throw (PointMissingLegacyId id).
Proof.
  intros Hin Hp. induction points as [|q rest IH]; [inversion Hin|].
  intros l n. cbn [buildMaps].
  destruct (p_legacy_id q) as [| |legacy] eqn:Hq; eauto.
  destruct (String.eqb legacy ""); eauto.
  apply elem_of_cons in Hin as [->|Hin]; [rewrite Hq in Hp; discriminate|].
  now apply IH.
Qed.

(** C10.  When [points.json] holds a point whose [legacy_id] is [null] or
    missing, the run throws and leaves the data directory untouched; it
    throws [Point ... missing legacy_id] whatever [historical_weather.json]
    holds, well-formed or not: that file is not read before the throw (only
    its existence is tested, first of all). *)
Theorem mixed_requires_legacy_id (tag : string) (d : Disk)
    (points : list Point) (p : Point) :
  points_json d = Some (PointsArray points) ->
  p ∈ points ->
  not_nullish (p_legacy_id p) = false ->
  exists e,
    main tag d = (Throw e, d) /\
    match historical_weather_json d with
    | Some _ => exists id, e = PointMissingLegacyId id
    | None => e = MissingFile NORMALS_PATH
    end.
Proof.
  intros Hpts Hin Hp.
  destruct (buildMaps_missing points p Hin Hp ∅ ∅) as [id Hb].
  destruct d as [pj [root|] bk]; cbn in Hpts; subst pj;
    unfold main, mbind, requirePoints, requireNormals, readPoints, lift;
    cbn [points_json historical_weather_json backups].
  - rewrite Hb. eauto.
  - eauto.
Qed.

Lemma mixed_requires_legacy_id_witness :
  exists e,
    main Samples.noon Samples.canonical_disk = (Throw e, Samples.canonical_disk) /\
    exists id, e = PointMissingLegacyId id.
Proof.
  apply (mixed_requires_legacy_id Samples.noon Samples.canonical_disk
           [Samples.canonical_point] Samples.canonical_point);
    [reflexivity | apply elem_of_cons; now left | reflexivity].
Defined.

(** C4, at the failing input.  On a store in a mixed state, where a point
    has a record under its legacy id and a record under its new id, the run
    completes and writes a normals store in which two records carry the same
    id: the rewritten ids are not checked for repetition here, as they are
    by [ensureUniqueIds] in [migrate-ids-at-main.js]. *)
Theorem mixed_writes_duplicate_ids :
  forall tag : string,
  exists (r : Report) (d' : Disk) (o : NormalsObject) (recs : list NormalsRecord),
    main tag Samples.mixed_disk = (Ok r, d') /\
    historical_weather_json d' = Some (RootObject o) /\
    o_points o = Some recs /\
    map r_id recs = [Val "at-main-mi0010000"%string; Val "at-main-mi0010000"%string].
Proof.
  intros tag. do 4 eexists. split; [lazy -[insert backupPath]; reflexivity|].
  split; [reflexivity|]. split; reflexivity.
Qed.

End MigrateMixedFacts.

(** ** The authoritative mile *)

Module MileFacts.
Import Js Store Migrate Normalize.

(** On points whose two mile properties are missing or finite numbers,
    [mileFromPoint] returns [mile] when there is one, else [mile_est], and
    throws exactly when both are missing. *)
Lemma mileFromPoint_plain (p : Point) :
  plain (p_mile p) -> plain (p_mile_est p) ->
  match p_mile p, p_mile_est p with
  | FNum x, _ => mileFromPoint p = Ok x
  | _, FNum x => mileFromPoint p = Ok x
  | _, _ => mileFromPoint p = Throw (MissingNumericMile (p_id p))
  end.
Proof.
  unfold mileFromPoint.
  intros [->|[q ->]] [->|[q' ->]]; reflexivity.
Qed.

(** C9, at the failing inputs.  A point without [mile] whose [mile_est] is
    [null] has no finite number in either property, yet [mileFromPoint]
    returns mile 0 for it, and so does [normalizePoint]; and a point whose
    [mile] is not finite while its [mile_est] is 10 makes [mileFromPoint]
    throw, where [normalizePoint] falls back to 10. *)
Theorem mileFromPoint_null_estimate :
  mileFromPoint Samples.null_estimate_point = Ok (Fin 0) /\
  (exists pt, normalizePoint Samples.null_estimate_point 0 = Ok pt /\
              p_mile pt = FNum (Fin 0)) /\
  mileFromPoint Samples.infinite_mile_point
  = Throw (MissingNumericMile (Val "GA_0010_0"%string)) /\
  (exists pt, normalizePoint Samples.infinite_mile_point 0 = Ok pt /\
              p_mile pt = FNum (Fin 10)).
Proof.
  split; [reflexivity|]. split; [eexists; split; reflexivity|].
  split; [reflexivity|]. eexists; split; reflexivity.
Qed.

End MileFacts.

(** ** [generate-missing-normals-at.js] *)

Module AggregatorFacts.
Import Js Store Http Aggregator AggregatorRun.

(** *** Lists without repeated ids *)

Lemma filter_all {A} (P : A -> Prop) `{!forall x, Decision (P x)} (l : list A) :
  (forall x, x ∈ l -> P x) -> filter P l = l.
Proof.
  induction l as [|x l IH]; intros Hall; [reflexivity|].
  rewrite filter_cons_True by (apply Hall, elem_of_cons; now left).
  f_equal. apply IH. intros y Hy. apply Hall, elem_of_cons. now right.
Qed.

Lemma NoDup_map_filter {A B} (f : A -> B) (P : A -> Prop)
    `{!forall x, Decision (P x)} (l : list A) :
  NoDup (map f l) -> NoDup (map f (filter P l)).
Proof.
  induction l as [|x l IH]; cbn [map]; intros Hnd; [constructor|].
  apply NoDup_cons in Hnd as [Hx Hl].
  rewrite filter_cons. destruct (decide (P x)); [|now apply IH].
  cbn [map]. apply NoDup_cons. split; [|now apply IH].
  intros Hin. apply Hx.
  apply list_elem_of_In, in_map_iff in Hin as (y & Hy & Hiny).
  apply list_elem_of_In, in_map_iff. exists y. split; [exact Hy|].
  apply list_elem_of_In. apply list_elem_of_In in Hiny.
  apply list_elem_of_filter in Hiny. tauto.
Qed.

(** In a list without repeated keys, dropping the elements with the key of
    one element drops that element only. *)
Lemma filter_drop_one {A B} `{EqDecision B} (f : A -> B) (U R : list A) (p : A) :
  NoDup (map f (U ++ p :: R)) ->
  filter (fun q => f q <> f p) (U ++ p :: R) = U ++ R.
Proof.
  intros Hnd. rewrite map_app in Hnd. cbn [map] in Hnd.
  apply NoDup_app in Hnd as (HU & Hdisj & HR).
  apply NoDup_cons in HR as [HpR HR].
  rewrite filter_app, filter_cons_False by (intros Hne; now apply Hne).
  f_equal; apply filter_all; intros x Hx Heq.
  - apply (Hdisj (f x)).
    + apply list_elem_of_In, in_map, list_elem_of_In, Hx.
    + rewrite Heq. apply elem_of_cons. now left.
  - apply HpR. rewrite <- Heq.
    apply list_elem_of_In, in_map, list_elem_of_In, Hx.
Qed.

(** *** The loop keeps the store consistent *)

Lemma elem_of_existingIds_push (hist : Hist) (rec : NormalsRecord) (x : string) :
  x ∈ existingIds (push hist rec) <->
  x ∈ existingIds hist \/ x = String_of_prop (r_id rec).
Proof.
  unfold existingIds, push. cbn [h_points].
  rewrite !elem_of_list_to_set, map_app, elem_of_app. cbn [map].
  rewrite list_elem_of_singleton. reflexivity.
Qed.

(** Pushing the record of [p] removes from the missing points the points
    that have the id of [p]. *)
Lemma missing_push (points : list Point) (hist : Hist) (p : Point) (d : Daily) :
  missing points (push hist (newRecord p d))
  = filter (fun q => idOf q <> idOf p) (missing points hist).
Proof.
  unfold missing. rewrite list_filter_filter. apply list_filter_iff.
  intros q. rewrite elem_of_existingIds_push. cbn [newRecord r_id String_of_prop].
  unfold idOf. tauto.
Qed.

Lemma ensureHistShape_serialize (hist : Hist) :
  h_array hist = None -> ensureHistShape (serialize hist) = Ok hist.
Proof. destruct hist as [a [m|l] pts o]; cbn; intros ->; reflexivity. Qed.

Lemma start_consistent (d : Disk) (points : list Point) (o : NormalsObject) :
  points_json d = Some (PointsArray points) ->
  historical_weather_json d = Some (RootObject o) ->
  consistent points (stored_records d) (length (st_queue (start d))) (start d).
Proof.
  intros Hp Hh. unfold start, stored_records. rewrite Hp, Hh.
  cbn [ensureHistShape]. constructor; cbn [st_disk st_hist st_queue st_processed h_array h_points].
  - exact Hp.
  - reflexivity.
  - exists (RootObject o). split; [exact Hh | reflexivity].
  - exists []. split; [now rewrite app_nil_r | reflexivity].
  - exists []. split; [reflexivity | cbn [length]; lia].
Qed.

Lemma step_consistent (net : Network) (points : list Point)
    (initial : list NormalsRecord) (n : nat) (s : State) :
  NoDup (map idOf points) ->
  consistent points initial n s -> consistent points initial n (step net s).
Proof.
  intros Hnd [Hpts Hobj (root & Hroot & Hshape) (written & Hw & Hlen) (skipped & Hmiss & Hcount)].
  unfold step.
  destruct (st_status s); [| constructor; eauto | constructor; eauto].
  destruct (st_queue s) as [|p rest] eqn:Hq.
  { constructor; cbn [st_disk st_hist st_queue st_processed]; eauto. }
  assert (Hskip : forall status requests,
             consistent points initial n
               (mkState status (st_disk s) (st_hist s) rest (st_processed s) requests)).
  { intros status requests.
    constructor; cbn [st_disk st_hist st_queue st_processed]; eauto.
    exists (skipped ++ [p]). split.
    - rewrite Hmiss, <- app_assoc. reflexivity.
    - rewrite length_app. cbn [length] in *. lia. }
  destruct (negb (Number_isFinite (Number_of (p_lat p)))
            || negb (Number_isFinite (Number_of (p_lon p)))); [apply Hskip|].
  destruct (fetchDailyMaxMin net (st_requests s)) as [[dl|]|e]; cbn [bind];
    [ | apply Hskip | apply Hskip ].
  destruct (time_length dl =? 0)%nat; [apply Hskip|].
  constructor; cbn [st_disk st_hist st_queue st_processed writeHist
                      points_json historical_weather_json].
  - exact Hpts.
  - exact Hobj.
  - eexists. split; [reflexivity|]. apply ensureHistShape_serialize. exact Hobj.
  - exists (written ++ [newRecord p dl]). cbn [push h_points]. split.
    + rewrite Hw, <- app_assoc. reflexivity.
    + rewrite length_app. cbn [length]. lia.
  - exists skipped. split.
    + rewrite missing_push, Hmiss. apply filter_drop_one.
      rewrite <- Hmiss. unfold missing. now apply NoDup_map_filter.
    + cbn [length] in Hcount. lia.
Qed.

Lemma steps_consistent (net : Network) (points : list Point)
    (initial : list NormalsRecord) (n j : nat) (s : State) :
  NoDup (map idOf points) ->
  consistent points initial n s -> consistent points initial n (steps net j s).
Proof.
  intros Hnd. revert s. induction j as [|j IH]; intros s Hs; cbn [steps]; [exact Hs|].
  apply IH. now apply step_consistent.
Qed.

(** A run that starts from the disk of a consistent state starts from its
    [hist], with the points still missing from it to process. *)
Lemma restart (points : list Point) (initial : list NormalsRecord) (n : nat) (s : State) :
  consistent points initial n s ->
  start (st_disk s)
  = mkState Running (st_disk s) (st_hist s) (missing points (st_hist s)) 0 0 /\
  stored_records (st_disk s) = h_points (st_hist s).
Proof.
  intros [Hpts Hobj (root & Hroot & Hshape) _ _].
  unfold start, stored_records. rewrite Hpts, Hroot, Hshape. split; reflexivity.
Qed.

Lemma ensureHistShape_object (root : NormalsRoot) (hist : Hist) :
  ensureHistShape root = Ok hist -> h_array hist = None ->
  exists o, root = RootObject o.
Proof.
  destruct root as [arr|o|]; cbn [ensureHistShape]; [| eauto | discriminate].
  intros [= <-]. discriminate.
Qed.

(** *** What a run stores *)

Lemma steps_stopped (net : Network) (j : nat) (s : State) :
  st_status s <> Running -> steps net j s = s.
Proof.
  intros Hs. induction j as [|j IH]; cbn [steps]; [reflexivity|].
  replace (step net s) with s; [exact IH|].
  unfold step. destruct (st_status s); [contradiction | reflexivity | reflexivity].
Qed.

(** The request of an iteration succeeds exactly when the archive gives a
    series for it. *)
Lemma attempt_series (net : Network) (request : nat) :
  (let! body := fetchDailyMaxMin net request in
   match body with
   | None => Throw NoDailyTime
   | Some d => if (time_length d =? 0)%nat then Throw NoDailyTime else Ok d
   end)
  = match series net request with
    | Some d => Ok d
    | None => Throw (if ok (net request) then NoDailyTime
                     else HttpError (status (net request)))
    end.
Proof.
  unfold fetchDailyMaxMin, series.
  destruct (ok (net request)); cbn [negb bind]; [|reflexivity].
  destruct (daily (net request)) as [d|]; [|reflexivity].
  destruct (time_length d =? 0)%nat; reflexivity.
Qed.

(** After any number of iterations, [hist.points] holds what it held
    followed by the records asked for the points visited, and [processed]
    has counted them. *)
Lemma steps_stored (net : Network) (j : nat) :
  forall s : State,
    st_status s = Running ->
    h_points (st_hist (steps net j s))
    = h_points (st_hist s) ++ stored_for net (st_requests s) (take j (st_queue s)) /\
    st_processed (steps net j s)
    = (st_processed s
       + length (stored_for net (st_requests s) (take j (st_queue s))))%nat.
Proof.
  induction j as [|j IH]; intros s Hs; cbn [steps].
  { rewrite take_0. cbn [stored_for length]. now rewrite app_nil_r, Nat.add_0_r. }
  unfold step. rewrite Hs.
  destruct (st_queue s) as [|p rest] eqn:Hq.
  { rewrite steps_stopped by (cbn [st_status]; discriminate).
    cbn [take stored_for length st_hist st_processed].
    now rewrite app_nil_r, Nat.add_0_r. }
  cbn [take stored_for]. unfold has_coordinates.
  destruct (Number_isFinite (Number_of (p_lat p)));
    [destruct (Number_isFinite (Number_of (p_lon p)))|]; cbn [negb orb andb].
  2,3: apply (IH (mkState Running (st_disk s) (st_hist s) rest (st_processed s)
                    (st_requests s))); reflexivity.
  rewrite attempt_series.
  destruct (series net (st_requests s)) as [dl|].
  - destruct (IH (mkState Running
                    (writeHist (push (st_hist s) (newRecord p dl)) (st_disk s))
                    (push (st_hist s) (newRecord p dl)) rest
                    (S (st_processed s)) (S (st_requests s))) eq_refl) as [-> ->].
    cbn [st_hist st_requests st_processed st_queue push h_points length].
    rewrite <- app_assoc. split; [reflexivity | lia].
  - rewrite steps_stopped by (cbn [st_status]; discriminate).
    cbn [st_hist st_processed length]. now rewrite app_nil_r, Nat.add_0_r.
Qed.

Lemma stored_for_length (net : Network) (queue : list Point) :
  forall first, (length (stored_for net first queue) <= length queue)%nat.
Proof.
  induction queue as [|p rest IH]; intros first; cbn [stored_for length]; [lia|].
  destruct (has_coordinates p); [destruct (series net first)|]; cbn [length].
  - specialize (IH (S first)). lia.
  - lia.
  - specialize (IH first). lia.
Qed.

(** The points missing from a store that has grown are the points that were
    missing before and have no record among the new ones. *)
Lemma missing_grown (points : list Point) (hist hist' : Hist)
    (written : list NormalsRecord) :
  h_points hist' = h_points hist ++ written ->
  missing points hist'
  = filter (fun p => idOf p ∉ map storedId written) (missing points hist).
Proof.
  intros Hw. unfold missing. rewrite list_filter_filter. apply list_filter_iff.
  intros p. unfold existingIds, idOf, storedId.
  rewrite !elem_of_list_to_set, Hw, map_app, elem_of_app. tauto.
Qed.

Lemma missing_stored (points : list Point) (hist : Hist) :
  missing points hist
  = filter (fun p => idOf p ∉ map storedId (h_points hist)) points.
Proof.
  unfold missing. apply list_filter_iff. intros p.
  unfold existingIds, idOf, storedId. now rewrite elem_of_list_to_set.
Qed.




End AggregatorFacts.

(** ** The point index *)

Module PointIndexFacts.
Import Js RoundFacts JsFacts PointIndex.

Lemma toInt32_small (z : Z) : 0 <= z < 2 ^ 31 -> toInt32 z = z.
Proof. intros H. unfold toInt32. rewrite Z.mod_small; lia. Qed.

Lemma at_index_Some {A} (arr : list A) (i : Z) :
  0 <= i < Z.of_nat (length arr) -> exists x, at_index arr i = Some x /\ arr !! Z.to_nat i = Some x.
Proof.
  intros H. unfold at_index. destruct (i <? 0) eqn:E; [apply Z.ltb_lt in E; lia|].
  destruct (arr !! Z.to_nat i) as [x|] eqn:Hx; [eauto|].
  apply lookup_ge_None in Hx. lia.
Qed.

Section Search.

Variable arr : list Point.
Variable t : Q.
Hypothesis Hfinite : finite_miles arr.
Hypothesis Hsorted : sorted_by_mile arr.
Hypothesis Hsize : Z.of_nat (length arr) <= 2 ^ 30.

Lemma mile_Fin (i : nat) (p : Point) : arr !! i = Some p -> mile_est p = Fin (mileQ p).
Proof. intros H. apply Hfinite. apply list_elem_of_lookup. eauto. Qed.

(** The loop ends, with a point at the target mile or with [lo = hi + 1]
    between the points below the target and the points above it. *)
Lemma search_loop_spec (fuel : nat) :
  forall lo hi : Z,
    0 <= lo -> hi < Z.of_nat (length arr) -> lo <= hi + 1 ->
    (Z.to_nat (hi - lo + 1) <= fuel)%nat ->
    below arr t lo -> above arr t hi ->
    (exists p, search_loop fuel arr (Fin t) lo hi = Returns (Exact p) /\
               p ∈ arr /\ (mileQ p == t)%Q) \/
    (exists lo', search_loop fuel arr (Fin t) lo hi = Returns (Bounds lo' (lo' - 1)) /\
                 0 <= lo' <= Z.of_nat (length arr) /\
                 below arr t lo' /\ above arr t (lo' - 1)).
Proof.
  induction fuel as [|fuel IH]; intros lo hi Hlo Hhi Hle Hfuel Hbelow Habove;
    cbn [search_loop]; destruct (lo <=? hi) eqn:E;
    [apply Z.leb_le in E | apply Z.leb_gt in E | apply Z.leb_le in E | apply Z.leb_gt in E].
  - lia.
  - right. exists lo. replace (lo - 1) with hi by lia. repeat split; auto; lia.
  - rewrite toInt32_small by lia. rewrite Z.shiftr_div_pow2 by lia.
    change (2 ^ 1) with 2.
    set (mid := (lo + hi) / 2).
    assert (Hmid : lo <= mid <= hi).
    { unfold mid. split; [apply Z.div_le_lower_bound | apply Z.div_le_upper_bound]; lia. }
    destruct (at_index_Some arr mid ltac:(lia)) as (p & -> & Hp).
    rewrite (mile_Fin _ _ Hp).
    destruct (strict_eq (Fin (mileQ p)) (Fin t)) eqn:Eeq.
    { left. exists p. split; [reflexivity|]. split.
      - apply list_elem_of_lookup. eauto.
      - now apply strict_eq_Fin. }
    apply strict_eq_Fin_false in Eeq.
    destruct (lt (Fin (mileQ p)) (Fin t)) eqn:Elt.
    + apply lt_Fin in Elt. apply IH; try lia; [| exact Habove].
      intros i q Hi Hq.
      assert (Hiq : (mileQ q <= mileQ p)%Q) by (apply (Hsorted i (Z.to_nat mid)); auto; lia).
      lra.
    + apply lt_Fin_false in Elt. apply IH; try lia; [exact Hbelow|].
      intros i q Hi Hq.
      assert (Hiq : (mileQ p <= mileQ q)%Q) by (apply (Hsorted (Z.to_nat mid) i); auto; lia).
      assert (~ (t == mileQ p)%Q) by (intros Ht; apply Eeq; now symmetry).
      lra.
  - right. exists lo. replace (lo - 1) with hi by lia. repeat split; auto; lia.
Qed.

Ltac abs_cases x :=
  let H1 := fresh "Hsign" in
  let H2 := fresh "Habs" in
  destruct (Qabs_cases x) as [[H1 H2]|[H1 H2]].

Lemma distance_le (p q : Point) :
  p ∈ arr -> q ∈ arr ->
  (Qabs (mileQ p - t) <= Qabs (mileQ q - t))%Q ->
  le (distance p (Fin t)) (distance q (Fin t)) = true.
Proof.
  intros Hp Hq H. unfold distance. rewrite (Hfinite p Hp), (Hfinite q Hq).
  now apply distance_mono.
Qed.

(** A point whose computed distance is least is as near as any, up to the
    rounding of the distances. *)
Lemma least_computed_close (p : Point) :
  p ∈ arr ->
  (forall q, q ∈ arr -> le (distance p (Fin t)) (distance q (Fin t)) = true) ->
  forall q d, q ∈ arr -> distance p (Fin t) = Fin d ->
              (Qabs (mileQ p - t)
               <= Qabs (mileQ q - t) + half_ulp (mileQ p - t) + half_ulp (mileQ q - t))%Q.
Proof.
  intros Hp Hmin q d Hq Hd. specialize (Hmin q Hq).
  unfold distance in Hd, Hmin. rewrite (Hfinite p Hp) in Hd, Hmin.
  rewrite (Hfinite q Hq) in Hmin. unfold half_ulp.
  eapply distance_close; eassumption.
Qed.

(** A point at the target mile is a nearest point. *)
Lemma exact_nearest (p : Point) : p ∈ arr -> (mileQ p == t)%Q -> nearest arr t p.
Proof.
  intros Hp Heq.
  assert (Hmin : forall q, (Qabs (mileQ p - t) <= Qabs (mileQ q - t))%Q).
  { intros q. abs_cases (mileQ p - t)%Q; abs_cases (mileQ q - t)%Q; lra. }
  assert (Hleast : forall q, q ∈ arr -> le (distance p (Fin t)) (distance q (Fin t)) = true).
  { intros q Hq. now apply distance_le. }
  split; [exact Hp|]. split; [exact Hleast|]. split; [intros _ _ _; exact Heq|].
  split; [intros q _ _ Hab; lra|].
  now apply least_computed_close.
Qed.

(** Of a point [a] with every other point of its side farther away below
    the target, and a point [b] likewise above it, the one the comparison of
    the code selects is a nearest point. *)
Lemma candidates_nearest (a b : Point) :
  a ∈ arr -> b ∈ arr ->
  (forall q, q ∈ arr ->
             (mileQ q <= mileQ a /\ mileQ a < t)%Q \/
             (mileQ b <= mileQ q /\ t < mileQ b)%Q) ->
  (mileQ a <= mileQ b)%Q ->
  exists p,
    (if le (Math_abs (sub (mile_est a) (Fin t))) (Math_abs (sub (mile_est b) (Fin t)))
     then Some a else Some b) = Some p /\
    nearest arr t p.
Proof.
  intros Ha Hb Hside Hab.
  fold (distance a (Fin t)). fold (distance b (Fin t)).
  destruct (le (distance a (Fin t)) (distance b (Fin t))) eqn:Hcmp.
  - exists a. split; [reflexivity|].
    assert (Hleast : forall q, q ∈ arr -> le (distance a (Fin t)) (distance q (Fin t)) = true).
    { intros q Hq. destruct (Hside q Hq) as [[H1 H2]|[H1 H2]].
      * apply distance_le; auto.
        abs_cases (mileQ a - t)%Q; abs_cases (mileQ q - t)%Q; lra.
      * apply le_trans with (distance b (Fin t)); [exact Hcmp|].
        apply distance_le; auto.
        abs_cases (mileQ b - t)%Q; abs_cases (mileQ q - t)%Q; lra. }
    split; [exact Ha|]. split; [exact Hleast|]. split; [|split].
    + intros q Hq Heq. destruct (Hside q Hq) as [[H1 H2]|[H1 H2]]; lra.
    + intros q Hq Hq' Ha'. destruct (Hside q Hq) as [[H1 H2]|[H1 H2]]; lra.
    + now apply least_computed_close.
  - exists b. split; [reflexivity|].
    pose proof Hcmp as Hcmp'.
    unfold distance in Hcmp. rewrite (Hfinite a Ha), (Hfinite b Hb) in Hcmp.
    apply le_distance_total in Hcmp as [Hba Hlt].
    assert (Hba' : le (distance b (Fin t)) (distance a (Fin t)) = true).
    { unfold distance. now rewrite (Hfinite a Ha), (Hfinite b Hb). }
    assert (Hleast : forall q, q ∈ arr -> le (distance b (Fin t)) (distance q (Fin t)) = true).
    { intros q Hq. destruct (Hside q Hq) as [[H1 H2]|[H1 H2]].
      * apply le_trans with (distance a (Fin t)); [exact Hba'|].
        apply distance_le; auto.
        abs_cases (mileQ a - t)%Q; abs_cases (mileQ q - t)%Q; lra.
      * apply distance_le; auto.
        abs_cases (mileQ b - t)%Q; abs_cases (mileQ q - t)%Q; lra. }
    split; [exact Hb|]. split; [exact Hleast|]. split; [|split].
    + intros q Hq Heq. destruct (Hside q Hq) as [[H1 H2]|[H1 H2]]; lra.
    + intros q Hq Hq' Hb'. destruct (Hside q Hq) as [[H1 H2]|[H1 H2]]; [|lra].
      destruct (le (distance q (Fin t)) (distance b (Fin t))) eqn:Hqb; [|reflexivity].
      exfalso.
      assert (Haq : le (distance a (Fin t)) (distance q (Fin t)) = true).
      { apply distance_le; auto.
        abs_cases (mileQ a - t)%Q; abs_cases (mileQ q - t)%Q; lra. }
      pose proof (le_trans _ _ _ Haq Hqb) as Hcontra. congruence.
    + now apply least_computed_close.
Qed.

(** The statements after the loop select a nearest point. *)
Lemma closer_candidate_nearest (lo : Z) :
  arr <> [] ->
  0 <= lo <= Z.of_nat (length arr) -> below arr t lo -> above arr t (lo - 1) ->
  exists p, closer_candidate arr (Fin t) lo (lo - 1) = Some p /\ nearest arr t p.
Proof.
  intros Hne Hlo Hbelow Habove.
  assert (Hn : 0 < Z.of_nat (length arr)) by (destruct arr; [contradiction | cbn; lia]).
  unfold closer_candidate.
  set (ia := clamp_index arr (lo - 1)). set (ib := clamp_index arr lo).
  assert (Hia : 0 <= ia < Z.of_nat (length arr)) by (unfold ia, clamp_index; lia).
  assert (Hib : 0 <= ib < Z.of_nat (length arr)) by (unfold ib, clamp_index; lia).
  destruct (at_index_Some arr ia Hia) as (a & -> & Ha).
  destruct (at_index_Some arr ib Hib) as (b & -> & Hb).
  apply candidates_nearest.
  - apply list_elem_of_lookup. eauto.
  - apply list_elem_of_lookup. eauto.
  - intros q Hq. apply list_elem_of_lookup in Hq as [i Hi].
    destruct (Z_lt_le_dec (Z.of_nat i) lo) as [Hlt|Hge].
    + left. split.
      * apply (Hsorted i (Z.to_nat ia)); auto. unfold ia, clamp_index. lia.
      * apply (Hbelow (Z.to_nat ia)); auto. unfold ia, clamp_index. lia.
    + right. assert (Z.of_nat i < Z.of_nat (length arr))
        by (apply inj_lt, lookup_lt_is_Some; eauto).
      split.
      * apply (Hsorted (Z.to_nat ib) i); auto. unfold ib, clamp_index. lia.
      * apply (Habove (Z.to_nat ib)); auto. unfold ib, clamp_index. lia.
  - apply (Hsorted (Z.to_nat ia) (Z.to_nat ib)); auto. unfold ia, ib, clamp_index. lia.
Qed.

(** On a non-empty sorted array and a finite target the lookup returns a
    nearest point. *)
Lemma getNearestPointByMile_nearest :
  arr <> [] ->
  exists p, getNearestPointByMile arr (Fin t) = Returns (Some p) /\ nearest arr t p.
Proof.
  intros Hne. unfold getNearestPointByMile.
  assert (Hn : 0 < Z.of_nat (length arr)) by (destruct arr; [contradiction | cbn; lia]).
  destruct (length arr =? 0)%nat eqn:E; [apply Nat.eqb_eq in E; lia|].
  cbn [Number_isFinite negb orb].
  destruct (search_loop_spec (S (length arr)) 0 (Z.of_nat (length arr) - 1))
    as [(p & -> & Hp & Heq)|(lo & -> & Hlo & Hbelow & Habove)]; try lia.
  - intros i p Hi. lia.
  - intros i p Hi Hp. apply lookup_lt_Some in Hp. lia.
  - exists p. split; [reflexivity|]. now apply exact_nearest.
  - destruct (closer_candidate_nearest lo Hne Hlo Hbelow Habove) as (p & -> & Hp).
    eauto.
Qed.

End Search.

(** Over a well-formed index the lookup always returns. *)
Lemma getNearestPointByMile_returns (arr : list Point) (targetMile : num) :
  finite_miles arr -> sorted_by_mile arr -> Z.of_nat (length arr) <= 2 ^ 30 ->
  exists o, getNearestPointByMile arr targetMile = Returns o.
Proof.
  intros Hfinite Hsorted Hsize.
  destruct targetMile as [| | |t];
    try (unfold getNearestPointByMile; cbn [Number_isFinite negb];
         rewrite orb_true_r; eauto).
  destruct arr as [|p0 rest] eqn:Harr; [cbn; eauto|]. rewrite <- Harr in *.
  destruct (getNearestPointByMile_nearest arr t Hfinite Hsorted Hsize) as (p & Hp & _);
    [rewrite Harr; discriminate | eauto].
Qed.

(** C5, as amended.  Over an array of points with finite miles, in
    ascending order of mile and of at most 2^30 elements (so that the 32-bit
    midpoint cannot wrap): for a finite target the lookup returns [null] when
    the array is empty and otherwise a nearest point: no point has a smaller
    distance as the code computes it, in binary64, so that no point is
    nearer by more than the rounding of the two distances; it is a point at
    the target mile when there is one; and a point above the target is
    returned only when every point below the target is farther, as computed
    (candidates as far go to the lower mile).  For a target that is not
    finite it returns [null], whatever the array holds. *)
Theorem nearest_point (arr : list Point) (targetMile : num) :
  finite_miles arr -> sorted_by_mile arr -> Z.of_nat (length arr) <= 2 ^ 30 ->
  match targetMile, arr with
  | Fin t, _ :: _ =>
      exists p, getNearestPointByMile arr targetMile = Returns (Some p) /\
                nearest arr t p
  | _, _ => getNearestPointByMile arr targetMile = Returns None
  end.
Proof.
  intros Hfinite Hsorted Hsize.
  destruct targetMile as [| | |t];
    try (unfold getNearestPointByMile; cbn [Number_isFinite negb];
         rewrite orb_true_r; reflexivity).
  destruct arr as [|p0 rest] eqn:Harr; [reflexivity|]. rewrite <- Harr in *.
  apply getNearestPointByMile_nearest; auto. rewrite Harr. discriminate.
Qed.

Lemma three_points_finite : finite_miles Samples.three_points.
Proof.
  intros p Hp. unfold Samples.three_points in Hp.
  repeat (apply elem_of_cons in Hp as [->|Hp]; [reflexivity|]).
  inversion Hp.
Qed.

Lemma three_points_sorted : sorted_by_mile Samples.three_points.
Proof.
  intros i j p q Hij Hi Hj.
  destruct i as [|[|[|i]]]; cbn in Hi; try discriminate; injection Hi as <-;
    destruct j as [|[|[|j]]]; cbn in Hj; try discriminate; try lia; injection Hj as <-;
    cbv; discriminate.
Qed.

Lemma nearest_point_witness :
  exists p, getNearestPointByMile Samples.three_points (Fin 14) = Returns (Some p) /\
            nearest Samples.three_points 14 p.
Proof.
  apply (nearest_point Samples.three_points (Fin 14)
           three_points_finite three_points_sorted).
  cbv. discriminate.
Defined.

(** C5 as stated fails twice.  The lookup also returns [null] over a
    non-empty store, when the target mile is not a finite number.  And the
    point it returns need not have the smallest distance: the comparison is of
    binary64 distances.  Over the miles that [0.1] and [2.1] denote and the
    target that [1.1] denotes, the upper point is the nearer one, by 2^-52,
    but both differences round to 1 and the lower point is returned. *)
Lemma nearest_null_counterexample :
  ~ (forall (arr : list Point) (targetMile : num),
        getNearestPointByMile arr targetMile = Returns None -> arr = []) /\
  (let lower := PointIndex.mkPoint "a" "GA" (fl (1 # 10)) (Fin 0) (Fin 0) in
   let upper := PointIndex.mkPoint "b" "GA" (fl (21 # 10)) (Fin 0) (Fin 0) in
   getNearestPointByMile [lower; upper] (fl (11 # 10)) = Returns (Some lower) /\
   (Qabs (mileQ upper - round64 (11 # 10)) < Qabs (mileQ lower - round64 (11 # 10)))%Q).
Proof.
  split.
  - intros H. specialize (H Samples.three_points NaN eq_refl). discriminate H.
  - split; vm_compute; reflexivity.
Qed.

(** The examples of the specification: over miles 0, 10, 20, the targets
    14, 10 and 15 all give the point at mile 10. *)
Example nearest_examples :
  getNearestPointByMile Samples.three_points (Fin 14) = Returns (Some (Samples.index_point 10)) /\
  getNearestPointByMile Samples.three_points (Fin 10) = Returns (Some (Samples.index_point 10)) /\
  getNearestPointByMile Samples.three_points (Fin 15) = Returns (Some (Samples.index_point 10)).
Proof. repeat split; vm_compute; reflexivity. Qed.

End PointIndexFacts.

(** ** Retries *)

Module RetryFacts.
Import Js RoundFacts JsFacts Http Retry.

(** While the responses are retryable failures and attempts remain, the loop
    sleeps the delay of each and goes on. *)
Lemma loop_retry (o : Options) (net : Network) (first : nat) :
  forall (i attempt remaining : nat) (t : Trace),
    (attempt + i <= maxRetries o)%nat ->
    (remaining + attempt = S (maxRetries o))%nat ->
    (forall a, (attempt <= a < attempt + i)%nat ->
               ok (net (first + a)%nat) = false /\
               retryable (net (first + a)%nat) = true) ->
    fetchWithRetry_loop o net first attempt remaining t
    = fetchWithRetry_loop o net first (attempt + i) (remaining - i)
        (mkTrace (requests t + i)
           (slept t ++ map (fun a => delay o (net (first + a)%nat) a) (seq attempt i))).
Proof.
  induction i as [|i IH]; intros attempt remaining t Hle Hrem Hfail.
  - rewrite Nat.add_0_r, Nat.sub_0_r. cbn [seq map]. rewrite app_nil_r.
    destruct t. cbn [requests slept]. now rewrite Nat.add_0_r.
  - destruct remaining as [|remaining]; [lia|].
    cbn [fetchWithRetry_loop].
    destruct (Hfail attempt ltac:(lia)) as [-> ->]. cbn [negb orb].
    destruct (Nat.eqb_spec attempt (maxRetries o)) as [E|_]; [lia|].
    rewrite (IH (S attempt) remaining) by
      (try lia; intros a Ha; apply Hfail; lia).
    cbn [requests slept seq map]. rewrite <- app_assoc. cbn [app].
    replace (S attempt + i)%nat with (attempt + S i)%nat by lia.
    replace (S remaining - S i)%nat with (remaining - i)%nat by lia.
    replace (S (requests t) + i)%nat with (requests t + S i)%nat by lia.
    reflexivity.
Qed.

(** After [i] retryable failures the loop is at attempt [i]. *)
Lemma fetchWithRetry_at (o : Options) (net : Network) (first i : nat) :
  (i <= maxRetries o)%nat ->
  retryable_failures net first i ->
  fetchWithRetry o net first
  = fetchWithRetry_loop o net first i (S (maxRetries o - i))
      (mkTrace i (delays o net first i)).
Proof.
  intros Hi Hfail. unfold fetchWithRetry.
  rewrite (loop_retry o net first i 0 (S (maxRetries o)) (mkTrace 0 [])) by
    (try lia; intros a Ha; apply Hfail; lia).
  cbn [requests slept app Nat.add]. fold (delays o net first i).
  replace (S (maxRetries o) - i)%nat with (S (maxRetries o - i)) by lia.
  reflexivity.
Qed.

(** A 2xx response after [i] retryable failures is returned. *)
Lemma fetchWithRetry_success (o : Options) (net : Network) (first i : nat) :
  (i <= maxRetries o)%nat ->
  retryable_failures net first i ->
  ok (net (first + i)%nat) = true ->
  fetchWithRetry o net first
  = (Ok (net (first + i)%nat), mkTrace (S i) (delays o net first i)).
Proof.
  intros Hi Hfail Hok. rewrite (fetchWithRetry_at o net first i Hi Hfail).
  cbn [fetchWithRetry_loop requests slept]. now rewrite Hok.
Qed.

(** A response that is neither 2xx nor retryable is thrown at once. *)
Lemma fetchWithRetry_fatal (o : Options) (net : Network) (first i : nat) :
  (i <= maxRetries o)%nat ->
  retryable_failures net first i ->
  ok (net (first + i)%nat) = false ->
  retryable (net (first + i)%nat) = false ->
  fetchWithRetry o net first
  = (Throw (HttpError (status (net (first + i)%nat))),
     mkTrace (S i) (delays o net first i)).
Proof.
  intros Hi Hfail Hok Hretry. rewrite (fetchWithRetry_at o net first i Hi Hfail).
  cbn [fetchWithRetry_loop requests slept]. now rewrite Hok, Hretry.
Qed.

(** When every attempt fails with a retryable status, the last failure is
    thrown after [maxRetries + 1] requests. *)
Lemma fetchWithRetry_exhausted (o : Options) (net : Network) (first : nat) :
  retryable_failures net first (S (maxRetries o)) ->
  fetchWithRetry o net first
  = (Throw (HttpError (status (net (first + maxRetries o)%nat))),
     mkTrace (S (maxRetries o)) (delays o net first (maxRetries o))).
Proof.
  intros Hfail.
  rewrite (fetchWithRetry_at o net first (maxRetries o)) by
    (try lia; intros a Ha; apply Hfail; lia).
  cbn [fetchWithRetry_loop requests slept].
  destruct (Hfail (maxRetries o) ltac:(lia)) as [-> _].
  rewrite Nat.eqb_refl, orb_true_r. reflexivity.
Qed.

(** Every delay is capped, when the base delay is positive and the cap
    finite. *)
Lemma delay_capped (o : Options) (resp : Response) (attempt : nat) (b M : Q) :
  baseDelayMs o = Fin b -> (0 < b)%Q -> maxDelayMs o = Fin M ->
  le (delay o resp attempt) (Fin M) = true.
Proof.
  intros Hb Hpos HM. unfold delay. rewrite HM.
  match goal with |- le (Math_min ?d _) _ = true => set (d1 := d) end.
  assert (Hnn : d1 <> NaN).
  { assert (Hback : backoff o attempt <> NaN).
    { unfold backoff, of_Z. rewrite Hb.
      destruct (fl_cases (inject_Z (2 ^ Z.of_nat attempt))) as [[-> _]|[[-> _]|[-> _]]];
        cbn [mul]; unfold Qsign.
      - destruct (Qcompare_spec b 0); [lra | lra | discriminate].
      - destruct (Qcompare_spec b 0); [lra | lra | discriminate].
      - match goal with
        | |- fl ?x <> NaN => destruct (fl_cases x) as [[-> _]|[[-> _]|[-> _]]]
        end; discriminate. }
    unfold d1.
    destruct (retry_after resp) as [ra|]; [|now destruct (_ || _)].
    destruct (mul ra (Fin 1000)) eqn:Em; cbn [Number_isFinite negb orb]; try exact Hback.
    destruct (le (Fin q) (Fin 0)); [exact Hback | discriminate]. }
  destruct d1 as [| | |q] eqn:Ed; [contradiction | | |]; cbn [Math_min le].
  - apply Qle_bool_iff. lra.
  - reflexivity.
  - destruct (Qle_bool q M) eqn:E; cbn [le]; [exact E | apply Qle_bool_iff; lra].
Qed.

(** A positive [Retry-After] of [r] seconds gives [r * 1000] milliseconds,
    as binary64 computes the product, capped. *)
Lemma delay_hint (o : Options) (resp : Response) (attempt : nat) (r : Q) :
  retry_after resp = Some (Fin r) -> (0 < r)%Q -> (r * 1000 < OVERFLOW)%Q ->
  binary64 r ->
  delay o resp attempt = Math_min (Fin (round64 (r * 1000))) (maxDelayMs o).
Proof.
  intros Hra Hpos Hsmall Hr. unfold delay. rewrite Hra. cbn [mul].
  pose proof OVERFLOW_pos.
  rewrite fl_small by lra. cbn [Number_isFinite negb orb le].
  destruct (Qle_bool (round64 (r * 1000)) 0) eqn:E; [|reflexivity].
  exfalso. apply Qle_bool_iff in E.
  assert (Hge : (r <= r * 1000)%Q) by lra.
  apply round64_mono in Hge. unfold binary64 in Hr. lra.
Qed.

(** Without the header the delay is the exponential backoff, capped. *)
Lemma delay_backoff (o : Options) (resp : Response) (attempt : nat) :
  retry_after resp = None ->
  delay o resp attempt
  = Math_min (mul (baseDelayMs o) (of_Z (2 ^ Z.of_nat attempt))) (maxDelayMs o).
Proof.
  intros Hra. unfold delay. rewrite Hra. fold (backoff o attempt).
  now destruct (_ || _).
Qed.

Lemma retryable_statuses (resp : Response) :
  retryable resp = true <-> status resp = 429 \/ status resp = 502 \/ status resp = 503.
Proof. unfold retryable. rewrite !orb_true_iff, !Z.eqb_eq. tauto. Qed.

(** In [generate-missing-normals-at.js] a response that is not 2xx stops the
    run: the state is left with the error, nothing is written for the point
    in flight, and no further request is sent. *)
Lemma aggregator_http_failure (net : Network) (s : Aggregator.State)
    (p : Store.Point) (rest : list Store.Point) :
  Aggregator.st_status s = Aggregator.Running ->
  Aggregator.st_queue s = p :: rest ->
  Number_isFinite (Store.Number_of (Store.p_lat p)) = true ->
  Number_isFinite (Store.Number_of (Store.p_lon p)) = true ->
  ok (net (Aggregator.st_requests s)) = false ->
  let s' := Aggregator.mkState
              (Aggregator.Exited (HttpError (status (net (Aggregator.st_requests s)))))
              (Aggregator.st_disk s) (Aggregator.st_hist s) rest
              (Aggregator.st_processed s) (S (Aggregator.st_requests s)) in
  Aggregator.step net s = s' /\
  forall n, Aggregator.steps net n s' = s'.
Proof.
  intros Hst Hq Hlat Hlon Hok s'. split.
  - unfold Aggregator.step, Aggregator.fetchDailyMaxMin.
    rewrite Hst, Hq, Hlat, Hlon, Hok. reflexivity.
  - induction n as [|n IH]; [reflexivity|]. cbn [Aggregator.steps]. exact IH.
Qed.

(** C7, as amended.  [fetchWithRetry] of the planning-normals builder: a
    failure with status 429, 502 or 503 is followed by another attempt, after
    a delay that is the [Retry-After] hint when it is a positive number and
    the exponential backoff otherwise, never more than the cap; a response
    that is not 2xx and not retryable is thrown at once; and when the attempt
    number [maxRetries] fails too, that failure is thrown.  The generator of
    missing normals does not retry: any response that is not 2xx, 429
    included, stops the run after that one request, with nothing written for
    the point in flight. *)
Theorem retry_policy :
  (forall resp, retryable resp = true <->
                status resp = 429 \/ status resp = 502 \/ status resp = 503) /\
  (forall o net first i,
      (i <= maxRetries o)%nat -> retryable_failures net first i ->
      ok (net (first + i)%nat) = true ->
      fetchWithRetry o net first
      = (Ok (net (first + i)%nat), mkTrace (S i) (delays o net first i))) /\
  (forall o net first i,
      (i <= maxRetries o)%nat -> retryable_failures net first i ->
      ok (net (first + i)%nat) = false -> retryable (net (first + i)%nat) = false ->
      fetchWithRetry o net first
      = (Throw (HttpError (status (net (first + i)%nat))),
         mkTrace (S i) (delays o net first i))) /\
  (forall o net first,
      retryable_failures net first (S (maxRetries o)) ->
      fetchWithRetry o net first
      = (Throw (HttpError (status (net (first + maxRetries o)%nat))),
         mkTrace (S (maxRetries o)) (delays o net first (maxRetries o)))) /\
  (forall o resp attempt b M,
      baseDelayMs o = Fin b -> (0 < b)%Q -> maxDelayMs o = Fin M ->
      le (delay o resp attempt) (Fin M) = true) /\
  (forall o resp attempt r,
      retry_after resp = Some (Fin r) -> (0 < r)%Q -> (r * 1000 < OVERFLOW)%Q ->
      binary64 r ->
      delay o resp attempt = Math_min (Fin (round64 (r * 1000))) (maxDelayMs o)) /\
  (forall o resp attempt,
      retry_after resp = None ->
      delay o resp attempt
      = Math_min (mul (baseDelayMs o) (of_Z (2 ^ Z.of_nat attempt))) (maxDelayMs o)) /\
  (forall net s p rest,
      Aggregator.st_status s = Aggregator.Running ->
      Aggregator.st_queue s = p :: rest ->
      Number_isFinite (Store.Number_of (Store.p_lat p)) = true ->
      Number_isFinite (Store.Number_of (Store.p_lon p)) = true ->
      ok (net (Aggregator.st_requests s)) = false ->
      let s' := Aggregator.mkState
                  (Aggregator.Exited (HttpError (status (net (Aggregator.st_requests s)))))
                  (Aggregator.st_disk s) (Aggregator.st_hist s) rest
                  (Aggregator.st_processed s) (S (Aggregator.st_requests s)) in
      Aggregator.step net s = s' /\ forall n, Aggregator.steps net n s' = s').
Proof.
  split; [exact retryable_statuses|].
  split; [exact fetchWithRetry_success|].
  split; [exact fetchWithRetry_fatal|].
  split; [exact fetchWithRetry_exhausted|].
  split; [exact delay_capped|].
  split; [exact delay_hint|].
  split; [exact delay_backoff|].
  exact aggregator_http_failure.
Qed.

Lemma retry_policy_witness :
  fetchWithRetry defaults Samples.archive_limited 0
  = (Throw (HttpError 429),
     mkTrace 9 (delays defaults Samples.archive_limited 0 8)).
Proof.
  apply (proj1 (proj2 (proj2 (proj2 retry_policy))) defaults Samples.archive_limited 0%nat).
  intros a _. split; reflexivity.
Defined.

(** C7 as stated fails for the aggregation that runs: with the archive
    answering 429, the generator of missing normals sends one request, does
    not try again, and exits with the store untouched. *)
Lemma aggregator_no_retry :
  ~ (forall (net : Network) (d : Store.Disk),
        status (net 0%nat) = 429 ->
        Aggregator.st_queue (Aggregator.start d) <> [] ->
        (1 < Aggregator.st_requests (Aggregator.main net d))%nat).
Proof.
  intros H.
  specialize (H Samples.archive_limited Samples.empty_store_disk eq_refl).
  vm_compute in H. specialize (H ltac:(discriminate)).
  apply Nat.lt_irrefl in H. exact H.
Qed.

End RetryFacts.

(** ** The slots of the days of the year *)

Module CalendarFacts.
Import Extremes Calendar ExtremesSpec.

Lemma days_from_civil_day (y m d : Z) :
  days_from_civil y m d = days_from_civil y m 1 + (d - 1).
Proof. unfold days_from_civil. cbv zeta. lia. Qed.

Lemma days_from_civil_2021 (m d : Z) :
  1 <= m <= 12 ->
  days_from_civil 2021 m d - days_from_civil 2021 1 1 = days_before_month m + d - 1.
Proof.
  intros Hm. rewrite (days_from_civil_day 2021 m d).
  assert (Hcases : m = 1 \/ m = 2 \/ m = 3 \/ m = 4 \/ m = 5 \/ m = 6 \/ m = 7 \/ m = 8 \/
                   m = 9 \/ m = 10 \/ m = 11 \/ m = 12) by lia.
  repeat (destruct Hcases as [->|Hcases]); try subst m;
    match goal with
    | |- ?a + _ - ?b = ?c + _ - 1 =>
        let a' := eval vm_compute in a in
        let b' := eval vm_compute in b in
        let c' := eval vm_compute in c in
        change a with a'; change b with b'; change c with c'
    end; lia.
Qed.

Lemma days_before_month_bounds (m d : Z) :
  calendar_day (m, d) = true ->
  0 <= days_before_month m + d - 1 <= 364.
Proof.
  unfold calendar_day, month_length, days_before_month.
  rewrite !andb_true_iff, !Z.leb_le. intros [[[H1 H2] H3] H4].
  assert (Hcases : m = 1 \/ m = 2 \/ m = 3 \/ m = 4 \/ m = 5 \/ m = 6 \/ m = 7 \/ m = 8 \/
                   m = 9 \/ m = 10 \/ m = 11 \/ m = 12) by lia.
  repeat (destruct Hcases as [->|Hcases]); try subst m; cbn in *; lia.
Qed.

Lemma days_before_month_inj (m d m' d' : Z) :
  calendar_day (m, d) = true -> calendar_day (m', d') = true ->
  days_before_month m + d = days_before_month m' + d' ->
  (m, d) = (m', d').
Proof.
  unfold calendar_day, month_length, days_before_month.
  rewrite !andb_true_iff, !Z.leb_le. intros [[[H1 H2] H3] H4] [[[H1' H2'] H3'] H4'].
  assert (Hcases : m = 1 \/ m = 2 \/ m = 3 \/ m = 4 \/ m = 5 \/ m = 6 \/ m = 7 \/ m = 8 \/
                   m = 9 \/ m = 10 \/ m = 11 \/ m = 12) by lia.
  assert (Hcases' : m' = 1 \/ m' = 2 \/ m' = 3 \/ m' = 4 \/ m' = 5 \/ m' = 6 \/ m' = 7 \/
                    m' = 8 \/ m' = 9 \/ m' = 10 \/ m' = 11 \/ m' = 12) by lia.
  repeat (destruct Hcases as [->|Hcases]); try subst m;
    repeat (destruct Hcases' as [->|Hcases']); try subst m';
    cbn in *; intros E; first [f_equal; lia | exfalso; lia].
Qed.

(** The slot of a calendar day, as the two scripts compute it. *)
Lemma dayIndex_calendar_day (m d : Z) :
  calendar_day (m, d) = true ->
  dayIndexInNonLeapYearFromMonthDay (m, d) = days_before_month m + d - 1 /\
  Averages.dayIndexFromMMDD (m, d) = days_before_month m + d - 1.
Proof.
  intros H. pose proof (days_before_month_bounds m d H) as Hb.
  unfold calendar_day in H. rewrite !andb_true_iff, !Z.leb_le in H.
  unfold dayIndexInNonLeapYearFromMonthDay, Averages.dayIndexFromMMDD.
  rewrite days_from_civil_2021 by lia. split; [lia | reflexivity].
Qed.

Lemma year_days_index (i : Z) :
  0 <= i < 365 ->
  let md := monthDay (addDays (days_from_civil 2021 1 1) i) in
  calendar_day md = true /\ dayIndexInNonLeapYearFromMonthDay md = i.
Proof.
  assert (Hall : forallb (fun n : nat =>
                    let md := monthDay (addDays (days_from_civil 2021 1 1) (Z.of_nat n)) in
                    calendar_day md && (dayIndexInNonLeapYearFromMonthDay md =? Z.of_nat n))
                   (seq 0 365) = true) by (vm_compute; reflexivity).
  intros Hi. rewrite forallb_forall in Hall.
  specialize (Hall (Z.to_nat i)). rewrite Z2Nat.id in Hall by lia.
  cbv zeta in Hall. rewrite andb_true_iff, Z.eqb_eq in Hall.
  apply Hall. apply in_seq. lia.
Qed.

Lemma dayIndex_inj (md md' : Z * Z) :
  calendar_day md = true -> calendar_day md' = true ->
  dayIndexInNonLeapYearFromMonthDay md = dayIndexInNonLeapYearFromMonthDay md' ->
  md = md'.
Proof.
  destruct md as [m d], md' as [m' d']. intros H H' E.
  rewrite (proj1 (dayIndex_calendar_day m d H)),
          (proj1 (dayIndex_calendar_day m' d' H')) in E.
  apply days_before_month_inj; [assumption .. | lia].
Qed.

(** Every day of a non-leap year is one of [year_days]. *)
Lemma calendar_day_in_year (md : Z * Z) : calendar_day md = true -> In md year_days.
Proof.
  intros H. destruct md as [m d].
  pose proof (days_before_month_bounds m d H) as Hb.
  pose proof (proj1 (dayIndex_calendar_day m d H)) as Hi.
  destruct (year_days_index (days_before_month m + d - 1) ltac:(lia)) as [Hc Hidx].
  cbv zeta in Hc, Hidx.
  assert (E : monthDay (addDays (days_from_civil 2021 1 1) (days_before_month m + d - 1))
              = (m, d)).
  { apply dayIndex_inj; [assumption .. | congruence]. }
  unfold year_days. apply in_map_iff.
  exists (Z.to_nat (days_before_month m + d - 1)).
  rewrite Z2Nat.id by lia. split; [exact E | apply in_seq; lia].
Qed.

(** A date has a month from 1 to 12 and a day of the month from 1 to
    31. *)
Lemma monthDay_valid (z : Z) :
  let '(m, d) := monthDay z in 1 <= m <= 12 /\ 1 <= d <= 31.
Proof.
  unfold monthDay, civil_from_days. cbv zeta.
  set (z' := z + 719468).
  set (era := z' / 146097).
  set (doe := z' - era * 146097).
  set (yoe := (doe - doe / 1460 + doe / 36524 - doe / 146096) / 365).
  set (doy := doe - (365 * yoe + yoe / 4 - yoe / 100)).
  set (mp := (5 * doy + 2) / 153).
  assert (Hdoe : 0 <= doe < 146097) by (unfold doe, era; Z.div_mod_to_equations; lia).
  assert (Hyoe : 0 <= yoe <= 399) by (unfold yoe; Z.div_mod_to_equations; lia).
  assert (Hdoy : 0 <= doy <= 365) by (unfold doy, yoe; Z.div_mod_to_equations; lia).
  assert (Hmp : 0 <= mp <= 11) by (unfold mp; Z.div_mod_to_equations; lia).
  split.
  - destruct (mp <? 10) eqn:E; [apply Z.ltb_lt in E | apply Z.ltb_ge in E]; lia.
  - unfold mp. Z.div_mod_to_equations. lia.
Qed.

(** The slot the page reads for a date is the index of the date in the
    reference year. *)
Lemma dayIndex_reference_day (z : Z) :
  dayIndexInNonLeapYearFromMonthDay (monthDay z) = reference_day z.
Proof.
  unfold reference_day. pose proof (monthDay_valid z) as H.
  destruct (monthDay z) as [m d]. destruct H as [Hm Hd].
  unfold dayIndexInNonLeapYearFromMonthDay.
  rewrite days_from_civil_2021 by exact Hm.
  assert (Hcases : m = 1 \/ m = 2 \/ m = 3 \/ m = 4 \/ m = 5 \/ m = 6 \/ m = 7 \/ m = 8 \/
                   m = 9 \/ m = 10 \/ m = 11 \/ m = 12) by lia.
  repeat (destruct Hcases as [->|Hcases]); try subst m; cbn; lia.
Qed.

(** X19.  [dayIndexInNonLeapYearFromMonthDay] numbers the days of a
    year that is not a leap year from 0 to 364 in calendar order: it gives
    the days before the month plus the day of the month minus one, different
    days get different slots, and the day [i] days after January 1 of 2021
    gets slot [i].  February 29 gets slot 59, the slot of March 1. *)
Theorem dayIndex_one_to_one :
  (forall m d, calendar_day (m, d) = true ->
               dayIndexInNonLeapYearFromMonthDay (m, d) = days_before_month m + d - 1) /\
  (forall md md', calendar_day md = true -> calendar_day md' = true ->
                  dayIndexInNonLeapYearFromMonthDay md
                  = dayIndexInNonLeapYearFromMonthDay md' -> md = md') /\
  (forall i, 0 <= i < 365 ->
             let md := monthDay (addDays (days_from_civil 2021 1 1) i) in
             calendar_day md = true /\ dayIndexInNonLeapYearFromMonthDay md = i) /\
  dayIndexInNonLeapYearFromMonthDay (2, 29) = 59 /\
  dayIndexInNonLeapYearFromMonthDay (3, 1) = 59.
Proof.
  split; [intros m d H; apply (dayIndex_calendar_day m d H)|].
  split; [exact dayIndex_inj|].
  split; [exact year_days_index | split; reflexivity].
Qed.

End CalendarFacts.

(** ** The duration extremes *)

Module ExtremesFacts.
Import Js JsFacts Store PointIndex PointIndexFacts Extremes Calendar CalendarFacts
  ExtremesSpec.

(** *** The two running extremes *)

Lemma lt_total_finite (x y : num) :
  Number_isFinite x = true -> Number_isFinite y = true ->
  lt x y = false -> le y x = true.
Proof.
  destruct x, y; try discriminate. intros _ _. rewrite lt_Fin_false, le_Fin. trivial.
Qed.

Lemma lt_le_finite (x y : num) : lt x y = true -> le x y = true.
Proof.
  destruct x as [| | |a], y as [| | |b]; try discriminate; try reflexivity.
  rewrite lt_Fin, le_Fin. intros; lra.
Qed.

Lemma le_refl_finite (x : num) : Number_isFinite x = true -> le x x = true.
Proof. destruct x; try discriminate. intros _. apply le_Fin. lra. Qed.

Lemma lt_le_trans (x y z : num) : lt x y = true -> le y z = true -> lt x z = true.
Proof.
  destruct x as [| | |a], y as [| | |b], z as [| | |c];
    try discriminate; try reflexivity.
  rewrite !lt_Fin, le_Fin. intros; lra.
Qed.

Lemma le_lt_trans (x y z : num) : le x y = true -> lt y z = true -> lt x z = true.
Proof.
  destruct x as [| | |a], y as [| | |b], z as [| | |c];
    try discriminate; try reflexivity.
  rewrite !lt_Fin, le_Fin. intros; lra.
Qed.

Lemma hottest_snoc (recs : list DayRec) (rec h : DayRec) :
  Forall finite_record recs -> finite_record rec ->
  first_hottest recs h ->
  first_hottest (recs ++ [rec]) (if lt (avgHigh h) (avgHigh rec) then rec else h).
Proof.
  intros Hfin [Hrh Hrl] (kh & Hkh & Hh).
  assert (Hfh : finite_record h) by (eapply Forall_lookup_1; eauto).
  destruct (lt (avgHigh h) (avgHigh rec)) eqn:E.
  - exists (length recs). split; [apply list_lookup_middle; reflexivity|].
    intros j r Hj. destruct (decide (j < length recs)%nat) as [Hlt|Hge].
    + rewrite lookup_app_l in Hj by exact Hlt.
      destruct (Hh j r Hj) as [Hle _]. split.
      * apply lt_le_finite. eapply le_lt_trans; eauto.
      * intros _. eapply le_lt_trans; eauto.
    + rewrite lookup_app_r in Hj by lia.
      destruct (j - length recs)%nat eqn:Ej; cbn in Hj; [|discriminate].
      injection Hj as <-. split; [now apply le_refl_finite | lia].
  - exists kh. split; [apply lookup_app_l_Some; exact Hkh|].
    intros j r Hj. destruct (decide (j < length recs)%nat) as [Hlt|Hge].
    + rewrite lookup_app_l in Hj by exact Hlt. now apply Hh.
    + rewrite lookup_app_r in Hj by lia.
      destruct (j - length recs)%nat eqn:Ej; cbn in Hj; [|discriminate].
      injection Hj as <-. apply lookup_lt_Some in Hkh. split; [|lia].
      apply lt_total_finite; [apply Hfh | exact Hrh | exact E].
Qed.

Lemma coldest_snoc (recs : list DayRec) (rec c : DayRec) :
  Forall finite_record recs -> finite_record rec ->
  first_coldest recs c ->
  first_coldest (recs ++ [rec]) (if lt (avgLow rec) (avgLow c) then rec else c).
Proof.
  intros Hfin [Hrh Hrl] (kc & Hkc & Hc).
  assert (Hfc : finite_record c) by (eapply Forall_lookup_1; eauto).
  destruct (lt (avgLow rec) (avgLow c)) eqn:E.
  - exists (length recs). split; [apply list_lookup_middle; reflexivity|].
    intros j r Hj. destruct (decide (j < length recs)%nat) as [Hlt|Hge].
    + rewrite lookup_app_l in Hj by exact Hlt.
      destruct (Hc j r Hj) as [Hle _]. split.
      * apply lt_le_finite. eapply lt_le_trans; eauto.
      * intros _. eapply lt_le_trans; eauto.
    + rewrite lookup_app_r in Hj by lia.
      destruct (j - length recs)%nat eqn:Ej; cbn in Hj; [|discriminate].
      injection Hj as <-. split; [now apply le_refl_finite | lia].
  - exists kc. split; [apply lookup_app_l_Some; exact Hkc|].
    intros j r Hj. destruct (decide (j < length recs)%nat) as [Hlt|Hge].
    + rewrite lookup_app_l in Hj by exact Hlt. now apply Hc.
    + rewrite lookup_app_r in Hj by lia.
      destruct (j - length recs)%nat eqn:Ej; cbn in Hj; [|discriminate].
      injection Hj as <-. apply lookup_lt_Some in Hkc. split; [|lia].
      apply lt_total_finite; [exact Hrl | apply Hfc | exact E].
Qed.

Lemma first_singleton (rec : DayRec) :
  finite_record rec -> first_hottest [rec] rec /\ first_coldest [rec] rec.
Proof.
  intros [Hrh Hrl].
  split; exists 0%nat; (split; [reflexivity|]);
    intros [|j] r Hj; cbn in Hj; try discriminate; injection Hj as <-;
    (split; [now apply le_refl_finite | lia]).
Qed.

Lemma tracked_snoc (recs : list DayRec) (best : option DayRec * option DayRec)
    (rec : DayRec) :
  Forall finite_record recs -> finite_record rec ->
  tracked recs best -> tracked (recs ++ [rec]) (update best rec).
Proof.
  intros Hfin Hrec Htr.
  destruct recs as [|r0 recs'].
  - cbn in Htr. subst best. cbn [app tracked update].
    exists rec, rec. split; [reflexivity|]. now apply first_singleton.
  - destruct Htr as (h & c & -> & Hh & Hc).
    cbn [app tracked]. change (r0 :: recs' ++ [rec]) with ((r0 :: recs') ++ [rec]).
    exists (if lt (avgHigh h) (avgHigh rec) then rec else h),
           (if lt (avgLow rec) (avgLow c) then rec else c).
    split; [| split; [now apply hottest_snoc | now apply coldest_snoc]].
    cbn [update]. unfold gt.
    destruct (lt (avgHigh h) (avgHigh rec)), (lt (avgLow rec) (avgLow c)); reflexivity.
Qed.

(** *** The loop *)

Lemma finite_slot_Some (arr : list slot) (idx : Z) (x : num) :
  finite_slot arr idx = Some x <->
  exists q, x = Fin q /\ at_index arr idx = Some (Some (Fin q)).
Proof.
  unfold finite_slot.
  destruct (at_index arr idx) as [[[| | |q]|]|]; split;
    try discriminate; try (intros (q' & _ & Hq); discriminate).
  - intros [= <-]. eauto.
  - intros (q' & -> & [= ->]). reflexivity.
Qed.

Lemma record_of_day_finite (app : App) (trip : Trip) (trailMin trailMax : num)
    (i : nat) (r : DayRec) :
  record_of_day app trip trailMin trailMax i = Some r -> finite_record r.
Proof.
  unfold record_of_day, dayRecord. cbv zeta.
  destruct (getNearestPointByMile _ _) as [[p|]|e|]; try discriminate.
  destruct (normalsByPointId app !! id p) as [nm|]; [|discriminate].
  destruct (finite_slot (hi nm) _) as [h|] eqn:Hh; [|discriminate].
  destruct (finite_slot (lo nm) _) as [l|] eqn:Hl; [|discriminate].
  intros [= <-].
  apply finite_slot_Some in Hh as (qh & -> & _).
  apply finite_slot_Some in Hl as (ql & -> & _).
  split; reflexivity.
Qed.

Lemma day_records_finite (app : App) (trip : Trip) (trailMin trailMax : num) (i n : nat) :
  Forall finite_record (day_records app trip trailMin trailMax i n).
Proof.
  apply Forall_forall. intros r Hr. unfold day_records in Hr.
  apply list_elem_of_omap in Hr as (j & _ & Hj).
  eapply record_of_day_finite; eauto.
Qed.

Lemma day_records_S (app : App) (trip : Trip) (trailMin trailMax : num) (n : nat) :
  day_records app trip trailMin trailMax 0 (S n)
  = day_records app trip trailMin trailMax 0 n
      ++ match record_of_day app trip trailMin trailMax n with
         | Some r => [r]
         | None => []
         end.
Proof.
  unfold day_records. rewrite seq_S, omap_app. reflexivity.
Qed.

(** While the days settle, the loop returns, and what it returns tracks
    the records of all the days. *)
Lemma loop_tracked (app : App) (trip : Trip) (trailMin trailMax : num) (days : nat) :
  (forall i, (i < days)%nat -> exists r, dayRecord app trip trailMin trailMax i = Returns r) ->
  forall (n i : nat) (best : option DayRec * option DayRec),
    (i + n <= days)%nat ->
    tracked (day_records app trip trailMin trailMax 0 i) best ->
    exists best',
      loop app trip trailMin trailMax i n best = Returns best' /\
      tracked (day_records app trip trailMin trailMax 0 (i + n)) best'.
Proof.
  intros Hsettles. induction n as [|n IH]; intros i best Hle Htr; cbn [loop].
  - exists best. rewrite Nat.add_0_r. auto.
  - replace (i + S n)%nat with (S i + n)%nat by lia.
    pose proof (day_records_S app trip trailMin trailMax i) as HS.
    unfold record_of_day in HS.
    destruct (Hsettles i ltac:(lia)) as [[rec|] Hr]; rewrite Hr in HS |- *.
    + apply IH; [lia|]. rewrite HS. apply tracked_snoc; auto.
      * apply day_records_finite.
      * apply (record_of_day_finite app trip trailMin trailMax i).
        unfold record_of_day. now rewrite Hr.
    + apply IH; [lia|]. rewrite HS, app_nil_r. exact Htr.
Qed.

(** The two assignments after the declaration of [targetMile] clamp it. *)
Lemma clamp_assignments (a b : Q) (x : num) :
  (let t := if lt x (Fin a) then Fin a else x in
   if gt t (Fin b) then Fin b else t)
  = clamped a b x.
Proof.
  assert (Hmin : forall u : Q,
             (if gt (Fin u) (Fin b) then Fin b else Fin u) = Fin (Qmin u b)).
  { intros u. unfold gt, Qmin, GenericMinMax.gmin. cbn [lt].
    destruct (Qcompare_spec u b) as [E|E|E].
    - assert (H : Qle_bool u b = true) by (apply Qle_bool_iff; rewrite E; apply Qle_refl).
      now rewrite H.
    - assert (H : Qle_bool u b = true) by (apply Qle_bool_iff, Qlt_le_weak, E).
      now rewrite H.
    - destruct (Qle_bool u b) eqn:H; [|reflexivity].
      apply Qle_bool_iff in H. exfalso. apply (Qlt_not_le _ _ E H). }
  destruct x as [| | |q]; cbv zeta; cbn [clamped].
  - reflexivity.
  - reflexivity.
  - cbn [lt]. apply Hmin.
  - assert (Hmax : (if lt (Fin q) (Fin a) then Fin a else Fin q) = Fin (Qmax q a)).
    { unfold Qmax, GenericMinMax.gmax. cbn [lt].
      destruct (Qcompare_spec q a) as [E|E|E].
      - assert (H : Qle_bool a q = true) by (apply Qle_bool_iff; rewrite E; apply Qle_refl).
        now rewrite H.
      - destruct (Qle_bool a q) eqn:H; [|reflexivity].
        apply Qle_bool_iff in H. exfalso. apply (Qlt_not_le _ _ E H).
      - assert (H : Qle_bool a q = true) by (apply Qle_bool_iff, Qlt_le_weak, E).
        now rewrite H. }
    rewrite Hmax. apply Hmin.
Qed.

Lemma clamped_finite (a b : Q) (x : num) :
  match clamped a b x with
  | Fin _ | NaN => True
  | _ => False
  end.
Proof. destruct x; exact I. Qed.

Lemma temperatures_slots (app : App) (p : Point) (normals : Normals) (z : Z) :
  normalsByPointId app !! id p = Some normals ->
  match finite_slot (hi normals) (dayIndexInNonLeapYearFromMonthDay (monthDay z)),
        finite_slot (lo normals) (dayIndexInNonLeapYearFromMonthDay (monthDay z)) with
  | Some h, Some l =>
      exists qh ql, h = Fin qh /\ l = Fin ql /\ temperatures app p z = Some (qh, ql)
  | _, _ => temperatures app p z = None
  end.
Proof.
  intros Hn. unfold temperatures, finite_slot. rewrite Hn, dayIndex_reference_day.
  destruct (at_index (hi normals) (reference_day z)) as [[[| | |qh]|]|];
    destruct (at_index (lo normals) (reference_day z)) as [[[| | |ql]|]|];
    try reflexivity.
  exists qh, ql. auto.
Qed.

(** Over a well-formed index every day settles, with what the day has to
    contribute. *)
Lemma dayRecord_outcome (app : App) (trip : Trip) (a b : Q) (i : nat) :
  finite_miles (allPointsSortedByMile app) ->
  sorted_by_mile (allPointsSortedByMile app) ->
  Z.of_nat (length (allPointsSortedByMile app)) <= 2 ^ 30 ->
  allPointsSortedByMile app <> [] ->
  Z.of_nat i <= 2 ^ 53 ->
  exists o,
    dayRecord app trip (Fin a) (Fin b) i = Returns o /\
    day_outcome app trip a b i o.
Proof.
  intros Hf Hs Hz Hne Hi. unfold dayRecord, day_outcome. cbv zeta.
  rewrite of_Z_integer by lia. fold (cumulative_miles trip i).
  pose proof (mul_double (milesPerDay trip) (Fin (inject_Z (Z.of_nat i)))) as Hd.
  fold (cumulative_miles trip i) in Hd.
  destruct (mul_sign _ Hd) as [H1 H2].
  assert (Ht : (let t := if lt (add (if String.eqb (direction trip) "SOBO" then Fin b else Fin a)
                                  (mul (if String.eqb (direction trip) "SOBO"
                                        then Fin (-1) else Fin 1)
                                     (cumulative_miles trip i))) (Fin a)
                         then Fin a
                         else add (if String.eqb (direction trip) "SOBO" then Fin b else Fin a)
                                (mul (if String.eqb (direction trip) "SOBO"
                                      then Fin (-1) else Fin 1)
                                   (cumulative_miles trip i)) in
                if gt t (Fin b) then Fin b else t)
               = projected_mile trip a b i).
  { rewrite clamp_assignments. unfold projected_mile.
    destruct (String.eqb (direction trip) "SOBO"); [rewrite H2 | rewrite H1]; reflexivity. }
  cbv zeta in Ht. rewrite Ht. clear Ht.
  pose proof (clamped_finite a b
                (if String.eqb (direction trip) "SOBO"
                 then sub (Fin b) (cumulative_miles trip i)
                 else add (Fin a) (cumulative_miles trip i))) as Hc.
  fold (projected_mile trip a b i) in Hc.
  destruct (projected_mile trip a b i) as [| | |t]; try contradiction.
  - unfold getNearestPointByMile. cbn [Number_isFinite negb]. rewrite orb_true_r. eauto.
  - destruct (getNearestPointByMile_nearest _ t Hf Hs Hz Hne) as (p & -> & Hp).
    destruct (normalsByPointId app !! id p) as [normals|] eqn:Hn.
    + pose proof (temperatures_slots app p normals
                    (addDays (startDate trip) (Z.of_nat i)) Hn) as Hsl.
      destruct (finite_slot (hi normals) _) as [h|];
        [destruct (finite_slot (lo normals) _) as [l|]|].
      * destruct Hsl as (qh & ql & -> & -> & Ht).
        eexists. split; [reflexivity|]. exists p. split; [exact Hp|]. now rewrite Ht.
      * eexists. split; [reflexivity|]. exists p. split; [exact Hp|]. now rewrite Hsl.
      * eexists. split; [reflexivity|]. exists p. split; [exact Hp|]. now rewrite Hsl.
    + eexists. split; [reflexivity|]. exists p. split; [exact Hp|].
      unfold temperatures. now rewrite Hn.
Qed.

Lemma omap_map_id {A B} (f : A -> option B) (l : list A) :
  omap (fun o : option B => o) (map f l) = omap f l.
Proof.
  induction l as [|x l IH]; [reflexivity|].
  cbn [map]. change (omap (fun o : option B => o) (f x :: map f l))
    with (match f x with
          | Some y => y :: omap (fun o : option B => o) (map f l)
          | None => omap (fun o : option B => o) (map f l)
          end).
  change (omap f (x :: l)) with (match f x with
                                 | Some y => y :: omap f l
                                 | None => omap f l
                                 end).
  now rewrite IH.
Qed.




(** On the sample trip the day without data is skipped: the hottest and the
    coldest day are both the third. *)
Example extremes_example :
  exists h c,
    computeAndRenderDurationExtremes Samples.sample_app Samples.sample_trip
    = Returns (Tables h c) /\
    avgHigh h = Fin 45 /\ avgLow c = Fin 20 /\
    date h = Extremes.days_from_civil 2021 1 3 /\
    date c = Extremes.days_from_civil 2021 1 1.
Proof. do 2 eexists. split; [vm_compute; reflexivity|]. repeat split. Qed.

End ExtremesFacts.

(** ** Identity codec: ids over the range of the miles *)

Module CodecRangeFacts.
Import Js Codec RoundFacts JsFacts CodecFacts CodecRange.

Lemma Qfloor_lt_mono (x y : Q) : (x + 1 <= y)%Q -> Qfloor x < Qfloor y.
Proof.
  intros H. pose proof (Qfloor_bounds x) as [Hx _]. pose proof (Qfloor_bounds y) as [_ Hy].
  rewrite Zlt_Qlt. lra.
Qed.

Lemma MAX_MILE_facts :
  (0 < MAX_MILE)%Q /\ (MAX_MILE * 1000 + 1 < OVERFLOW)%Q /\
  (MAX_MILE * 1000 + 1 < inject_Z (2 ^ 34))%Q.
Proof. repeat split. Qed.

(** In the range of the miles considered, the scaled value is the integer
    nearest to a product that is within 10^-6 of the exact one, and it is
    below 2^53 in magnitude. *)
Lemma scaled_in_range (q : Q) :
  (- MAX_MILE <= q <= MAX_MILE)%Q ->
  exists r : Q,
    scaled (Fin q) = Some (Qfloor (r + (1 # 2))) /\
    (Qabs (r - q * 1000) <= 1 # 1000000)%Q /\
    Z.abs (Qfloor (r + (1 # 2))) < 2 ^ 53.
Proof.
  intros [Hlo Hhi].
  destruct MAX_MILE_facts as (P & HO & H34).
  exists (round64 (q * 1000)).
  assert (Hp : (Qabs (q * 1000) < 2 ^ 34)%Q).
  { rewrite <- pow2_Z by lia. apply Qabs_Qlt_condition.
    generalize dependent (inject_Z (2 ^ 34)). generalize dependent MAX_MILE.
    generalize OVERFLOW. intros; split; lra. }
  pose proof (round64_error_below (q * 1000) 34 ltac:(lia) Hp) as He.
  assert (He' : (Qabs (round64 (q * 1000) - q * 1000) <= 1 # 1000000)%Q).
  { eapply Qle_trans; [exact He|]. vm_compute. discriminate. }
  split; [|split; [exact He'|]].
  - apply scaled_finite. generalize dependent MAX_MILE. generalize OVERFLOW.
    intros; split; lra.
  - pose proof (Qfloor_bounds (round64 (q * 1000) + (1 # 2))) as [Hf1 Hf2].
    apply Qabs_Qle_condition in He'. destruct He' as [He1 He2].
    assert (B : (2:Z) ^ 34 + 2 < 2 ^ 53) by (vm_compute; reflexivity).
    apply Z.abs_lt. split; rewrite Zlt_Qlt; [rewrite inject_Z_opp|].
    + apply Qlt_trans with (- inject_Z (2 ^ 34 + 2))%Q;
        [rewrite <- !inject_Z_opp, <- Zlt_Qlt; lia|].
      rewrite inject_Z_plus. change (inject_Z 2) with 2%Q.
      generalize dependent (inject_Z (2 ^ 34)). generalize dependent MAX_MILE.
      generalize dependent (round64 (q * 1000)). intros; lra.
    + apply Qlt_trans with (inject_Z (2 ^ 34 + 2)); [|rewrite <- Zlt_Qlt; lia].
      rewrite inject_Z_plus. change (inject_Z 2) with 2%Q.
      generalize dependent (inject_Z (2 ^ 34)). generalize dependent MAX_MILE.
      generalize dependent (round64 (q * 1000)). intros; lra.
Qed.

(** X1.  Two miles between 0 and ten million that are at least 0.001001 of
    a mile apart both get an id, and never the same one. *)
Theorem toNewId_separates (q1 q2 : Q) :
  (0 <= q1)%Q -> (q1 + (1001 # 1000000) <= q2)%Q -> (q2 <= MAX_MILE)%Q ->
  exists id1 id2,
    toNewId (Fin q1) = Ok id1 /\ toNewId (Fin q2) = Ok id2 /\ id1 <> id2.
Proof.
  intros H0 Hsep Hmax.
  destruct MAX_MILE_facts as (P17 & _ & _).
  destruct (scaled_in_range q1 ltac:(lra)) as (r1 & S1 & E1 & B1).
  destruct (scaled_in_range q2 ltac:(lra)) as (r2 & S2 & E2 & B2).
  rewrite !toNewId_unfold, S1, S2.
  do 2 eexists. split; [reflexivity|]. split; [reflexivity|].
  intros Heq. apply append_prefix_inj in Heq.
  apply (f_equal token_value) in Heq.
  rewrite !token_value_padStart0, !String_of_integer_small in Heq by assumption.
  apply Qabs_Qle_condition in E1, E2. destruct E1 as [E1 E1']. destruct E2 as [E2 E2'].
  assert (N1 : 0 <= Qfloor (r1 + (1 # 2))).
  { rewrite <- (Qfloor_Z 0). apply Qfloor_resp_le. change (inject_Z 0) with 0%Q. lra. }
  assert (Hlt : Qfloor (r1 + (1 # 2)) < Qfloor (r2 + (1 # 2))).
  { apply Qfloor_lt_mono. lra. }
  set (n1 := Qfloor (r1 + (1 # 2))) in *.
  set (n2 := Qfloor (r2 + (1 # 2))) in *.
  rewrite !token_value_String_of_Z in Heq by lia.
  injection Heq as Heq. lia.
Qed.

Lemma toNewId_separates_witness :
  exists id1 id2,
    toNewId (Fin (21903 # 10)) = Ok id1 /\
    toNewId (Fin ((21903 # 10) + (1001 # 1000000))) = Ok id2 /\ id1 <> id2.
Proof.
  apply (toNewId_separates (21903 # 10) ((21903 # 10) + (1001 # 1000000)));
    [ discriminate | apply Qle_refl | discriminate ].
Defined.

(** X2.  Round trip.  For a mile [q] between 0 and ten million, the token of
    the id is a string of at least seven digits, and the number [n] it
    spells, taken as thousandths, is within half a thousandth and a
    billionth of the mile: [|q - n / 1000| <= 0.000500001]. *)
Theorem token_decodes_mile (q : Q) :
  (0 <= q <= MAX_MILE)%Q ->
  exists token n,
    toNewId (Fin q) = Ok (prefix +:+ token) /\
    (7 <= String.length token)%nat /\
    token_value token = Some n /\
    (Qabs (q - inject_Z n / 1000) <= (1 # 2000) + (1 # 1000000000))%Q.
Proof.
  intros [H0 Hmax].
  destruct MAX_MILE_facts as (P17 & _ & _).
  destruct (scaled_in_range q ltac:(lra)) as (r & S1 & E1 & B1).
  rewrite toNewId_unfold, S1.
  do 2 eexists. split; [reflexivity|].
  split; [rewrite length_padStart0; unfold PAD_WIDTH; lia|].
  apply Qabs_Qle_condition in E1. destruct E1 as [E1 E1'].
  assert (N1 : 0 <= Qfloor (r + (1 # 2))).
  { rewrite <- (Qfloor_Z 0). apply Qfloor_resp_le. change (inject_Z 0) with 0%Q. lra. }
  rewrite String_of_integer_small by assumption.
  split; [rewrite token_value_padStart0; now apply token_value_String_of_Z|].
  pose proof (Qfloor_bounds (r + (1 # 2))) as [Hf1 Hf2].
  set (n := Qfloor (r + (1 # 2))) in *.
  apply Qabs_Qle_condition.
  assert (E : (inject_Z n / 1000 == inject_Z n * (1 # 1000))%Q) by reflexivity.
  rewrite E. split; lra.
Qed.

Lemma token_decodes_mile_witness :
  exists token n,
    toNewId (Fin (21903 # 10)) = Ok (prefix +:+ token) /\
    (7 <= String.length token)%nat /\
    token_value token = Some n /\
    (Qabs ((21903 # 10) - inject_Z n / 1000) <= (1 # 2000) + (1 # 1000000000))%Q.
Proof.
  apply (token_decodes_mile (21903 # 10)). split; discriminate.
Defined.

Lemma token_value_minus (s : string) : token_value (String "-" s) = None.
Proof.
  unfold token_value. cbn [NilEmpty.uint_of_string].
  destruct (NilEmpty.uint_of_string s); reflexivity.
Qed.

(** X3.  A negative mile is not rejected.  For a mile from minus ten
    million up to -0.000501, [toNewId] returns an id; its token holds a
    minus sign after the padding zeros (mile -5 gives [at-main-mi00-5000]),
    so it is not a string of digits. *)
Theorem toNewId_accepts_negative (q : Q) :
  (- MAX_MILE <= q)%Q -> (q <= - (501 # 1000000))%Q ->
  exists token,
    toNewId (Fin q) = Ok (prefix +:+ token) /\
    (7 <= String.length token)%nat /\
    token_value token = None.
Proof.
  intros Hlo Hneg.
  destruct MAX_MILE_facts as (P17 & _ & _).
  destruct (scaled_in_range q ltac:(lra)) as (r & S1 & E1 & B1).
  rewrite toNewId_unfold, S1.
  eexists. split; [reflexivity|].
  split; [rewrite length_padStart0; unfold PAD_WIDTH; lia|].
  rewrite token_value_padStart0, String_of_integer_small by assumption.
  apply Qabs_Qle_condition in E1. destruct E1 as [E1 E1'].
  assert (N : Qfloor (r + (1 # 2)) < 0).
  { pose proof (Qfloor_bounds (r + (1 # 2))) as [Hf1 _].
    rewrite Zlt_Qlt. change (inject_Z 0) with 0%Q. lra. }
  destruct (Qfloor (r + (1 # 2))) as [|p|p]; [lia | lia |].
  unfold String_of_Z. cbn [Z.to_int NilZero.string_of_int]. apply token_value_minus.
Qed.

Lemma toNewId_accepts_negative_witness :
  exists token,
    toNewId (Fin (- 5)) = Ok (prefix +:+ token) /\
    (7 <= String.length token)%nat /\
    token_value token = None.
Proof.
  apply (toNewId_accepts_negative (- 5)); discriminate.
Defined.

Example toNewId_minus_five : toNewId (Fin (- 5)) = Ok "at-main-mi00-5000"%string.
Proof. vm_compute. reflexivity. Qed.

(** The binary64 number that [-0.0005] denotes has the product -0.5 with
    1000, which [Math.round] takes to zero: no minus sign. *)
Example toNewId_minus_half_thousandth :
  toNewId (fl (- (5 # 10000))) = Ok "at-main-mi0000000"%string.
Proof. vm_compute. reflexivity. Qed.

End CodecRangeFacts.

(** ** [migrate-ids-at-main.js]: the run *)

Module MigrateRunFacts.
Import Js Store Codec Fs Migrate MigrateFacts MigrateRun.

(** *** The uniqueness check *)

Lemma ensureUniqueIds_from_first (label : string) (ids : list (prop string)) :
  forall (seen : gset (prop string)) (before : list (prop string)),
    (forall x, x ∈ seen <-> x ∈ before) -> NoDup before ->
    match ensureUniqueIds_from seen ids label with
    | Ok _ => NoDup (before ++ ids)
    | Throw e =>
        exists pre id post,
          ids = pre ++ id :: post /\ NoDup (before ++ pre) /\ id ∈ before ++ pre /\
          e = DuplicateId label (String_of_prop id)
    end.
Proof.
  induction ids as [|id rest IH]; intros seen before Hseen Hnd; cbn [ensureUniqueIds_from].
  - now rewrite app_nil_r.
  - destruct (decide (id ∈ seen)) as [Hin|Hnin].
    + exists [], id, rest. rewrite app_nil_r. repeat split; [exact Hnd | now apply Hseen].
    + specialize (IH ({[ id ]} ∪ seen) (before ++ [id])).
      assert (Hseen' : forall x, x ∈ {[ id ]} ∪ seen <-> x ∈ before ++ [id]).
      { intros x. rewrite elem_of_union, elem_of_singleton, elem_of_app,
          list_elem_of_singleton, Hseen. tauto. }
      assert (Hnd' : NoDup (before ++ [id])).
      { apply NoDup_app. split; [exact Hnd|]. split; [|apply NoDup_singleton].
        intros x Hx Hx'. apply list_elem_of_singleton in Hx'. subst x.
        apply Hnin, Hseen, Hx. }
      specialize (IH Hseen' Hnd').
      destruct (ensureUniqueIds_from ({[ id ]} ∪ seen) rest label) as [[]|e].
      * now rewrite <- app_assoc in IH.
      * destruct IH as (pre & x & post & -> & Hpre & Hx & ->).
        exists (id :: pre), x, post. rewrite <- app_assoc in Hpre, Hx.
        repeat split; assumption.
Qed.

(** X4.  [ensureUniqueIds] returns normally exactly on a list without
    repetition; when it throws, the id it reports is the first element that
    repeats an earlier one: everything before it is without repetition. *)
Theorem ensureUniqueIds_first_repeat (ids : list (prop string)) (label : string) :
  match ensureUniqueIds ids label with
  | Ok _ => NoDup ids
  | Throw e =>
      exists pre id post,
        ids = pre ++ id :: post /\ NoDup pre /\ id ∈ pre /\
        e = DuplicateId label (String_of_prop id)
  end.
Proof.
  apply (ensureUniqueIds_from_first label ids ∅ []); [| constructor].
  intros x. split; [intros H; now apply not_elem_of_empty in H | intros H; inversion H].
Qed.

(** *** What a completed run wrote *)

Lemma validate_inv (points : list Point) (root : NormalsRoot)
    (ups : list Point) (root' : NormalsRoot) (w : bool) :
  validate points root = Ok (ups, root', w) ->
  exists m arr md urecs,
    migratePoints ∅ points = Ok (ups, m) /\ NoDup (map p_id ups) /\
    getNormalsArray root = Ok (arr, md) /\
    mapM (migrateRecord m) arr = Ok urecs /\ NoDup (map r_id urecs) /\
    root' = updatedNormalsRoot root md urecs /\
    w = negb (length urecs =? length ups)%nat.
Proof.
  unfold validate.
  destruct (migratePoints ∅ points) as [[ups0 m]|e] eqn:Hp; cbn [bind]; [|discriminate].
  destruct (ensureUniqueIds (map p_id ups0) "points") as [[]|e] eqn:Hu; cbn [bind]; [|discriminate].
  destruct (getNormalsArray root) as [[arr md]|e] eqn:Hg; cbn [bind]; [|discriminate].
  destruct (mapM (migrateRecord m) arr) as [urecs|e] eqn:Hr; cbn [bind]; [|discriminate].
  destruct (ensureUniqueIds (map r_id urecs) "normals") as [[]|e] eqn:Hv; cbn [bind]; [|discriminate].
  intros [= <- <- <-]. exists m, arr, md, urecs.
  apply ensureUniqueIds_ok in Hu, Hv. repeat split; assumption.
Qed.

Lemma main_ok_inv (tagPoints tagNormals : string) (d d' : Disk) (r : Report) :
  main tagPoints tagNormals d = (Ok r, d') ->
  exists points root ups root' w,
    points_json d = Some (PointsArray points) /\
    historical_weather_json d = Some root /\
    validate points root = Ok (ups, root', w) /\
    d' = commit tagPoints tagNormals d (PointsArray points) root ups root'.
Proof.
  rewrite main_eq.
  destruct (points_json d) as [[points|]|], (historical_weather_json d) as [root|];
    try discriminate.
  destruct (validate points root) as [[[ups root'] w]|e] eqn:Hv; [|discriminate].
  intros H. exists points, root, ups, root', w.
  split; [reflexivity|]. split; [reflexivity|]. split; [exact Hv|].
  destruct ups; [discriminate H|]. now injection H as _ <-.
Qed.

Lemma migratePoints_rekeyed (points : list Point) :
  forall (m : gmap string string) (ups : list Point) (m1 : gmap string string),
    migratePoints m points = Ok (ups, m1) -> Forall2 rekeyed_point points ups.
Proof.
  induction points as [|p rest IH]; intros m ups m1; cbn [migratePoints].
  - intros [= <- <-]. constructor.
  - destruct (migratePoint m p) as [[p' ma]|e] eqn:Hp; cbn [bind]; [|discriminate].
    destruct (migratePoints ma rest) as [[rest' mb]|e] eqn:Hrest; cbn [bind]; [|discriminate].
    intros [= <- <-]. constructor; [| eapply IH; exact Hrest].
    apply migratePoint_inv in Hp as (mile & newId & Hm & Hid & -> & _).
    unfold rekeyed_point. cbn. repeat split; eauto.
Qed.



(** *** The normals follow the points *)

Lemma migratePoints_other_keys (points : list Point) :
  forall (m : gmap string string) (ups : list Point) (m1 : gmap string string) (k : string),
    migratePoints m points = Ok (ups, m1) ->
    k ∉ map (fun p => String_of_prop (p_id p)) points ->
    m1 !! k = m !! k.
Proof.
  induction points as [|p rest IH]; intros m ups m1 k; cbn [migratePoints].
  - now intros [= <- <-].
  - destruct (migratePoint m p) as [[p' ma]|e] eqn:Hp; cbn [bind]; [|discriminate].
    destruct (migratePoints ma rest) as [[rest' mb]|e] eqn:Hrest; cbn [bind]; [|discriminate].
    intros [= <- <-] Hk. cbn [map] in Hk. apply not_elem_of_cons in Hk as [Hne Hk].
    rewrite (IH _ _ _ _ Hrest Hk).
    apply migratePoint_inv in Hp as (mile & newId & _ & _ & _ & ->).
    now rewrite lookup_insert_ne.
Qed.

Lemma migratePoints_lookup (points : list Point) :
  forall (m : gmap string string) (ups : list Point) (m1 : gmap string string)
         (i : nat) (p p' : Point),
    migratePoints m points = Ok (ups, m1) ->
    NoDup (map (fun p => String_of_prop (p_id p)) points) ->
    points !! i = Some p -> ups !! i = Some p' ->
    exists newId, p_id p' = Val newId /\ m1 !! String_of_prop (p_id p) = Some newId.
Proof.
  induction points as [|q rest IH]; intros m ups m1 i p p'; cbn [migratePoints].
  - intros _ _ Hi. inversion Hi.
  - destruct (migratePoint m q) as [[q' ma]|e] eqn:Hq; cbn [bind]; [|discriminate].
    destruct (migratePoints ma rest) as [[rest' mb]|e] eqn:Hrest; cbn [bind]; [|discriminate].
    intros [= <- <-] Hnd Hi Hi'. cbn [map] in Hnd. apply NoDup_cons in Hnd as [Hq_new Hnd].
    destruct i as [|i]; cbn in Hi, Hi'.
    + injection Hi as <-. injection Hi' as <-.
      rewrite (migratePoints_other_keys _ _ _ _ _ Hrest Hq_new).
      apply migratePoint_inv in Hq as (mile & newId & _ & _ & -> & ->).
      exists newId. split; [reflexivity | apply lookup_insert_eq].
    + eapply IH; eassumption.
Qed.

Lemma mapM_migrateRecord_rekeyed (m : gmap string string) (ups : list Point)
    (arr urecs : list NormalsRecord) :
  (forall k v, m !! k = Some v -> Val v ∈ map p_id ups) ->
  mapM (migrateRecord m) arr = Ok urecs ->
  Forall2 (fun rec rec' =>
             rekeyed_record ups rec rec' /\
             exists v, r_id rec' = Val v /\ m !! String_of_prop (r_id rec) = Some v)
          arr urecs.
Proof.
  intros Hm. revert urecs. induction arr as [|rec rest IH]; intros urecs; cbn [mapM].
  - intros [= <-]. constructor.
  - destruct (migrateRecord m rec) as [rec'|e] eqn:Hrec; cbn [bind]; [|discriminate].
    destruct (mapM (migrateRecord m) rest) as [rest'|e]; cbn [bind]; [|discriminate].
    intros [= <-]. constructor; [| now apply IH].
    apply migrateRecord_inv in Hrec as (newId & Hl & _ & ->).
    unfold rekeyed_record. cbn. repeat split; eauto.
Qed.



(** *** The rest of the normals file *)

Lemma updatedMeta_lookup (meta : option metaValue) (k : string) :
  k ∉ id_keys -> updatedMeta meta !! k = spread meta !! k.
Proof.
  intros Hk. unfold updatedMeta.
  rewrite !lookup_insert_ne; [reflexivity | ..];
    intros <-; apply Hk; unfold id_keys; rewrite !elem_of_cons; tauto.
Qed.



(** A [meta] that is a string is spread into its characters, a [meta] that
    is an array into its elements, each under its index. *)
Example updatedMeta_of_string :
  updatedMeta (Some (MString "ab")) !! "0"%string = Some (MString "a") /\
  updatedMeta (Some (MString "ab")) !! "1"%string = Some (MString "b") /\
  updatedMeta (Some (MArray [MNull; MBool true])) !! "1"%string = Some (MBool true) /\
  updatedMeta (Some (MNumber (Fin 5))) !! "0"%string = None.
Proof. repeat split; vm_compute; reflexivity. Qed.

(** *** Nothing half-written *)

Lemma commit_committed (tagPoints tagNormals : string) (d : Disk)
    (points ups : list Point) (root root' : NormalsRoot) (w : bool) :
  points_json d = Some (PointsArray points) ->
  historical_weather_json d = Some root ->
  validate points root = Ok (ups, root', w) ->
  committed tagPoints tagNormals d
    (commit tagPoints tagNormals d (PointsArray points) root ups root').
Proof.
  intros Hp Hr Hv.
  apply validate_inv in Hv as (m & arr & md & urecs & _ & Hnd & Hg & _ & Hndr & -> & _).
  exists (PointsArray points), root, ups, (updatedNormalsRoot root md urecs), urecs, md.
  split; [exact Hp|]. split; [exact Hr|].
  split; [reflexivity|].
  split; [exact Hnd|].
  split; [apply (updatedNormalsRoot_again root arr urecs md Hg) | exact Hndr].
Qed.

(** X8.  Whatever [migrate-ids-at-main.js] does, the data directory
    afterwards is either untouched or fully committed: both files rewritten,
    without a repeated id in either, and the two files as they were copied
    under the backup names of the two time stamps, each copy over the file of
    that name when there was one (a backup made in the same second).  A run
    that returns has committed; a run that throws has left the directory
    untouched, except for the [TypeError] of the final report on an empty
    points array, which comes after the commit. *)
Theorem migration_atomic (tagPoints tagNormals : string) (d d' : Disk)
    (r : result Report) :
  main tagPoints tagNormals d = (r, d') ->
  match r with
  | Ok _ => committed tagPoints tagNormals d d'
  | Throw e =>
      d' = d \/
      (e = TypeError "ex is undefined" /\ points_json d = Some (PointsArray []) /\
       committed tagPoints tagNormals d d')
  end.
Proof.
  rewrite main_eq.
  destruct (points_json d) as [[points|]|] eqn:Hp,
           (historical_weather_json d) as [root|] eqn:Hr;
    try (intros [= <- <-]; now left).
  destruct (validate points root) as [[[ups root'] w]|e] eqn:Hv;
    [| intros [= <- <-]; now left].
  pose proof (commit_committed tagPoints tagNormals d points ups root root' w Hp Hr Hv)
    as Hc.
  destruct ups as [|ex ups]; intros [= <- <-]; [|exact Hc].
  right. split; [reflexivity|]. split; [|exact Hc].
  apply validate_inv in Hv as (m & _ & _ & _ & Hm & _).
  destruct points as [|p rest]; [reflexivity|]. cbn [migratePoints] in Hm.
  destruct (migratePoint ∅ p) as [[p' ma]|]; cbn [bind] in Hm; [|discriminate].
  destruct (migratePoints ma rest) as [[rest' mb]|]; cbn [bind] in Hm; discriminate.
Qed.

Lemma migration_atomic_witness :
  main Samples.noon Samples.noon Samples.twin_disk
  = (Throw (DuplicateId "points" "at-main-mi0010000"), Samples.twin_disk) /\
  (Samples.twin_disk = Samples.twin_disk \/
   (DuplicateId "points" "at-main-mi0010000" = TypeError "ex is undefined" /\
    points_json Samples.twin_disk = Some (PointsArray []) /\
    committed Samples.noon Samples.noon Samples.twin_disk Samples.twin_disk)).
Proof.
  split; [vm_compute; reflexivity|].
  apply (migration_atomic Samples.noon Samples.noon Samples.twin_disk Samples.twin_disk
           (Throw (DuplicateId "points" "at-main-mi0010000"))).
  vm_compute. reflexivity.
Defined.



End MigrateRunFacts.

(** ** [normalize-points-mile-only.js] *)

Module NormalizeFacts.
Import Js Store Migrate Normalize NormalizeRun.

(** X10.  Whenever [mileFromPoint] of the migration accepts a point,
    [normalizePoint] accepts it too and stores the same mile in [mile],
    without [mile_est]; and [mileFromPoint] of the normalized point is still
    that mile. *)
Theorem normalizePoint_agrees_with_mileFromPoint (pt : Point) (idx : nat) (v : num) :
  mileFromPoint pt = Ok v ->
  exists out,
    normalizePoint pt idx = Ok out /\ p_mile out = FNum v /\
    p_mile_est out = FAbsent /\ mileFromPoint out = Ok v.
Proof.
  unfold mileFromPoint, normalizePoint.
  destruct (present (p_mile pt)) eqn:Hp; cbn [andb].
  - destruct (Number_isFinite (Number_of (p_mile pt))) eqn:Hf; cbn [negb]; [|discriminate].
    intros [= <-]. rewrite Hf. cbn [negb]. eexists. split; [reflexivity|].
    cbn. rewrite Hf. repeat split.
  - destruct (Number_isFinite (Number_of (p_mile_est pt))) eqn:Hf; cbn [negb]; [|discriminate].
    intros [= <-]. eexists. split; [reflexivity|].
    cbn. rewrite Hf. repeat split.
Qed.

Lemma normalizePoint_agrees_with_mileFromPoint_witness :
  exists out,
    normalizePoint Samples.legacy_point 0 = Ok out /\ p_mile out = FNum (Fin 10) /\
    p_mile_est out = FAbsent /\ mileFromPoint out = Ok (Fin 10).
Proof.
  apply (normalizePoint_agrees_with_mileFromPoint Samples.legacy_point 0 (Fin 10)).
  reflexivity.
Defined.

Lemma normalizePoint_inv (pt out : Point) (idx : nat) :
  normalizePoint pt idx = Ok out ->
  mile_only out /\ same_but_mile pt out /\
  forall idx', normalizePoint out idx' = Ok out.
Proof.
  unfold normalizePoint.
  set (mile := if present (p_mile pt) && Number_isFinite (Number_of (p_mile pt))
               then Number_of (p_mile pt) else Number_of (p_mile_est pt)).
  destruct mile as [| | |q] eqn:Hm; cbn [Number_isFinite negb]; try discriminate.
  intros [= <-]. split; [split; [eexists|]; reflexivity|].
  split; [repeat split|]. intros idx'. reflexivity.
Qed.

(** X11.  [normalizePoint] is idempotent: its output has a finite number
    in [mile] and no [mile_est], differs from its input in those two
    properties only, and is returned unchanged by a second call, whatever the
    index. *)
Theorem normalizePoint_idempotent (pt out : Point) (idx idx' : nat) :
  normalizePoint pt idx = Ok out ->
  normalizePoint out idx' = Ok out /\ mile_only out /\ same_but_mile pt out.
Proof.
  intros H. apply normalizePoint_inv in H as (Hm & Hs & Hi). auto.
Qed.

Lemma normalizePoint_idempotent_witness :
  normalizePoint (mkPoint (Val "GA_0010_0") Absent (FNum (Fin 10)) FAbsent
                    (FNum (Fin (346 # 10))) (FNum (Fin (- 842 # 10))) (Val "GA")) 3
  = Ok (mkPoint (Val "GA_0010_0") Absent (FNum (Fin 10)) FAbsent
          (FNum (Fin (346 # 10))) (FNum (Fin (- 842 # 10))) (Val "GA")).
Proof.
  apply (normalizePoint_idempotent Samples.legacy_point _ 0 3). reflexivity.
Defined.

(** *** The run *)

Lemma normalizeFrom_inv (points : list Point) :
  forall (idx : nat) (outs : list Point),
    normalizeFrom idx points = Ok outs ->
    Forall2 (fun pt out => mile_only out /\ same_but_mile pt out) points outs /\
    forall idx', normalizeFrom idx' outs = Ok outs.
Proof.
  induction points as [|pt rest IH]; intros idx outs; cbn [normalizeFrom].
  - intros [= <-]. split; [constructor | reflexivity].
  - destruct (normalizePoint pt idx) as [out|e] eqn:Hp; cbn [bind]; [|discriminate].
    destruct (normalizeFrom (S idx) rest) as [outs'|e] eqn:Hr; cbn [bind]; [|discriminate].
    intros [= <-]. apply normalizePoint_inv in Hp as (Hm & Hs & Hi).
    destruct (IH _ _ Hr) as [HF Hagain].
    split; [constructor; auto|].
    intros idx'. cbn [normalizeFrom]. now rewrite Hi, Hagain.
Qed.

Lemma normalizeFrom_throw (points : list Point) :
  forall (idx : nat) (e : error),
    normalizeFrom idx points = Throw e ->
    exists (i : nat) (pt : Point),
      points !! i = Some pt /\ e = NoValidMile (idx + i) (p_id pt) /\
      normalizePoint pt (idx + i) = Throw e /\
      forall (j : nat) (q : Point), (j < i)%nat -> points !! j = Some q ->
                                    exists out, normalizePoint q (idx + j) = Ok out.
Proof.
  induction points as [|pt rest IH]; intros idx e; cbn [normalizeFrom]; [discriminate|].
  destruct (normalizePoint pt idx) as [out|e0] eqn:Hp; cbn [bind].
  - destruct (normalizeFrom (S idx) rest) as [outs'|e1] eqn:Hr; cbn [bind]; [discriminate|].
    intros [= <-]. destruct (IH _ _ Hr) as (i & q & Hi & He & Hq & Hbefore).
    exists (S i), q. replace (idx + S i)%nat with (S idx + i)%nat by lia.
    split; [exact Hi|]. split; [exact He|]. split; [exact Hq|].
    intros [|j] q' Hj Hq'; cbn in Hq'.
    + injection Hq' as <-. rewrite Nat.add_0_r. eauto.
    + replace (idx + S j)%nat with (S idx + j)%nat by lia.
      apply (Hbefore j q'); [lia | exact Hq'].
  - intros [= <-]. exists 0%nat, pt. rewrite Nat.add_0_r.
    split; [reflexivity|]. split.
    + unfold normalizePoint in Hp.
      destruct (negb (Number_isFinite _)); [now injection Hp as <- | discriminate].
    + split; [exact Hp|]. intros j q Hj. lia.
Qed.



Lemma select_rewritten (data : Data) (points outs : list Point) :
  select data = inr points ->
  select (rewritten data outs) = inr outs /\
  rewritten (rewritten data outs) outs = rewritten data outs.
Proof.
  destruct data as [?| |[|?|] ?]; cbn; try discriminate; intros _; split; reflexivity.
Qed.

(** X13.  A second run of [normalize-points-mile-only.js] after a run
    that completed, whenever it is made, completes too, logs the same number
    of records and writes back the file it read; it only copies that file
    under the backup name of its own time stamp, which is the name of the
    first run's copy when the two runs fall in the same second. *)
Theorem normalize_run_idempotent (tag tag' : string) (d d' : Dir) (n : nat) :
  main tag d = (Completed n, d') ->
  exists d'' data,
    main tag' d' = (Completed n, d'') /\ file d' = Some data /\
    file d'' = Some data /\
    copies d'' = <[ backupPath POINTS_PATH tag' := data ]> (copies d').
Proof.
  unfold main. destruct (file d) as [data|] eqn:Hf; [|discriminate].
  destruct (select data) as [e|points] eqn:Hs.
  { intros [= -> _]. destruct data as [?| |[|?|] ?]; discriminate Hs. }
  destruct (normalizeFrom 0 points) as [outs|e] eqn:Hn; [|discriminate].
  intros [= <- <-]. cbn [file copies].
  destruct (select_rewritten data points outs Hs) as [-> Hr].
  destruct (normalizeFrom_inv _ _ _ Hn) as [_ ->].
  do 2 eexists. split; [reflexivity|]. cbn [file copies].
  split; [reflexivity|]. split; [now rewrite Hr | reflexivity].
Qed.

Lemma normalize_run_idempotent_witness :
  exists d'' data,
    main Samples.noon (snd (main Samples.noon NormalizeSamples.wrapped_dir))
    = (Completed 1, d'') /\
    file (snd (main Samples.noon NormalizeSamples.wrapped_dir)) = Some data /\
    file d'' = Some data /\
    copies d'' = <[ backupPath POINTS_PATH Samples.noon := data ]>
                   (copies (snd (main Samples.noon NormalizeSamples.wrapped_dir))).
Proof.
  apply (normalize_run_idempotent Samples.noon Samples.noon NormalizeSamples.wrapped_dir).
  reflexivity.
Defined.

(** Two runs in the same second leave one backup copy, and it is a copy of
    the file the second run read: the copy of the original file is gone. *)
Example normalize_same_second :
  let d1 := snd (main Samples.noon NormalizeSamples.wrapped_dir) in
  let d2 := snd (main Samples.noon d1) in
  size (copies d2) = 1%nat /\
  copies d2 !! backupPath POINTS_PATH Samples.noon = file d1 /\
  file d1 <> file NormalizeSamples.wrapped_dir.
Proof.
  cbv zeta. split; [vm_compute; reflexivity|]. split; [vm_compute; reflexivity|].
  vm_compute. discriminate.
Qed.

End NormalizeFacts.

(** ** [migrate-historical-ids-mixed.js]: the run *)

Module MixedRunFacts.
Import Js Store Fs MigrateMixed MixedRun.

(** *** The two maps *)

Lemma buildMaps_spec (points : list Point) :
  forall l n l' n' : gmap string string,
    buildMaps l n points = Ok (l', n') ->
    (forall k v, l' !! k = Some v ->
                 l !! k = Some v \/
                 exists p, p ∈ points /\ p_legacy_id p = Val k /\ k <> ""%string /\ v = pointId p) /\
    (forall k v, n' !! k = Some v ->
                 n !! k = Some v \/
                 exists p, p ∈ points /\ p_legacy_id p = Val v /\ v <> ""%string /\ k = pointId p).
Proof.
  induction points as [|p rest IH]; intros l n l' n'; cbn [buildMaps].
  - intros [= <- <-]. split; auto.
  - destruct (p_legacy_id p) as [| |legacy] eqn:Hl; try discriminate.
    destruct (String.eqb legacy "") eqn:E; [discriminate|].
    apply String.eqb_neq in E.
    intros H. destruct (IH _ _ _ _ H) as [H1 H2]. split.
    + intros k v Hk. destruct (H1 k v Hk) as [Hm|(q & Hq & ?)].
      * rewrite lookup_insert in Hm. case_decide as Hd; [|now left].
        injection Hm as <-. subst k. right. exists p.
        split; [apply elem_of_cons; now left|]. auto.
      * right. exists q. split; [apply elem_of_cons; now right | assumption].
    + intros k v Hk. destruct (H2 k v Hk) as [Hm|(q & Hq & ?)].
      * rewrite lookup_insert in Hm. case_decide as Hd; [|now left].
        injection Hm as <-. subst k. right. exists p.
        split; [apply elem_of_cons; now left|]. auto.
      * right. exists q. split; [apply elem_of_cons; now right | assumption].
Qed.

Lemma buildMaps_lookup (points : list Point) :
  forall l n l' n' : gmap string string,
    buildMaps l n points = Ok (l', n') ->
    (forall k, k ∉ map legacyOf points -> l' !! k = l !! k) /\
    (forall k, k ∉ map pointId points -> n' !! k = n !! k) /\
    (NoDup (map legacyOf points) ->
     forall p, p ∈ points -> l' !! legacyOf p = Some (pointId p)) /\
    (NoDup (map pointId points) ->
     forall p, p ∈ points -> n' !! pointId p = Some (legacyOf p)).
Proof.
  induction points as [|p rest IH]; intros l n l' n'; cbn [buildMaps].
  - intros [= <- <-]. repeat split; auto; intros _ p Hp; inversion Hp.
  - destruct (p_legacy_id p) as [| |legacy] eqn:Hl; try discriminate.
    destruct (String.eqb legacy ""); [discriminate|].
    intros H. destruct (IH _ _ _ _ H) as (K1 & K2 & L1 & L2).
    assert (Hleg : legacyOf p = legacy) by (unfold legacyOf; now rewrite Hl).
    cbn [map]. rewrite Hleg. fold (pointId p) in *.
    split; [|split; [|split]].
    + intros k Hk. apply not_elem_of_cons in Hk as [Hne Hk].
      rewrite (K1 k Hk). now apply lookup_insert_ne.
    + intros k Hk. apply not_elem_of_cons in Hk as [Hne Hk].
      rewrite (K2 k Hk). now apply lookup_insert_ne.
    + intros Hnd q Hq. apply NoDup_cons in Hnd as [Hnew Hnd].
      apply elem_of_cons in Hq as [->|Hq]; [| now apply L1].
      rewrite Hleg, (K1 legacy Hnew). apply lookup_insert_eq.
    + intros Hnd q Hq. apply NoDup_cons in Hnd as [Hnew Hnd].
      apply elem_of_cons in Hq as [->|Hq]; [| now apply L2].
      rewrite Hleg, (K2 (pointId p) Hnew). apply lookup_insert_eq.
Qed.

(** X14.  Over points whose legacy ids are all different and whose ids
    are all different, the two maps that [migrate-historical-ids-mixed.js]
    builds are inverse of each other, and each point is found in both:
    [legacyToNew] sends its [legacy_id] to its id and [newToLegacy] its id to
    its [legacy_id]. *)
Theorem buildMaps_inverse (points : list Point) (l n : gmap string string) :
  buildMaps ∅ ∅ points = Ok (l, n) ->
  NoDup (map legacyOf points) -> NoDup (map pointId points) ->
  (forall p, p ∈ points ->
             l !! legacyOf p = Some (pointId p) /\ n !! pointId p = Some (legacyOf p)) /\
  (forall k v, l !! k = Some v <-> n !! v = Some k).
Proof.
  intros H Hl Hn.
  destruct (buildMaps_lookup points _ _ _ _ H) as (_ & _ & L1 & L2).
  destruct (buildMaps_spec points _ _ _ _ H) as [S1 S2].
  split; [intros p Hp; split; [now apply L1 | now apply L2]|].
  intros k v. split; intros Hk.
  - destruct (S1 k v Hk) as [He|(p & Hp & Hleg & _ & ->)];
      [rewrite lookup_empty in He; discriminate|].
    rewrite (L2 Hn p Hp). unfold legacyOf. now rewrite Hleg.
  - destruct (S2 v k Hk) as [He|(p & Hp & Hleg & _ & ->)];
      [rewrite lookup_empty in He; discriminate|].
    replace k with (legacyOf p) by (unfold legacyOf; now rewrite Hleg).
    now apply L1.
Qed.

Lemma buildMaps_inverse_witness :
  (forall p, p ∈ [Samples.migrated_point; Samples.second_point] ->
             ({[ "GA_0010_0" := "at-main-mi0010000"; "GA_0020_0" := "at-main-mi0020000" ]}
                : gmap string string) !! legacyOf p = Some (pointId p) /\
             ({[ "at-main-mi0010000" := "GA_0010_0"; "at-main-mi0020000" := "GA_0020_0" ]}
                : gmap string string) !! pointId p = Some (legacyOf p)) /\
  (forall k v,
      ({[ "GA_0010_0" := "at-main-mi0010000"; "GA_0020_0" := "at-main-mi0020000" ]}
         : gmap string string) !! k = Some v <->
      ({[ "at-main-mi0010000" := "GA_0010_0"; "at-main-mi0020000" := "GA_0020_0" ]}
         : gmap string string) !! v = Some k).
Proof.
  apply (buildMaps_inverse [Samples.migrated_point; Samples.second_point]).
  - vm_compute. reflexivity.
  - apply NoDup_cons_2; [rewrite list_elem_of_singleton; discriminate | apply NoDup_singleton].
  - apply NoDup_cons_2; [rewrite list_elem_of_singleton; discriminate | apply NoDup_singleton].
Defined.

(** *** What a completed run wrote *)

Lemma mixed_main_ok_inv (tag : string) (d d' : Disk) (r : Report) :
  main tag d = (Ok r, d') ->
  exists points meta hp other l n results,
    points_json d = Some (PointsArray points) /\
    historical_weather_json d = Some (RootObject (mkNormalsObject meta (Some hp) other)) /\
    buildMaps ∅ ∅ points = Ok (l, n) /\
    mapM (normalizeRecord l n) hp = Ok results /\
    d' = mkDisk (points_json d)
           (Some (RootObject (mkNormalsObject
              (Some (MObject (<[ "id_migration_note"%string := MString migration_note ]>
                                (spread meta))))
              (Some (map (fun x => fst (fst x)) results)) other)))
           (<[ backupPath NORMALS_PATH tag
               := NormalsContent (RootObject (mkNormalsObject meta (Some hp) other)) ]>
              (backups d)) /\
    r = mkReport (length (map (fun x => fst (fst x)) results))
          (count (fun x => snd x) results)
          (count (fun x => snd (fst x)) results).
Proof.
  destruct d as [[[points|]|] [root|] bk];
    unfold main, mbind, requirePoints, requireNormals, readPoints, readNormals,
      lift, throw, ret; cbn [points_json historical_weather_json backups];
    try discriminate.
  destruct (buildMaps ∅ ∅ points) as [[l n]|e0] eqn:Hb;
    cbn [points_json historical_weather_json backups]; [|discriminate].
  destruct root as [arr|[meta [hp|] other]|]; try discriminate.
  destruct (mapM (normalizeRecord l n) hp) as [results|e0] eqn:Hr; [|discriminate].
  unfold backupNormals, writeNormals; cbn [points_json historical_weather_json backups].
  intros [= <- <-]. exists points, meta, hp, other, l, n, results.
  repeat split; assumption.
Qed.

Lemma normalizeRecord_inv (points : list Point) (l n : gmap string string)
    (rec rec' : NormalsRecord) (ch an : bool) :
  (forall k v, l !! k = Some v ->
               exists p, p ∈ points /\ p_legacy_id p = Val k /\ k <> ""%string /\ v = pointId p) ->
  normalizeRecord l n rec = Ok (rec', ch, an) ->
  normalized_record points rec rec' /\
  an = isNewId (recordId rec) /\
  (canonical_points points ->
   isNewId (recordId rec') = true /\ normalizeRecord l n rec' = Ok (rec', false, true)).
Proof.
  intros Hl. unfold normalizeRecord, normalized_record. fold (recordId rec).
  destruct (isNewId (recordId rec)) eqn:Hnew.
  - destruct (r_legacy_id rec) as [| |legacy] eqn:Hleg.
    1,2: destruct (n !! recordId rec) as [legacy|] eqn:Hn;
      [destruct (String.eqb legacy "") eqn:E|].
    all: intros [= <- <- <-]; cbn [r_hi r_lo r_legacy_id r_id];
      (split; [repeat split; try (intros ? [=]); try reflexivity; try congruence|]);
      (split; [reflexivity|]); intros _;
      unfold normalizeRecord, recordId; cbn [r_hi r_lo r_legacy_id r_id String_of_prop];
      fold (recordId rec); rewrite ?Hnew, ?Hleg, ?Hn, ?E; split; reflexivity.
  - destruct (l !! recordId rec) as [mapped|] eqn:Hm; [|discriminate].
    destruct (String.eqb mapped "") eqn:E; [discriminate|].
    intros [= <- <- <-]. cbn [r_hi r_lo r_legacy_id r_id].
    destruct (Hl _ _ Hm) as (p & Hp & Hpl & Hne & ->).
    split; [|split; [reflexivity|]].
    + split; [reflexivity|]. split; [reflexivity|].
      split; [intros x ->; reflexivity|]. exists p. auto.
    + intros Hcan. specialize (Hcan p Hp).
      unfold normalizeRecord, recordId. cbn [r_hi r_lo r_legacy_id r_id String_of_prop].
      rewrite Hcan. split; reflexivity.
Qed.

Lemma mapM_normalizeRecord_inv (points : list Point) (l n : gmap string string)
    (hp : list NormalsRecord) :
  (forall k v, l !! k = Some v ->
               exists p, p ∈ points /\ p_legacy_id p = Val k /\ k <> ""%string /\ v = pointId p) ->
  forall results,
    mapM (normalizeRecord l n) hp = Ok results ->
    Forall2 (normalized_record points) hp (map (fun x => fst (fst x)) results) /\
    count (fun x => snd x) results
    = length (filter (fun rec => isNewId (recordId rec) = true) hp) /\
    (canonical_points points ->
     Forall (fun rec' => isNewId (recordId rec') = true) (map (fun x => fst (fst x)) results) /\
     mapM (normalizeRecord l n) (map (fun x => fst (fst x)) results)
     = Ok (map (fun x => (fst (fst x), false, true)) results)).
Proof.
  intros Hl. induction hp as [|rec rest IH]; intros results; cbn [mapM].
  - intros [= <-]. cbn. split; [constructor|]. split; [reflexivity|].
    intros _. split; [constructor | reflexivity].
  - destruct (normalizeRecord l n rec) as [[[rec' ch] an]|e] eqn:Hrec; cbn [bind]; [|discriminate].
    destruct (mapM (normalizeRecord l n) rest) as [rest'|e]; cbn [bind]; [|discriminate].
    intros [= <-]. destruct (IH rest' eq_refl) as (HF & Hc & Hcan).
    destruct (normalizeRecord_inv points l n rec rec' ch an Hl Hrec) as (Hn & -> & Hagain).
    cbn [map fst snd]. split; [constructor; assumption|]. split.
    + unfold count in *. rewrite !filter_cons. cbn [snd].
      destruct (decide (isNewId (recordId rec) = true)); cbn [length]; now rewrite Hc.
    + intros Hcanon. destruct (Hagain Hcanon) as [Hnew Hrun].
      destruct (Hcan Hcanon) as [HFa Hruns].
      split; [constructor; assumption|].
      cbn [mapM]. rewrite Hrun. cbn [bind]. rewrite Hruns. reflexivity.
Qed.

Lemma buildMaps_values (points : list Point) (l n : gmap string string) :
  buildMaps ∅ ∅ points = Ok (l, n) ->
  forall k v, l !! k = Some v ->
              exists p, p ∈ points /\ p_legacy_id p = Val k /\ k <> ""%string /\ v = pointId p.
Proof.
  intros H k v Hk. destruct (buildMaps_spec points _ _ _ _ H) as [S1 _].
  destruct (S1 k v Hk) as [He|Hp]; [rewrite lookup_empty in He; discriminate | exact Hp].
Qed.



Lemma count_false {A} (f : A -> bool) (l : list A) :
  (forall x, x ∈ l -> f x = false) -> length (filter (fun x => f x = true) l) = 0%nat.
Proof.
  induction l as [|x l IH]; intros H; [reflexivity|].
  rewrite filter_cons_False.
  - apply IH. intros y Hy. apply H, elem_of_cons. now right.
  - rewrite (H x) by (apply elem_of_cons; now left). discriminate.
Qed.

Lemma count_true {A} (f : A -> bool) (l : list A) :
  (forall x, x ∈ l -> f x = true) -> length (filter (fun x => f x = true) l) = length l.
Proof.
  induction l as [|x l IH]; intros H; [reflexivity|].
  rewrite filter_cons_True by (apply H, elem_of_cons; now left).
  cbn [length]. f_equal. apply IH. intros y Hy. apply H, elem_of_cons. now right.
Qed.

(** X16.  Over points whose ids are all of the new scheme, a second run
    of [migrate-historical-ids-mixed.js] after a run that completed, whenever
    the two runs are made, completes too, writes back the normals file it
    read, and reports no record changed and every record as already new. *)
Theorem mixed_run_idempotent (tag tag' : string) (d d1 : Disk) (r : Report)
    (points : list Point) :
  points_json d = Some (PointsArray points) ->
  canonical_points points ->
  main tag d = (Ok r, d1) ->
  exists r' d2,
    main tag' d1 = (Ok r', d2) /\
    historical_weather_json d2 = historical_weather_json d1 /\
    points_json d2 = points_json d /\
    changed r' = 0%nat /\ alreadyNew r' = records r /\ records r' = records r.
Proof.
  intros Hp Hcanon H.
  apply mixed_main_ok_inv in H
    as (points0 & meta & hp & other & l & n & results & Hp0 & Hr0 & Hb & Hm & -> & ->).
  rewrite Hp in Hp0. injection Hp0 as <-.
  destruct (mapM_normalizeRecord_inv points l n hp (buildMaps_values points l n Hb) results Hm)
    as (_ & _ & Hcan).
  destruct (Hcan Hcanon) as [_ Hagain].
  unfold main, mbind, requirePoints, requireNormals, readPoints, readNormals,
    lift, throw, ret; cbn [points_json historical_weather_json backups].
  rewrite Hp. cbn [points_json historical_weather_json backups].
  rewrite Hb. cbn [points_json historical_weather_json backups].
  rewrite Hagain.
  unfold backupNormals, writeNormals; cbn [points_json historical_weather_json backups].
  do 2 eexists. split; [reflexivity|].
  cbn [points_json historical_weather_json changed alreadyNew records default].
  rewrite map_map. cbn [fst].
  split; [cbn [spread]; now rewrite insert_insert_eq|]. split; [reflexivity|].
  unfold count. split; [|split].
  - apply count_false. intros x Hx.
    apply list_elem_of_In, in_map_iff in Hx as (y & <- & _). reflexivity.
  - rewrite count_true, !length_map; [reflexivity|]. intros x Hx.
    apply list_elem_of_In, in_map_iff in Hx as (y & <- & _). reflexivity.
  - now rewrite !length_map.
Qed.

Lemma mixed_run_idempotent_witness :
  exists r' d2,
    main Samples.noon_01 (snd (main Samples.noon Samples.mixed_disk)) = (Ok r', d2) /\
    historical_weather_json d2
    = historical_weather_json (snd (main Samples.noon Samples.mixed_disk)) /\
    points_json d2 = points_json Samples.mixed_disk /\
    changed r' = 0%nat /\ alreadyNew r' = records (mkReport 2 1 2) /\
    records r' = records (mkReport 2 1 2).
Proof.
  apply (mixed_run_idempotent Samples.noon Samples.noon_01 Samples.mixed_disk
           (snd (main Samples.noon Samples.mixed_disk))
           (mkReport 2 1 2) [Samples.migrated_point]);
    [reflexivity | | vm_compute; reflexivity].
  intros p Hp. apply list_elem_of_singleton in Hp as ->. reflexivity.
Defined.

End MixedRunFacts.

(** ** [generate-missing-normals-at.js]: the run *)

Module AggregatorRunFacts.
Import Js Store Http Aggregator AggregatorFacts AggregatorRun.

Lemma steps_add (net : Network) (a b : nat) (s : State) :
  steps net (a + b) s = steps net b (steps net a s).
Proof. revert s. induction a as [|a IH]; intros s; cbn [Nat.add steps]; [reflexivity | apply IH]. Qed.

Lemma push_many_points (hist : Hist) (recs : list NormalsRecord) :
  h_points (fold_left push recs hist) = h_points hist ++ recs.
Proof.
  revert hist. induction recs as [|r recs IH]; intros hist; cbn [fold_left].
  - now rewrite app_nil_r.
  - rewrite IH. cbn [push h_points]. now rewrite <- app_assoc.
Qed.

Lemma push_many_array (hist : Hist) (recs : list NormalsRecord) :
  h_array (fold_left push recs hist) = h_array hist.
Proof.
  revert hist. induction recs as [|r recs IH]; intros hist; cbn [fold_left];
    [reflexivity | now rewrite IH].
Qed.

(** The loop over a queue whose requests are all answered. *)
Lemma steps_answered (net : Network) (queue : list Point) :
  forall (d : Disk) (hist : Hist) (processed first : nat),
    (forall k, (k < length (filter (fun p => has_coordinates p = true) queue))%nat ->
               exists dl, answers net (first + k) dl) ->
    let recs := appended net first queue in
    let hist' := fold_left push recs hist in
    steps net (length queue) (mkState Running d hist queue processed first)
    = mkState Running
        (match recs with [] => d | _ => writeHist hist' d end)
        hist' [] (processed + length recs) (first + length recs) /\
    length recs = length (filter (fun p => has_coordinates p = true) queue).
Proof.
  induction queue as [|p rest IH]; intros d hist processed first Hnet; cbn zeta.
  - cbn. now rewrite !Nat.add_0_r.
  - cbn [length steps appended]. unfold step at 1. cbn [st_status st_queue st_requests
      st_disk st_hist st_processed].
    rewrite filter_cons in Hnet. unfold has_coordinates in *.
    destruct (Number_isFinite (Number_of (p_lat p))) eqn:Hlat;
      [destruct (Number_isFinite (Number_of (p_lon p))) eqn:Hlon|]; cbn [andb negb orb] in *.
    2,3: (destruct (decide (false = true)) as [?|_]; [discriminate|]);
      rewrite filter_cons, ?Hlat, ?Hlon; cbn [andb];
      (destruct (decide (false = true)) as [?|_]; [discriminate|]);
      apply IH; exact Hnet.
    destruct (decide (true = true)) as [_|?]; [|contradiction].
    cbn [length] in Hnet.
    destruct (Hnet 0%nat ltac:(lia)) as (dl & Hok & Hd & Hlen).
    rewrite Nat.add_0_r in Hok, Hd.
    unfold fetchDailyMaxMin. rewrite Hok, Hd. cbn [negb bind].
    destruct (Nat.eqb_spec (time_length dl) 0) as [E|_]; [contradiction|].
    rewrite filter_cons, Hlat, Hlon. cbn [andb].
    destruct (decide (true = true)) as [_|?]; [|contradiction].
    destruct (IH (writeHist (push hist (newRecord p dl)) d) (push hist (newRecord p dl))
                (S processed) (S first)) as [Hrun Hcount].
    { intros k Hk. replace (S first + k)%nat with (first + S k)%nat by lia.
      apply Hnet. lia. }
    rewrite Hrun. cbn [fold_left length]. split; [|now rewrite Hcount].
    f_equal; try lia.
    destruct (appended net (S first) rest); reflexivity.
Qed.



(** *** A normals file whose root is an array *)

Lemma step_array_root (net : Network) (s : State) (arr : list NormalsRecord) :
  h_array (st_hist s) = Some arr ->
  historical_weather_json (st_disk s) = Some (RootArray arr) ->
  h_array (st_hist (step net s)) = Some arr /\
  historical_weather_json (st_disk (step net s)) = Some (RootArray arr).
Proof.
  intros Ha Hd. unfold step.
  destruct (st_status s); [| auto | auto].
  destruct (st_queue s) as [|p rest]; [cbn [st_hist st_disk]; auto|].
  destruct (negb _ || negb _); [cbn [st_hist st_disk]; auto|].
  destruct (fetchDailyMaxMin net (st_requests s)) as [[dl|]|e]; cbn [bind];
    [| cbn [st_hist st_disk]; auto | cbn [st_hist st_disk]; auto].
  destruct (time_length dl =? 0)%nat; [cbn [st_hist st_disk]; auto|].
  cbn [st_hist st_disk push h_array writeHist historical_weather_json].
  unfold serialize. cbn [push h_array]. rewrite Ha. auto.
Qed.



End AggregatorRunFacts.


(** ** [generate-missing-normals-at.js]: the averages *)

Module AveragesFacts.
Import Js Store Extremes Calendar CalendarFacts Averages.

(** *** The map [acc] *)

Lemma get_upsert (key k : Z * Z) (f : Bucket -> Bucket) (acc : Acc) :
  get k (upsert key f acc)
  = if decide (key = k) then Some (f (default emptyBucket (get key acc))) else get k acc.
Proof.
  induction acc as [|[k0 b0] rest IH]; cbn [upsert get].
  - destruct (decide (key = k)); reflexivity.
  - destruct (decide (k0 = key)) as [->|Hne]; cbn [get].
    + destruct (decide (key = k)); reflexivity.
    + destruct (decide (k0 = k)) as [->|Hne'].
      * destruct (decide (key = k)); [congruence | reflexivity].
      * exact IH.
Qed.

Lemma keys_upsert (key : Z * Z) (f : Bucket -> Bucket) (acc : Acc) :
  map fst (upsert key f acc)
  = if decide (key ∈ map fst acc) then map fst acc else map fst acc ++ [key].
Proof.
  induction acc as [|[k0 b0] rest IH]; cbn [upsert map fst].
  - destruct (decide (key ∈ [])) as [H|_]; [inversion H | reflexivity].
  - destruct (decide (k0 = key)) as [->|Hne]; cbn [map fst].
    + destruct (decide (key ∈ key :: map fst rest)) as [_|H]; [reflexivity|].
      exfalso. apply H, elem_of_cons. now left.
    + rewrite IH. destruct (decide (key ∈ map fst rest)) as [Hin|Hnin].
      * destruct (decide (key ∈ k0 :: map fst rest)) as [_|H]; [reflexivity|].
        exfalso. apply H, elem_of_cons. now right.
      * destruct (decide (key ∈ k0 :: map fst rest)) as [H|_]; [|reflexivity].
        apply elem_of_cons in H as [->|H]; contradiction.
Qed.

Lemma observe_grown (b : Bucket) (hi lo : slot) :
  observe b hi lo = grown b (finite_part hi) (finite_part lo).
Proof.
  destruct b as [s1 n1 s2 n2]. unfold observe, grown.
  destruct hi as [[| | |h]|], lo as [[| | |l]|];
    cbn [finite_part fold_left length maxSum maxN minSum minN];
    rewrite ?Nat.add_0_r, ?Nat.add_1_r; reflexivity.
Qed.

Lemma grown_grown (b : Bucket) (h1 l1 h2 l2 : list num) :
  grown (grown b h1 l1) h2 l2 = grown b (h1 ++ h2) (l1 ++ l2).
Proof.
  unfold grown. cbn [maxSum maxN minSum minN].
  rewrite !fold_left_app, !length_app, !Nat.add_assoc. reflexivity.
Qed.

Lemma day_values_cons (key : Z * Z) (iso : IsoDate) (times : list IsoDate) (vals : list slot) :
  day_values key (iso :: times) vals
  = (if decide (mmdd iso = key) then finite_part (first vals) else [])
    ++ day_values key times (tail vals).
Proof.
  cbn [day_values]. destruct (decide (mmdd iso = key)); [|reflexivity].
  destruct (first vals) as [[| | |q]|]; reflexivity.
Qed.

Lemma isFeb29_mmdd (iso : IsoDate) : isFeb29 iso = true <-> mmdd iso = (2, 29).
Proof.
  unfold isFeb29, mmdd. rewrite andb_true_iff, !Z.eqb_eq.
  split; [intros [-> ->]; reflexivity | intros [= -> ->]; auto].
Qed.

Lemma accumulate_get (key : Z * Z) (times : list IsoDate) :
  key <> (2, 29) ->
  forall (tmax tmin : list slot) (acc : Acc),
    get key (accumulate times tmax tmin acc)
    = match get key acc with
      | Some b => Some (grown b (day_values key times tmax) (day_values key times tmin))
      | None =>
          if occurs key times
          then Some (grown emptyBucket (day_values key times tmax) (day_values key times tmin))
          else None
      end.
Proof.
  intros Hkey. induction times as [|iso times IH]; intros tmax tmin acc.
  - cbn [accumulate day_values occurs existsb]. destruct (get key acc) as [[s1 n1 s2 n2]|]; [|reflexivity].
    unfold grown. cbn. now rewrite !Nat.add_0_r.
  - cbn [accumulate]. rewrite IH, !day_values_cons. unfold occurs. cbn [existsb].
    fold (occurs key times).
    destruct (isFeb29 iso) eqn:Hfeb.
    + apply isFeb29_mmdd in Hfeb.
      destruct (decide (mmdd iso = key)) as [E|_]; [congruence|].
      rewrite bool_decide_eq_false_2 by congruence. reflexivity.
    + rewrite get_upsert. destruct (decide (mmdd iso = key)) as [E|Hne].
      * rewrite bool_decide_eq_true_2 by exact E. cbn [orb]. rewrite E.
        rewrite observe_grown, grown_grown.
        destruct (get key acc); reflexivity.
      * rewrite bool_decide_eq_false_2 by exact Hne. reflexivity.
Qed.

Lemma accumulate_keys (times : list IsoDate) :
  forall (tmax tmin : list slot) (acc : Acc),
    (NoDup (map fst acc) -> NoDup (map fst (accumulate times tmax tmin acc))) /\
    (forall k, k ∈ map fst (accumulate times tmax tmin acc) ->
               k ∈ map fst acc \/ exists iso, iso ∈ times /\ isFeb29 iso = false /\ mmdd iso = k).
Proof.
  induction times as [|iso times IH]; intros tmax tmin acc; cbn [accumulate].
  - split; auto.
  - destruct (isFeb29 iso) eqn:Hfeb.
    + destruct (IH (tail tmax) (tail tmin) acc) as [Hnd Hk]. split; [exact Hnd|].
      intros k Hin. destruct (Hk k Hin) as [?|(i & Hi & ? & ?)]; [now left|].
      right. exists i. split; [apply elem_of_cons; now right | auto].
    + set (acc' := upsert _ _ acc).
      destruct (IH (tail tmax) (tail tmin) acc') as [Hnd Hk].
      assert (Hkeys := keys_upsert (mmdd iso)
                         (fun b => observe b (first tmax) (first tmin)) acc).
      fold acc' in Hkeys. split.
      * intros Hacc. apply Hnd. rewrite Hkeys.
        destruct (decide (mmdd iso ∈ map fst acc)) as [_|Hnin]; [exact Hacc|].
        apply NoDup_app. split; [exact Hacc|]. split; [|apply NoDup_singleton].
        intros x Hx Hx'. apply list_elem_of_singleton in Hx'. now subst x.
      * intros k Hin. destruct (Hk k Hin) as [Hin'|(i & Hi & ? & ?)].
        -- rewrite Hkeys in Hin'.
           destruct (decide (mmdd iso ∈ map fst acc)) as [_|_]; [now left|].
           apply elem_of_app in Hin' as [?|Hs]; [now left|].
           apply list_elem_of_singleton in Hs. right. exists iso.
           split; [apply elem_of_cons; now left | auto].
        -- right. exists i. split; [apply elem_of_cons; now right | auto].
Qed.

(** *** The two profiles *)

Lemma fill_length (acc : Acc) (hi0 lo0 : list slot) :
  length (fst (fold_left fill acc (hi0, lo0))) = length hi0 /\
  length (snd (fold_left fill acc (hi0, lo0))) = length lo0.
Proof.
  revert hi0 lo0. induction acc as [|e acc IH]; intros hi0 lo0; cbn [fold_left]; [auto|].
  unfold fill at 2 4. destruct ((_ <? 0) || (364 <? _)); [apply IH|].
  cbn [fst snd]. destruct (IH (<[Z.to_nat (dayIndexFromMMDD (fst e)) :=
                                   average (maxSum (snd e)) (maxN (snd e))]> hi0)
                              (<[Z.to_nat (dayIndexFromMMDD (fst e)) :=
                                   average (minSum (snd e)) (minN (snd e))]> lo0)) as [H1 H2].
  rewrite H1, H2, !length_insert. auto.
Qed.

Lemma fill_lookup (acc : Acc) :
  NoDup (map fst acc) ->
  (forall k, k ∈ map fst acc -> calendar_day k = true) ->
  forall (hi0 lo0 : list slot) (key : Z * Z),
    length hi0 = 365%nat -> length lo0 = 365%nat ->
    calendar_day key = true ->
    let i := Z.to_nat (dayIndexFromMMDD key) in
    fst (fold_left fill acc (hi0, lo0)) !! i
    = match get key acc with
      | Some b => Some (average (maxSum b) (maxN b))
      | None => hi0 !! i
      end /\
    snd (fold_left fill acc (hi0, lo0)) !! i
    = match get key acc with
      | Some b => Some (average (minSum b) (minN b))
      | None => lo0 !! i
      end.
Proof.
  induction acc as [|[k b] acc IH]; intros Hnd Hcal hi0 lo0 key Hhi Hlo Hkey; cbv zeta.
  - cbn. auto.
  - cbn [map fst] in Hnd, Hcal. apply NoDup_cons in Hnd as [Hk Hnd].
    assert (Hkcal : calendar_day k = true) by (apply Hcal, elem_of_cons; now left).
    assert (Hrest : forall k', k' ∈ map fst acc -> calendar_day k' = true)
      by (intros k' Hk'; apply Hcal, elem_of_cons; now right).
    destruct k as [m d], key as [m' d'].
    pose proof (proj2 (dayIndex_calendar_day m d Hkcal)) as Ei.
    pose proof (proj2 (dayIndex_calendar_day m' d' Hkey)) as Ei'.
    pose proof (days_before_month_bounds m d Hkcal) as Hb.
    pose proof (days_before_month_bounds m' d' Hkey) as Hb'.
    cbn [fold_left]. unfold fill at 2 4. cbn [fst snd]. rewrite Ei.
    destruct (Z.ltb_spec (days_before_month m + d - 1) 0) as [?|_]; [lia|].
    destruct (Z.ltb_spec 364 (days_before_month m + d - 1)) as [?|_]; [lia|].
    cbn [orb].
    specialize (IH Hnd Hrest
                  (<[Z.to_nat (days_before_month m + d - 1) := average (maxSum b) (maxN b)]> hi0)
                  (<[Z.to_nat (days_before_month m + d - 1) := average (minSum b) (minN b)]> lo0)
                  (m', d')).
    rewrite !length_insert in IH. specialize (IH Hhi Hlo Hkey). cbv zeta in IH.
    rewrite Ei' in *. destruct IH as [IH1 IH2]. rewrite IH1, IH2. cbn [get].
    destruct (decide ((m, d) = (m', d'))) as [E|Hne].
    + injection E as <- <-.
      assert (Hnone : get (m, d) acc = None).
      { clear -Hk. induction acc as [|[k0 b0] acc IH]; [reflexivity|]. cbn [get].
        cbn [map fst] in Hk. apply not_elem_of_cons in Hk as [Hne Hk].
        destruct (decide (k0 = (m, d))); [congruence | now apply IH]. }
      rewrite Hnone, !list_lookup_insert_eq by lia. auto.
    + destruct (get (m', d') acc); [auto|].
      rewrite !list_lookup_insert_ne; [auto | |];
        intros E; apply Z2Nat.inj in E; try lia;
        apply Hne, days_before_month_inj; try assumption; lia.
Qed.

Lemma countFinite_le (arr : list slot) : (countFinite arr <= length arr)%nat.
Proof. unfold countFinite. apply length_filter. Qed.

(** X20.  Whatever the daily series holds, the two profiles that
    [compute365AveragesFromDaily] returns have exactly 365 slots and the two
    counts of finite slots are at most 365; for a series without dates every
    slot is [null]. *)
Theorem compute365_shape (daily : RawDaily) :
  let s := compute365AveragesFromDaily daily in
  length (hi365 s) = 365%nat /\ length (lo365 s) = 365%nat /\
  (hiCount s <= 365)%nat /\ (loCount s <= 365)%nat /\
  (time daily = [] -> hi365 s = repeat None 365 /\ lo365 s = repeat None 365).
Proof.
  cbv zeta. unfold compute365AveragesFromDaily. cbn [hi365 lo365 hiCount loCount].
  match goal with
  | |- context [fold_left fill ?acc _] =>
      destruct (fill_length acc buildEmpty365 buildEmpty365) as [H1 H2]
  end.
  change (length buildEmpty365) with 365%nat in H1, H2.
  split; [exact H1|]. split; [exact H2|].
  split; [rewrite <- H1; apply countFinite_le|].
  split; [rewrite <- H2; apply countFinite_le|].
  intros ->. split; reflexivity.
Qed.

Lemma lookup_repeat {A} (x : A) (n i : nat) : (i < n)%nat -> repeat x n !! i = Some x.
Proof.
  revert i. induction n as [|n IH]; intros i Hi; [lia|].
  destruct i as [|i]; [reflexivity|]. cbn. apply IH. lia.
Qed.

Lemma occurs_false (key : Z * Z) (times : list IsoDate) (vals : list slot) :
  occurs key times = false -> day_values key times vals = [].
Proof.
  revert vals. induction times as [|iso times IH]; intros vals; [reflexivity|].
  unfold occurs. cbn [existsb]. rewrite orb_false_iff. intros [Hne Hrest].
  rewrite day_values_cons. apply bool_decide_eq_false in Hne.
  destruct (decide (mmdd iso = key)); [contradiction|]. now apply IH.
Qed.

Lemma average_mean (xs : list num) :
  average (fold_left add xs (Fin 0)) (length xs) = mean xs.
Proof. destruct xs; reflexivity. Qed.

(** X21.  Over a series of calendar dates, the slot that the planner
    reads for a day of the year holds the mean of the finite highs (lows) of
    the dates that fall on that day, summed in the order of the series, and
    [null] when there is none.  A slot never mixes the values of two days,
    and the values of February 29 enter none. *)
Theorem compute365_mean (daily : RawDaily) (m d : Z) :
  Forall calendar_date (time daily) ->
  calendar_day (m, d) = true ->
  let s := compute365AveragesFromDaily daily in
  let i := Z.to_nat (dayIndexInNonLeapYearFromMonthDay (m, d)) in
  hi365 s !! i = Some (mean (day_values (m, d) (time daily) (temperature_2m_max daily))) /\
  lo365 s !! i = Some (mean (day_values (m, d) (time daily) (temperature_2m_min daily))).
Proof.
  intros Hdates Hday. cbv zeta.
  rewrite (proj1 (dayIndex_calendar_day m d Hday)),
          <- (proj2 (dayIndex_calendar_day m d Hday)).
  unfold compute365AveragesFromDaily. cbn [hi365 lo365].
  set (acc := accumulate (time daily) (temperature_2m_max daily)
                (temperature_2m_min daily) []).
  destruct (accumulate_keys (time daily) (temperature_2m_max daily)
              (temperature_2m_min daily) []) as [Hnd Hkeys].
  fold acc in Hnd, Hkeys.
  assert (Hcal : forall k, k ∈ map fst acc -> calendar_day k = true).
  { intros k Hk. destruct (Hkeys k Hk) as [Hin|(iso & Hiso & Hfeb & <-)]; [inversion Hin|].
    rewrite Forall_forall in Hdates. destruct (Hdates iso Hiso) as [H|H]; [exact H|].
    apply isFeb29_mmdd in H. congruence. }
  assert (Hkey : (m, d) <> (2, 29)).
  { intros [= -> ->]. discriminate Hday. }
  destruct (fill_lookup acc (Hnd (NoDup_nil_2)) Hcal buildEmpty365 buildEmpty365 (m, d)
              eq_refl eq_refl Hday) as [H1 H2].
  cbv zeta in H1, H2. rewrite H1, H2. unfold acc.
  rewrite (accumulate_get (m, d) (time daily) Hkey). cbn [get].
  pose proof (days_before_month_bounds m d Hday) as Hb.
  rewrite (proj2 (dayIndex_calendar_day m d Hday)).
  destruct (occurs (m, d) (time daily)) eqn:Hocc.
  - unfold grown. cbn [maxSum maxN minSum minN emptyBucket Nat.add].
    rewrite !average_mean. auto.
  - rewrite !occurs_false by exact Hocc. cbn [mean].
    unfold buildEmpty365.
    rewrite lookup_repeat by lia. auto.
Qed.

Lemma compute365_mean_witness :
  let s := compute365AveragesFromDaily AveragesSamples.leap_series in
  let i := Z.to_nat (dayIndexInNonLeapYearFromMonthDay (3, 1)) in
  hi365 s !! i
  = Some (mean (day_values (3, 1) (time AveragesSamples.leap_series)
                  (temperature_2m_max AveragesSamples.leap_series))) /\
  lo365 s !! i
  = Some (mean (day_values (3, 1) (time AveragesSamples.leap_series)
                  (temperature_2m_min AveragesSamples.leap_series))).
Proof.
  apply (compute365_mean AveragesSamples.leap_series 3 1); [| reflexivity].
  repeat constructor; first [left; reflexivity | right; reflexivity].
Defined.

(** March 1 gets the mean of the two March 1 highs, 55; the high of
    February 29 is left out. *)
Example leap_series_march_1 :
  hi365 (compute365AveragesFromDaily AveragesSamples.leap_series) !! 59%nat
  = Some (Some (Fin 55)) /\
  lo365 (compute365AveragesFromDaily AveragesSamples.leap_series) !! 59%nat
  = Some (Some (Fin 30)) /\
  hiCount (compute365AveragesFromDaily AveragesSamples.leap_series) = 1%nat.
Proof. vm_compute. repeat split. Qed.

End AveragesFacts.

(** ** [js/app.js]: loading the points and the normals *)

Module LoaderFacts.
Import Js RoundFacts JsFacts Store PointIndex PointIndexFacts Loader.

(** *** The sort *)

(** Over binary64 numbers the sign of the difference that the comparator
    computes is the sign of the exact difference. *)
Lemma after_spec (a b : Point) :
  mile_est a = Fin (mileQ a) -> mile_est b = Fin (mileQ b) ->
  binary64 (mileQ a) -> binary64 (mileQ b) ->
  after a b = true <-> (mileQ b < mileQ a)%Q.
Proof.
  intros Ha Hb Ba Bb. unfold after, gt, sub. rewrite Ha, Hb. cbn [neg add].
  pose proof OVERFLOW_pos as HO.
  destruct (fl_cases (mileQ a + - mileQ b)) as [[-> H]|[[-> H]|[-> H]]].
  - cbn [lt]. split; [intros _; lra | reflexivity].
  - cbn [lt]. split; [discriminate | intros; lra].
  - rewrite lt_Fin. split.
    + intros Hpos. destruct (Qlt_le_dec (mileQ b) (mileQ a)) as [Hlt|Hle]; [exact Hlt|].
      exfalso.
      assert (Hneg : (mileQ a + - mileQ b <= 0)%Q) by lra.
      apply round64_mono in Hneg. rewrite (round64_zero 0) in Hneg by reflexivity. lra.
    + intros Hlt. pose proof (round64_sub_pos _ _ Ba Bb Hlt) as Hpos. exact Hpos.
Qed.

Lemma insert_by_mile_perm (p : Point) (l : list Point) :
  insert_by_mile p l ≡ₚ p :: l.
Proof.
  induction l as [|q l IH]; cbn [insert_by_mile]; [reflexivity|].
  destruct (after p q); [|reflexivity].
  rewrite IH. apply Permutation_swap.
Qed.

Lemma sort_by_mile_perm (l : list Point) : sort_by_mile l ≡ₚ l.
Proof.
  induction l as [|p l IH]; [reflexivity|].
  unfold sort_by_mile. cbn [foldr]. fold (sort_by_mile l).
  rewrite insert_by_mile_perm. now rewrite IH.
Qed.

Lemma insert_by_mile_ascending (p : Point) (l : list Point) :
  mile_est p = Fin (mileQ p) -> binary64 (mileQ p) ->
  finite_miles l -> binary64_miles l ->
  ascending l -> ascending (insert_by_mile p l).
Proof.
  intros Hp Bp Hl Bl Hs. induction l as [|q l IH]; cbn [insert_by_mile].
  - repeat constructor.
  - assert (Hq : mile_est q = Fin (mileQ q)) by (apply Hl, elem_of_cons; now left).
    assert (Bq : binary64 (mileQ q)) by (apply Bl, elem_of_cons; now left).
    assert (Hl' : finite_miles l) by (intros x Hx; apply Hl, elem_of_cons; now right).
    assert (Bl' : binary64_miles l) by (intros x Hx; apply Bl, elem_of_cons; now right).
    apply StronglySorted_inv in Hs as [Hs Hall].
    destruct (after p q) eqn:E.
    + apply after_spec in E; [|assumption..].
      constructor; [now apply IH|].
      rewrite insert_by_mile_perm. constructor; [lra | exact Hall].
    + assert (Hle : (mileQ p <= mileQ q)%Q).
      { destruct (Qlt_le_dec (mileQ q) (mileQ p)) as [Hlt|Hle]; [|exact Hle].
        apply (after_spec p q Hp Hq Bp Bq) in Hlt. congruence. }
      constructor; [constructor; assumption|].
      constructor; [exact Hle|].
      eapply Forall_impl; [exact Hall|]. cbn. intros x Hx. lra.
Qed.

Lemma sort_by_mile_ascending (l : list Point) :
  finite_miles l -> binary64_miles l -> ascending (sort_by_mile l).
Proof.
  induction l as [|p l IH]; intros Hl Bl; [constructor|].
  unfold sort_by_mile. cbn [foldr]. fold (sort_by_mile l).
  assert (Hl' : finite_miles l) by (intros x Hx; apply Hl, elem_of_cons; now right).
  assert (Bl' : binary64_miles l) by (intros x Hx; apply Bl, elem_of_cons; now right).
  apply insert_by_mile_ascending.
  - apply Hl, elem_of_cons. now left.
  - apply Bl, elem_of_cons. now left.
  - intros x Hx. apply Hl'. now rewrite <- (sort_by_mile_perm l).
  - intros x Hx. apply Bl'. now rewrite <- (sort_by_mile_perm l).
  - now apply IH.
Qed.

Lemma ascending_sorted_by_mile (l : list Point) : ascending l -> sorted_by_mile l.
Proof.
  intros Hs. induction Hs as [|p l Hs IH Hall]; intros i j a b Hij Hi Hj.
  - inversion Hi.
  - destruct i as [|i], j as [|j]; cbn in Hi, Hj; try lia.
    + injection Hi as <-. injection Hj as <-. apply Qle_refl.
    + injection Hi as <-. rewrite Forall_forall in Hall.
      apply Hall. apply list_elem_of_lookup. eauto.
    + apply (IH i j a b); [lia | assumption..].
Qed.

(** *** The index that [loadPoints] builds *)

Lemma usable_finite (p : Point) : usable p = true -> mile_est p = Fin (mileQ p).
Proof.
  unfold usable, mileQ. rewrite !andb_true_iff. intros [[[_ H] _] _].
  destruct (mile_est p); try discriminate. reflexivity.
Qed.

Section Loading.

Variable toUpperCase : string -> string.
Variable Number_toString : num -> string.

Lemma allPoints_usable (data : list Store.Point) (p : Point) :
  p ∈ allPoints (loadPoints toUpperCase Number_toString data) -> usable p = true.
Proof.
  unfold loadPoints. cbn [allPoints]. intros H.
  apply list_elem_of_filter in H. tauto.
Qed.

Lemma length_allPoints (data : list Store.Point) :
  (length (allPoints (loadPoints toUpperCase Number_toString data)) <= length data)%nat.
Proof.
  unfold loadPoints. cbn [allPoints].
  etransitivity; [apply length_filter|]. now rewrite length_map.
Qed.

Lemma allPoints_binary64 (data : list Store.Point) :
  (forall p, p ∈ data -> parsed (p_mile_est p)) ->
  binary64_miles (allPoints (loadPoints toUpperCase Number_toString data)).
Proof.
  intros Hdata q Hq. unfold loadPoints in Hq. cbn [allPoints] in Hq.
  apply list_elem_of_filter in Hq as [_ Hq].
  apply list_elem_of_fmap in Hq as (p & -> & Hp).
  specialize (Hdata p Hp). unfold convert, mileQ. cbn [mile_est].
  destruct (p_mile_est p) as [| | |[| | |x]]; cbn [Number_of parsed] in *;
    first [exact Hdata | unfold binary64; now rewrite round64_zero].
Qed.

(** X22.  Whatever a parsed [points.json] holds, the index that
    [loadPoints] builds is well formed: [allPointsSortedByMile] is a
    rearrangement of [allPoints], every mile in it is finite, the miles are in
    ascending order, and every point has a state and finite coordinates.  So,
    for a file of at most 2^30 points, the nearest-point lookup over that
    index returns a nearest point for every finite mile (nearest as the
    lookup computes distances, in binary64), and [null] when no point was
    loaded. *)
Theorem loadPoints_index (data : list Store.Point) :
  (forall p, p ∈ data -> parsed (p_mile_est p)) ->
  let L := loadPoints toUpperCase Number_toString data in
  allPointsSortedByMile L ≡ₚ allPoints L /\
  finite_miles (allPointsSortedByMile L) /\
  sorted_by_mile (allPointsSortedByMile L) /\
  (forall p, p ∈ allPointsSortedByMile L ->
             state p <> ""%string /\
             Number_isFinite (lat p) = true /\ Number_isFinite (lon p) = true) /\
  (Z.of_nat (length data) <= 2 ^ 30 ->
   forall t : Q,
     match allPoints L with
     | [] => getNearestPointByMile (allPointsSortedByMile L) (Fin t) = Returns None
     | _ :: _ =>
         exists p, getNearestPointByMile (allPointsSortedByMile L) (Fin t)
                   = Returns (Some p) /\
                   nearest (allPointsSortedByMile L) t p
     end).
Proof.
  intros Hdata. cbv zeta.
  assert (Hsorted : allPointsSortedByMile (loadPoints toUpperCase Number_toString data) = sort_by_mile (allPoints (loadPoints toUpperCase Number_toString data)))
    by reflexivity.
  pose proof (sort_by_mile_perm (allPoints (loadPoints toUpperCase Number_toString data))) as Hperm.
  assert (Hfin : finite_miles (allPoints (loadPoints toUpperCase Number_toString data))).
  { intros p Hp. apply usable_finite. eapply allPoints_usable. exact Hp. }
  pose proof (allPoints_binary64 data Hdata) as Hbin.
  assert (Hfin' : finite_miles (allPointsSortedByMile (loadPoints toUpperCase Number_toString data))).
  { intros p Hp. apply Hfin. rewrite Hsorted in Hp. now rewrite <- Hperm. }
  assert (Hasc : sorted_by_mile (allPointsSortedByMile (loadPoints toUpperCase Number_toString data))).
  { rewrite Hsorted. now apply ascending_sorted_by_mile, sort_by_mile_ascending. }
  split; [rewrite Hsorted; exact Hperm|]. split; [exact Hfin'|]. split; [exact Hasc|].
  split.
  - intros p Hp. rewrite Hsorted, Hperm in Hp. apply allPoints_usable in Hp.
    unfold usable in Hp. rewrite !andb_true_iff, negb_true_iff in Hp.
    destruct Hp as [[[Hs _] Hlat] Hlon]. split; [|auto].
    intros E. rewrite E in Hs. discriminate.
  - intros Hsize t.
    assert (Hlen : Z.of_nat (length (allPointsSortedByMile (loadPoints toUpperCase Number_toString data))) <= 2 ^ 30).
    { rewrite Hsorted, Hperm. pose proof (length_allPoints data). lia. }
    destruct (allPoints (loadPoints toUpperCase Number_toString data)) as [|p0 rest] eqn:Hall.
    + rewrite Hsorted. reflexivity.
    + apply (getNearestPointByMile_nearest _ t Hfin' Hasc Hlen).
      intros E. rewrite Hsorted in E.
      apply (f_equal length) in E. rewrite Hperm in E. discriminate.
Qed.

(** *** The extent of the trail *)

Lemma fold_max (l : list Point) :
  finite_miles l ->
  forall hi : Point,
    mile_est hi = Fin (mileQ hi) ->
    exists hi', (hi' = hi \/ hi' ∈ l) /\
                fold_left (fun mx p => Math_max mx (mile_est p)) l (mile_est hi)
                = mile_est hi' /\
                (mileQ hi <= mileQ hi')%Q /\
                forall p, p ∈ l -> (mileQ p <= mileQ hi')%Q.
Proof.
  induction l as [|q l IH]; intros Hl hi Hhi; cbn [fold_left].
  - exists hi. split; [now left|]. split; [reflexivity|]. split; [apply Qle_refl|].
    intros p Hp. inversion Hp.
  - assert (Hq : mile_est q = Fin (mileQ q)) by (apply Hl, elem_of_cons; now left).
    assert (Hl' : finite_miles l) by (intros x Hx; apply Hl, elem_of_cons; now right).
    assert (Hstep : exists c, (c = hi \/ c = q) /\
                              Math_max (mile_est hi) (mile_est q) = mile_est c /\
                              (mileQ hi <= mileQ c)%Q /\ (mileQ q <= mileQ c)%Q).
    { rewrite Hhi, Hq. cbn [Math_max le].
      destruct (Qle_bool (mileQ hi) (mileQ q)) eqn:E.
      - apply Qle_bool_iff in E. exists q. rewrite Hq.
        repeat split; auto. apply Qle_refl.
      - exists hi. rewrite Hhi. repeat split; auto; [apply Qle_refl|].
        destruct (Qlt_le_dec (mileQ q) (mileQ hi)) as [H|H]; [lra|].
        apply Qle_bool_iff in H. congruence. }
    destruct Hstep as (c & Hc & -> & Hle1 & Hle2).
    assert (Hcfin : mile_est c = Fin (mileQ c)) by (destruct Hc as [->| ->]; assumption).
    destruct (IH Hl' c Hcfin) as (hi' & Hin & Hfold & Hle & Hall).
    exists hi'. split.
    { destruct Hin as [->|Hin]; [|right; apply elem_of_cons; now right].
      destruct Hc as [->| ->]; [now left | right; apply elem_of_cons; now left]. }
    split; [exact Hfold|]. split; [lra|].
    intros p Hp. apply elem_of_cons in Hp as [->|Hp]; [lra | now apply Hall].
Qed.

Lemma fold_min (l : list Point) :
  finite_miles l ->
  forall lo : Point,
    mile_est lo = Fin (mileQ lo) ->
    exists lo', (lo' = lo \/ lo' ∈ l) /\
                fold_left (fun mn p => Math_min mn (mile_est p)) l (mile_est lo)
                = mile_est lo' /\
                (mileQ lo' <= mileQ lo)%Q /\
                forall p, p ∈ l -> (mileQ lo' <= mileQ p)%Q.
Proof.
  induction l as [|q l IH]; intros Hl lo Hlo; cbn [fold_left].
  - exists lo. split; [now left|]. split; [reflexivity|]. split; [apply Qle_refl|].
    intros p Hp. inversion Hp.
  - assert (Hq : mile_est q = Fin (mileQ q)) by (apply Hl, elem_of_cons; now left).
    assert (Hl' : finite_miles l) by (intros x Hx; apply Hl, elem_of_cons; now right).
    assert (Hstep : exists c, (c = lo \/ c = q) /\
                              Math_min (mile_est lo) (mile_est q) = mile_est c /\
                              (mileQ c <= mileQ lo)%Q /\ (mileQ c <= mileQ q)%Q).
    { rewrite Hlo, Hq. cbn [Math_min le].
      destruct (Qle_bool (mileQ lo) (mileQ q)) eqn:E.
      - apply Qle_bool_iff in E. exists lo. rewrite Hlo.
        repeat split; auto. apply Qle_refl.
      - exists q. rewrite Hq. repeat split; auto; [|apply Qle_refl].
        destruct (Qlt_le_dec (mileQ q) (mileQ lo)) as [H|H]; [lra|].
        apply Qle_bool_iff in H. congruence. }
    destruct Hstep as (c & Hc & -> & Hle1 & Hle2).
    assert (Hcfin : mile_est c = Fin (mileQ c)) by (destruct Hc as [->| ->]; assumption).
    destruct (IH Hl' c Hcfin) as (lo' & Hin & Hfold & Hle & Hall).
    exists lo'. split.
    { destruct Hin as [->|Hin]; [|right; apply elem_of_cons; now right].
      destruct Hc as [->| ->]; [now left | right; apply elem_of_cons; now left]. }
    split; [exact Hfold|]. split; [lra|].
    intros p Hp. apply elem_of_cons in Hp as [->|Hp]; [lra | now apply Hall].
Qed.

(** X23.  After [loadPoints], [trailMinMiles] and [trailMaxMiles] are
    the miles of two loaded points that bound the mile of every loaded point,
    and [trailTotalMiles] is their difference; when no point was loaded they
    are [Infinity] and [-Infinity], and [trailTotalMiles] is [null]. *)
Theorem loadPoints_trail (data : list Store.Point) :
  let L := loadPoints toUpperCase Number_toString data in
  match allPoints L with
  | [] =>
      trailMinMiles L = PInf /\ trailMaxMiles L = NInf /\ trailTotalMiles L = None
  | _ :: _ =>
      exists lo hi : Point,
        lo ∈ allPoints L /\ hi ∈ allPoints L /\
        trailMinMiles L = Fin (mileQ lo) /\ trailMaxMiles L = Fin (mileQ hi) /\
        (forall p, p ∈ allPoints L -> (mileQ lo <= mileQ p <= mileQ hi)%Q) /\
        trailTotalMiles L = Some (fl (mileQ hi - mileQ lo))
  end.
Proof.
  cbv zeta.
  assert (Hfin : finite_miles (allPoints (loadPoints toUpperCase Number_toString data))).
  { intros p Hp. apply usable_finite. eapply allPoints_usable. exact Hp. }
  unfold loadPoints in *. cbn [allPoints trailMinMiles trailMaxMiles trailTotalMiles] in *.
  destruct (filter (fun p => usable p = true) (map (convert toUpperCase Number_toString) data))
    as [|p0 rest] eqn:Hall.
  - cbn. auto.
  - cbn [fold_left].
    assert (H0 : mile_est p0 = Fin (mileQ p0)) by (apply Hfin, elem_of_cons; now left).
    assert (Hrest : finite_miles rest) by (intros x Hx; apply Hfin, elem_of_cons; now right).
    assert (Emax : Math_max NInf (mile_est p0) = mile_est p0) by (rewrite H0; reflexivity).
    assert (Emin : Math_min PInf (mile_est p0) = mile_est p0) by (rewrite H0; reflexivity).
    rewrite Emax, Emin.
    destruct (fold_max rest Hrest p0 H0) as (hi & Hhi & -> & Hle_hi & Hall_hi).
    destruct (fold_min rest Hrest p0 H0) as (lo & Hlo & -> & Hle_lo & Hall_lo).
    assert (Hhi_in : hi ∈ p0 :: rest)
      by (destruct Hhi as [->|?]; apply elem_of_cons; auto).
    assert (Hlo_in : lo ∈ p0 :: rest)
      by (destruct Hlo as [->|?]; apply elem_of_cons; auto).
    exists lo, hi. rewrite (Hfin lo Hlo_in), (Hfin hi Hhi_in).
    split; [exact Hlo_in|]. split; [exact Hhi_in|].
    split; [reflexivity|]. split; [reflexivity|]. split; [|reflexivity].
    intros p Hp. apply elem_of_cons in Hp as [->|Hp]; [lra|].
    split; [now apply Hall_lo | now apply Hall_hi].
Qed.

(** *** Points without [mile_est] *)

Lemma convert_without_estimate (p : Store.Point) :
  p_mile_est p = FAbsent -> usable (convert toUpperCase Number_toString p) = false.
Proof.
  intros H. unfold usable, convert. cbn [mile_est]. rewrite H. cbn [Number_of Number_isFinite].
  now rewrite andb_false_r.
Qed.

(** X24.  [loadPoints] reads [mile_est] only.  Every point that
    [normalize-points-mile-only.js] writes has lost [mile_est], so from a
    normalized file [loadPoints] loads no point at all: the index is empty,
    [trailTotalMiles] is [null], and the nearest-point lookup returns
    [null] for every mile. *)
Theorem loadPoints_after_normalize (points outs : list Store.Point) (idx : nat) :
  NormalizeRun.normalizeFrom idx points = Ok outs ->
  let L := loadPoints toUpperCase Number_toString outs in
  allPoints L = [] /\ allPointsSortedByMile L = [] /\ trailTotalMiles L = None /\
  forall t, getNearestPointByMile (allPointsSortedByMile L) t = Returns None.
Proof.
  intros H. destruct (NormalizeFacts.normalizeFrom_inv points idx outs H) as [HF _].
  assert (Hall : allPoints (loadPoints toUpperCase Number_toString outs) = []).
  { unfold loadPoints. cbn [allPoints]. clear H.
    induction HF as [|pt out pts outs' [[_ Hest] _] _ IH]; [reflexivity|].
    cbn [map]. rewrite filter_cons_False; [exact IH|].
    rewrite (convert_without_estimate out Hest). discriminate. }
  cbv zeta. unfold loadPoints in *. cbn [allPoints allPointsSortedByMile trailTotalMiles] in *.
  rewrite Hall. cbn. auto.
Qed.

End Loading.

Lemma loadPoints_index_witness :
  let L := loadPoints (fun s => s) String_of_num
             [Samples.legacy_point; Samples.second_point] in
  allPointsSortedByMile L ≡ₚ allPoints L /\
  finite_miles (allPointsSortedByMile L) /\
  sorted_by_mile (allPointsSortedByMile L) /\
  (forall p, p ∈ allPointsSortedByMile L ->
             state p <> ""%string /\
             Number_isFinite (lat p) = true /\ Number_isFinite (lon p) = true) /\
  (Z.of_nat 2 <= 2 ^ 30 ->
   forall t : Q,
     match allPoints L with
     | [] => getNearestPointByMile (allPointsSortedByMile L) (Fin t) = Returns None
     | _ :: _ =>
         exists p, getNearestPointByMile (allPointsSortedByMile L) (Fin t)
                   = Returns (Some p) /\
                   nearest (allPointsSortedByMile L) t p
     end).
Proof.
  apply (loadPoints_index (fun s => s) String_of_num
           [Samples.legacy_point; Samples.second_point]).
  intros p Hp.
  repeat (apply elem_of_cons in Hp as [->|Hp]; [vm_compute; reflexivity|]).
  inversion Hp.
Defined.

Lemma loadPoints_after_normalize_witness :
  let L := loadPoints (fun s => s) String_of_num
             [Store.mkPoint (Val "GA_0010_0") Absent (FNum (Fin 10)) FAbsent
                (FNum (Fin (346 # 10))) (FNum (Fin (- 842 # 10))) (Val "GA")] in
  allPoints L = [] /\ allPointsSortedByMile L = [] /\ trailTotalMiles L = None /\
  forall t, getNearestPointByMile (allPointsSortedByMile L) t = Returns None.
Proof.
  apply (loadPoints_after_normalize (fun s => s) String_of_num [Samples.legacy_point] _ 0).
  reflexivity.
Defined.

(** *** The points of a state *)

Lemma groupByState_lookup (l : list Point) (st : string) :
  forall m : gmap string (list Point),
    fold_left (fun m p => <[ state p := default [] (m !! state p) ++ [p] ]> m) l m !! st
    = match filter (fun p => state p = st) l with
      | [] => m !! st
      | group => Some (default [] (m !! st) ++ group)
      end.
Proof.
  induction l as [|p l IH]; intros m; cbn [fold_left]; [reflexivity|].
  rewrite IH, filter_cons. destruct (decide (state p = st)) as [E|Hne].
  - rewrite E, lookup_insert_eq. cbn [default].
    destruct (filter (fun p => state p = st) l) as [|q qs]; cbn [app].
    + reflexivity.
    + unfold Datatypes.id. now rewrite <- app_assoc.
  - rewrite lookup_insert_ne by exact Hne. reflexivity.
Qed.

(** X25.  [pointsByState.get(st)] is the points of state [st] sorted
    by mile, and [undefined] when there is none: a rearrangement of those
    points, in ascending order of mile when the miles are finite numbers
    (binary64 numbers, as every number of the page is). *)
Theorem pointsByState_lookup (all : list Point) (st : string) :
  buildPointsByState all !! st
  = match filter (fun p => state p = st) all with
    | [] => None
    | group => Some (sort_by_mile group)
    end /\
  forall group, buildPointsByState all !! st = Some group ->
                group ≡ₚ filter (fun p => state p = st) all /\
                (finite_miles all -> binary64_miles all -> sorted_by_mile group).
Proof.
  assert (H : buildPointsByState all !! st
              = match filter (fun p => state p = st) all with
                | [] => None
                | group => Some (sort_by_mile group)
                end).
  { unfold buildPointsByState, groupByState. rewrite lookup_fmap, groupByState_lookup.
    rewrite lookup_empty. destruct (filter (fun p => state p = st) all); reflexivity. }
  split; [exact H|]. intros group Hg. rewrite H in Hg.
  destruct (filter (fun p => state p = st) all) as [|q qs] eqn:Hf; [discriminate|].
  assert (Eg : group = sort_by_mile (q :: qs)) by congruence. subst group. clear Hg.
  split; [apply sort_by_mile_perm|].
  intros Hfin Hbin. apply ascending_sorted_by_mile, sort_by_mile_ascending.
  - intros p Hp. apply Hfin. rewrite <- Hf in Hp.
    apply list_elem_of_filter in Hp. tauto.
  - intros p Hp. apply Hbin. rewrite <- Hf in Hp.
    apply list_elem_of_filter in Hp. tauto.
Qed.

(** *** The normals by point id *)

Lemma indexNormals_fold (pts : list (option Entry)) (s : string) :
  forall m : gmap string Extremes.Normals,
    fold_left
      (fun m p =>
         match p with
         | Some e =>
             match e_id e with
             | Val s =>
                 if String.eqb s "" then m
                 else
                   match e_hi e, e_lo e with
                   | Some hi, Some lo => <[ s := Extremes.mkNormals hi lo ]> m
                   | _, _ => m
                   end
             | _ => m
             end
         | None => m
         end) pts m !! s
    = match last (omap (indexed s) pts) with
      | Some n => Some n
      | None => m !! s
      end.
Proof.
  induction pts as [|p pts IH]; intros m; cbn [fold_left]; [reflexivity|].
  rewrite IH.
  change (omap (indexed s) (p :: pts))
    with (match indexed s p with
          | Some y => y :: omap (indexed s) pts
          | None => omap (indexed s) pts
          end).
  assert (Hlast : forall (n : Extremes.Normals) l d,
             match last (n :: l) with Some x => Some x | None => d end
             = match last l with Some x => Some x | None => Some n end).
  { intros n l d. destruct l as [|x l]; [reflexivity|].
    change (last (n :: x :: l)) with (last (x :: l)).
    destruct (last (x :: l)) eqn:Hl; [reflexivity|].
    apply last_None in Hl. discriminate. }
  destruct p as [e|]; [|reflexivity]. cbn [indexed].
  destruct (e_id e) as [| |s']; try reflexivity.
  destruct (String.eqb s' "") eqn:Hempty.
  { rewrite andb_false_r. destruct (e_hi e), (e_lo e); reflexivity. }
  destruct (e_hi e) as [hi|]; [|reflexivity].
  destruct (e_lo e) as [lo|]; [|reflexivity].
  cbn [negb]. rewrite andb_true_r.
  destruct (String.eqb s' s) eqn:Hs.
  - apply String.eqb_eq in Hs. subst s'. rewrite Hlast.
    destruct (last (omap (indexed s) pts)); [reflexivity|]. apply lookup_insert_eq.
  - apply String.eqb_neq in Hs.
    destruct (last (omap (indexed s) pts)); [reflexivity|]. now rewrite lookup_insert_ne.
Qed.

(** X26.  [normalsByPointId.get(s)] holds the profiles of the last element
    of [payload.points] that has the id [s] and arrays for [hi] and [lo],
    and nothing when there is no such element: an element that is [null],
    has no id or lacks one of the two arrays is skipped, and of two records
    with the same id the later one wins. *)
Theorem indexNormals_last (pts : list (option Entry)) (s : string) :
  indexNormals pts !! s = last (omap (indexed s) pts).
Proof.
  unfold indexNormals. rewrite indexNormals_fold, lookup_empty.
  destruct (last _); reflexivity.
Qed.

(** A record without its arrays does not replace an earlier one. *)
Example indexNormals_keeps_complete_record :
  indexNormals [Some (mkEntry (Val "a") (Some [Some (Fin 50)]) (Some [Some (Fin 30)]));
                Some (mkEntry (Val "a") None None); None] !! "a"%string
  = Some (Extremes.mkNormals [Some (Fin 50)] [Some (Fin 30)]).
Proof. reflexivity. Qed.

End LoaderFacts.

(** ** [js/app.js]: the planning average *)

Module PlanningFacts.
Import Js Store Extremes Calendar CalendarFacts Averages Planning.

Lemma observed_cons (key : Z * Z) (iso : IsoDate) (times : list IsoDate) (vals : list slot) :
  observed key (iso :: times) vals
  = (if decide (mmdd iso = key) then pushValue [] (first vals) else [])
    ++ observed key times (tail vals).
Proof.
  cbn [observed]. destruct (decide (mmdd iso = key)); [|reflexivity].
  destruct (first vals); reflexivity.
Qed.

Lemma pushValue_app (arr : list num) (v : slot) : pushValue arr v = arr ++ pushValue [] v.
Proof. destruct v; cbn [pushValue app]; [reflexivity | now rewrite app_nil_r]. Qed.

Lemma indexFrom_lookup (key : Z * Z) (times : list IsoDate) :
  forall (tmax tmin : list slot) (idx : gmap (Z * Z) Series),
    default ([], []) (indexFrom times tmax tmin idx !! key)
    = (fst (default ([], []) (idx !! key)) ++ observed key times tmax,
       snd (default ([], []) (idx !! key)) ++ observed key times tmin).
Proof.
  induction times as [|iso times IH]; intros tmax tmin idx.
  - cbn [indexFrom observed]. rewrite !app_nil_r.
    now destruct (default ([], []) (idx !! key)).
  - cbn [indexFrom]. rewrite IH, !observed_cons.
    destruct (decide (mmdd iso = key)) as [E|Hne].
    + rewrite E, lookup_insert_eq. cbn [default fst snd]. unfold Datatypes.id. cbn [fst snd].
      rewrite (pushValue_app _ (first tmax)), (pushValue_app _ (first tmin)).
      now rewrite <- !app_assoc.
    + rewrite lookup_insert_ne by exact Hne. reflexivity.
Qed.

Lemma window_centred (md : Z * Z) :
  calendar_day md = true -> centred_week md (mdWindowKeys md TYPICAL_WINDOW_DAYS) = true.
Proof.
  intros H. apply calendar_day_in_year in H.
  assert (Hall : forallb (fun md => centred_week md (mdWindowKeys md TYPICAL_WINDOW_DAYS))
                   year_days = true) by (vm_compute; reflexivity).
  rewrite forallb_forall in Hall. exact (Hall md H).
Qed.

Lemma window_values (histDaily : RawDaily) (keys : list (Z * Z)) :
  let idx := indexHistoricalByMonthDay histDaily in
  concat (map (fun k => fst (default ([], []) (idx !! k))) keys)
  = concat (map (fun k => observed k (time histDaily) (temperature_2m_max histDaily)) keys) /\
  concat (map (fun k => snd (default ([], []) (idx !! k))) keys)
  = concat (map (fun k => observed k (time histDaily) (temperature_2m_min histDaily)) keys).
Proof.
  cbv zeta. unfold indexHistoricalByMonthDay.
  split; f_equal; apply map_ext; intros k;
    rewrite indexFrom_lookup, lookup_empty; reflexivity.
Qed.

Lemma centred_week_calendar (md : Z * Z) (keys : list (Z * Z)) :
  centred_week md keys = true -> (2, 29) ∉ keys.
Proof.
  unfold centred_week. rewrite !andb_true_iff.
  intros [[[[_ _] Hcal] _] _] Hin. rewrite forallb_forall in Hcal.
  apply list_elem_of_In in Hin. apply Hcal in Hin. discriminate Hin.
Qed.

(** X27.  For a day of the year, the window of the planning average is
    seven different calendar days, one after the other around the year, with
    the day itself in the middle; February 29 is never one of them.  The two
    averages are the means of the highs and of the lows that are not [null]
    on the dates of the series that fall on those seven days. *)
Theorem planning_average (histDaily : RawDaily) (md : Z * Z) :
  calendar_day md = true ->
  centred_week md (mdWindowKeys md TYPICAL_WINDOW_DAYS) = true /\
  ((2, 29) ∉ mdWindowKeys md TYPICAL_WINDOW_DAYS) /\
  computePlanningAverageForMonthDay histDaily md TYPICAL_WINDOW_DAYS
  = (avg (concat (map (fun k => observed k (time histDaily)
                                   (temperature_2m_max histDaily))
                    (mdWindowKeys md TYPICAL_WINDOW_DAYS))),
     avg (concat (map (fun k => observed k (time histDaily)
                                   (temperature_2m_min histDaily))
                    (mdWindowKeys md TYPICAL_WINDOW_DAYS)))).
Proof.
  intros H. pose proof (window_centred md H) as Hw.
  split; [exact Hw|]. split; [exact (centred_week_calendar md _ Hw)|].
  unfold computePlanningAverageForMonthDay.
  destruct (window_values histDaily (mdWindowKeys md TYPICAL_WINDOW_DAYS)) as [-> ->].
  reflexivity.
Qed.

Lemma planning_average_witness :
  centred_week (3, 1) (mdWindowKeys (3, 1) TYPICAL_WINDOW_DAYS) = true /\
  ((2, 29) ∉ mdWindowKeys (3, 1) TYPICAL_WINDOW_DAYS) /\
  computePlanningAverageForMonthDay AveragesSamples.leap_series (3, 1) TYPICAL_WINDOW_DAYS
  = (avg (concat (map (fun k => observed k (time AveragesSamples.leap_series)
                                   (temperature_2m_max AveragesSamples.leap_series))
                    (mdWindowKeys (3, 1) TYPICAL_WINDOW_DAYS))),
     avg (concat (map (fun k => observed k (time AveragesSamples.leap_series)
                                   (temperature_2m_min AveragesSamples.leap_series))
                    (mdWindowKeys (3, 1) TYPICAL_WINDOW_DAYS)))).
Proof.
  apply (planning_average AveragesSamples.leap_series (3, 1)). reflexivity.
Defined.

(** The window of January 1 reaches back into December. *)
Example window_of_january_1 :
  mdWindowKeys (1, 1) TYPICAL_WINDOW_DAYS
  = [(12, 29); (12, 30); (12, 31); (1, 1); (1, 2); (1, 3); (1, 4)].
Proof. vm_compute. reflexivity. Qed.

End PlanningFacts.

(** ** [js/app.js]: the start date of a hike *)

Module DurationFacts.
Import Extremes Duration.

(** *** The civil calendar *)

Lemma year_span (y m d : Z) :
  1 <= m <= 12 ->
  365 <= days_from_civil (y + 1) m d - days_from_civil y m d <= 366.
Proof.
  intros Hm. unfold days_from_civil. cbv zeta.
  destruct (m <=? 2) eqn:E1; destruct (2 <? m) eqn:E2;
    try (apply Z.leb_le in E1); try (apply Z.leb_gt in E1);
    try (apply Z.ltb_lt in E2); try (apply Z.ltb_ge in E2); try lia.
  all: Z.div_mod_to_equations; lia.
Qed.

(** A day lies in its year. *)
Lemma year_of_day (z : Z) :
  days_from_civil (fst (fst (civil_from_days z))) 1 1 <= z
  < days_from_civil (fst (fst (civil_from_days z)) + 1) 1 1.
Proof.
  unfold civil_from_days. cbv zeta. cbn [fst snd].
  set (z' := z + 719468).
  set (era := z' / 146097).
  set (doe := z' - era * 146097).
  set (yoe := (doe - doe / 1460 + doe / 36524 - doe / 146096) / 365).
  set (doy := doe - (365 * yoe + yoe / 4 - yoe / 100)).
  set (mp := (5 * doy + 2) / 153).
  set (m := if mp <? 10 then mp + 3 else mp - 9).
  unfold days_from_civil. cbv zeta. cbn [Z.leb Z.ltb Z.compare Pos.compare Pos.compare_cont].
  set (c := if m <=? 2 then 1 else 0).
  assert (Hera : 0 <= doe < 146097) by (unfold doe, era; Z.div_mod_to_equations; lia).
  assert (Hyoe : 0 <= yoe <= 399) by (unfold yoe; Z.div_mod_to_equations; lia).
  assert (Hdoy : 0 <= doy <= 365) by (unfold doy, yoe; Z.div_mod_to_equations; lia).
  assert (Hc : c = if 306 <=? doy then 1 else 0).
  { unfold c, m, mp. destruct (306 <=? doy) eqn:E; [apply Z.leb_le in E | apply Z.leb_gt in E].
    - destruct ((5 * doy + 2) / 153 <? 10) eqn:E2; [apply Z.ltb_lt in E2 | apply Z.ltb_ge in E2].
      + exfalso. Z.div_mod_to_equations. lia.
      + destruct ((5 * doy + 2) / 153 - 9 <=? 2) eqn:E3; [reflexivity|].
        apply Z.leb_gt in E3. exfalso. Z.div_mod_to_equations. lia.
    - destruct ((5 * doy + 2) / 153 <? 10) eqn:E2; [apply Z.ltb_lt in E2 | apply Z.ltb_ge in E2].
      + destruct ((5 * doy + 2) / 153 + 3 <=? 2) eqn:E3; [|reflexivity].
        apply Z.leb_le in E3. exfalso. Z.div_mod_to_equations. lia.
      + exfalso. Z.div_mod_to_equations. lia. }
  rewrite Hc. clear Hc c m mp.
  destruct (306 <=? doy) eqn:E; [apply Z.leb_le in E | apply Z.leb_gt in E];
    unfold doy, yoe, doe, era, z' in *; Z.div_mod_to_equations; lia.
Qed.

(** The day number of the calendar date of a day is the day. *)
Lemma days_from_civil_of_day (z : Z) :
  let '(y, m, d) := civil_from_days z in days_from_civil y m d = z.
Proof.
  unfold civil_from_days. cbv zeta.
  set (z' := z + 719468).
  set (era := z' / 146097).
  set (doe := z' - era * 146097).
  set (yoe := (doe - doe / 1460 + doe / 36524 - doe / 146096) / 365).
  set (doy := doe - (365 * yoe + yoe / 4 - yoe / 100)).
  set (mp := (5 * doy + 2) / 153).
  set (m := if mp <? 10 then mp + 3 else mp - 9).
  assert (Hdoe : 0 <= doe < 146097) by (unfold doe, era; Z.div_mod_to_equations; lia).
  assert (Hyoe : 0 <= yoe <= 399) by (unfold yoe; Z.div_mod_to_equations; lia).
  assert (Hdoy : 0 <= doy <= 365) by (unfold doy, yoe; Z.div_mod_to_equations; lia).
  assert (Hmp : 0 <= mp <= 11) by (unfold mp; Z.div_mod_to_equations; lia).
  unfold days_from_civil. cbv zeta.
  assert (Hm : (if m <=? 2 then yoe + era * 400 + (if m <=? 2 then 1 else 0) - 1
                else yoe + era * 400 + (if m <=? 2 then 1 else 0)) = yoe + era * 400).
  { destruct (m <=? 2); lia. }
  rewrite Hm.
  assert (Hmp' : (if 2 <? m then m - 3 else m + 9) = mp).
  { unfold m. destruct (mp <? 10) eqn:E; [apply Z.ltb_lt in E | apply Z.ltb_ge in E].
    - destruct (2 <? mp + 3) eqn:E2; [lia | apply Z.ltb_ge in E2; lia].
    - destruct (2 <? mp - 9) eqn:E2; [apply Z.ltb_lt in E2; lia | lia]. }
  rewrite Hmp'.
  assert (Hera : (yoe + era * 400) / 400 = era) by (Z.div_mod_to_equations; lia).
  rewrite Hera.
  replace (yoe + era * 400 - era * 400) with yoe by lia.
  unfold doy, doe, z' in *. lia.
Qed.

(** A day of a month lies in the year. *)
Lemma within_year (y m d : Z) :
  1 <= m <= 12 -> 1 <= d <= 31 ->
  days_from_civil y 1 1 <= days_from_civil y m d < days_from_civil (y + 1) 1 1.
Proof.
  intros Hm Hd.
  assert (Hcases : m = 1 \/ m = 2 \/ m = 3 \/ m = 4 \/ m = 5 \/ m = 6 \/ m = 7 \/ m = 8 \/
                   m = 9 \/ m = 10 \/ m = 11 \/ m = 12) by lia.
  unfold days_from_civil. cbv zeta.
  repeat (destruct Hcases as [->|Hcases]); try subst m;
    cbn [Z.leb Z.ltb Z.compare Pos.compare Pos.compare_cont Z.add Z.sub Z.mul Z.opp
         Pos.add Pos.mul Z.pos_sub Pos.succ Pos.pred_double Z.double Z.succ_double
         Z.pred_double];
    Z.div_mod_to_equations; lia.
Qed.

(** X28.  On a day from 1970-01-01 on in the range of [Date], the start
    date that [resolveStartDateFromMonthDay] resolves for a month from 1 to
    12 and a day of the month from 1 to 31 is never in the past and at most
    365 days ahead; for the month and day of today it is today. *)
Theorem start_date_next_occurrence (today mm dd : Z) :
  0 <= today <= 99999000 -> 1 <= mm <= 12 -> 1 <= dd <= 31 ->
  let start := resolveStartDateFromMonthDay today (mm, dd) in
  today <= start <= today + 365 /\
  (monthDay today = (mm, dd) -> start = today).
Proof.
  intros _ Hm Hd. cbv zeta. unfold resolveStartDateFromMonthDay.
  pose proof (year_of_day today) as Hy.
  set (y := fst (fst (civil_from_days today))) in *.
  pose proof (within_year y mm dd Hm Hd) as Hc.
  pose proof (within_year (y + 1) mm dd Hm Hd) as Hc'.
  pose proof (year_span y mm dd Hm) as Hs.
  pose proof (year_span y 1 1 ltac:(lia)) as Hs1.
  split.
  - destruct (Z.ltb_spec (days_from_civil y mm dd) today); lia.
  - intros Htoday. pose proof (days_from_civil_of_day today) as Hr.
    unfold monthDay in Htoday. subst y.
    destruct (civil_from_days today) as [[y0 m0] d0]. cbn [fst] in *.
    injection Htoday as -> ->. rewrite Hr.
    now rewrite Z.ltb_irrefl.
Qed.

Lemma start_date_next_occurrence_witness :
  let start := resolveStartDateFromMonthDay (days_from_civil 2024 12 31) (1, 1) in
  days_from_civil 2024 12 31 <= start <= days_from_civil 2024 12 31 + 365 /\
  (monthDay (days_from_civil 2024 12 31) = (1, 1) -> start = days_from_civil 2024 12 31).
Proof.
  apply (start_date_next_occurrence (days_from_civil 2024 12 31) 1 1);
    [vm_compute; split; discriminate | lia | lia].
Defined.

End DurationFacts.

(** ** [js/app.js]: the cache *)

Module CacheFacts.
Import Js RoundFacts JsFacts Cache.

Lemma of_Z_safe (z : Z) : Z.abs z < 2 ^ 53 -> of_Z z = Fin (inject_Z z).
Proof. intros H. apply of_Z_integer. lia. Qed.

(** X29.  Round trip.  A value stored by [cacheSet] at a time [now]
    after the epoch is returned by [cacheGet] at a later time [now'] (below
    2^53) exactly when [now' - now <= ttlMs]; after that the answer is
    [null].  Storing under one key changes the answer for no other key. *)
Theorem cache_round_trip (Data : Type) (st : gmap string (Item Data)) (key : string) (v : Data)
    (now now' : Z) (ttl : Q) :
  0 < now -> now <= now' -> now' < 2 ^ 53 ->
  cacheGet Data key (Fin ttl) now' (cacheSet Data key v now st)
  = (if Qle_bool (inject_Z (now' - now)) ttl then Some v else None) /\
  (forall key', key' <> key ->
                cacheGet Data key' (Fin ttl) now' (cacheSet Data key v now st)
                = cacheGet Data key' (Fin ttl) now' st).
Proof.
  intros Hpos Hle Hmax. split.
  - unfold cacheGet, cacheSet. rewrite lookup_insert_eq.
    rewrite !of_Z_safe by lia. cbn [truthy].
    assert (Hnz : Qeq_bool (inject_Z now) 0 = false).
    { destruct (Qeq_bool (inject_Z now) 0) eqn:E; [|reflexivity].
      apply Qeq_bool_iff in E. unfold Qeq in E. cbn in E. lia. }
    rewrite Hnz. cbn [negb]. unfold gt, sub. cbn [neg add].
    assert (Ed : (inject_Z now' + - inject_Z now == inject_Z (now' - now))%Q).
    { unfold Z.sub. rewrite inject_Z_plus, inject_Z_opp. reflexivity. }
    assert (Hsmall : fl (inject_Z now' + - inject_Z now)
                     = Fin (inject_Z (now' - now))).
    { rewrite fl_small.
      - rewrite (round64_comp _ _ Ed), round64_integer by lia. reflexivity.
      - rewrite Ed.
        assert (HO : (inject_Z (2 ^ 53) < OVERFLOW)%Q) by reflexivity.
        assert (Hz : (- inject_Z (2 ^ 53) < inject_Z (now' - now) < inject_Z (2 ^ 53))%Q).
        { rewrite <- inject_Z_opp, <- !Zlt_Qlt. lia. }
        generalize dependent (inject_Z (2 ^ 53)). generalize OVERFLOW. intros. lra. }
    rewrite Hsmall. cbn [lt].
    destruct (Qle_bool (inject_Z (now' - now)) ttl); reflexivity.
  - intros key' Hne. unfold cacheGet, cacheSet. now rewrite lookup_insert_ne.
Qed.

Lemma cache_round_trip_witness :
  cacheGet nat "forecast:p" FORECAST_TTL_MS 1700000600000
    (cacheSet nat "forecast:p" 7%nat 1700000000000 ∅)
  = (if Qle_bool (inject_Z (1700000600000 - 1700000000000)) (inject_Z (30 * 60 * 1000))
     then Some 7%nat else None) /\
  (forall key', key' <> "forecast:p"%string ->
                cacheGet nat key' FORECAST_TTL_MS 1700000600000
                  (cacheSet nat "forecast:p" 7%nat 1700000000000 ∅)
                = cacheGet nat key' FORECAST_TTL_MS 1700000600000 ∅).
Proof.
  apply (cache_round_trip nat ∅ "forecast:p" 7%nat 1700000000000 1700000600000
           (inject_Z (30 * 60 * 1000))); lia.
Defined.

End CacheFacts.

(** ** Retries: every call settles *)

Module RetryTotalFacts.
Import Js Http Retry RetryFacts RetryTotal.

Lemma fetchWithRetry_settles_from (o : Options) (net : Network) (first : nat) :
  forall i : nat,
    (i <= maxRetries o)%nat ->
    retryable_failures net first (maxRetries o - i) ->
    settled o net first
      (fst (fetchWithRetry o net first)) (snd (fetchWithRetry o net first)).
Proof.
  induction i as [|i IH]; intros Hi Hfail.
  - rewrite Nat.sub_0_r in Hfail.
    rewrite (fetchWithRetry_at o net first (maxRetries o) (le_n _) Hfail).
    rewrite Nat.sub_diag. cbn [fetchWithRetry_loop requests slept].
    exists (maxRetries o). rewrite Nat.eqb_refl, orb_true_r.
    destruct (ok (net (first + maxRetries o)%nat)) eqn:Hok; cbn [fst snd requests slept];
      (split; [reflexivity|]); (split; [lia|]); (split; [reflexivity|]);
      (split; [exact Hfail|]); auto.
  - set (n := (maxRetries o - S i)%nat) in *.
    destruct (ok (net (first + n)%nat)) eqn:Hok.
    + rewrite (fetchWithRetry_success o net first n ltac:(lia) Hfail Hok).
      exists n. cbn [fst snd requests slept].
      split; [reflexivity|]. split; [lia|]. split; [reflexivity|].
      split; [exact Hfail|]. auto.
    + destruct (retryable (net (first + n)%nat)) eqn:Hr.
      * apply IH; [lia|].
        intros a Ha. destruct (Nat.eq_dec a n) as [->|Hne]; [auto|].
        apply Hfail. lia.
      * rewrite (fetchWithRetry_fatal o net first n ltac:(lia) Hfail Hok Hr).
        exists n. cbn [fst snd requests slept].
        split; [reflexivity|]. split; [lia|]. split; [reflexivity|].
        split; [exact Hfail|]. auto.
Qed.

(** X30.  A call of [fetchWithRetry] whose [maxRetries] is a natural
    number, as the default 8 of the calls of the script is, settles: it sends
    at least one request and at most [maxRetries + 1], sleeps one delay after
    each request but the last, and the last response decides: a 2xx response
    is returned, any other is thrown, and it is the last because it is 2xx,
    because its status is not retryable, or because it answers attempt number
    [maxRetries].  For such a [maxRetries] the
    [throw new Error("Retry exhausted")] after the loop is not reached. *)
Theorem fetchWithRetry_settles (o : Options) (net : Network) (first : nat) :
  let r := fst (fetchWithRetry o net first) in
  let t := snd (fetchWithRetry o net first) in
  settled o net first r t /\
  r <> Throw RetryExhausted /\
  (1 <= requests t <= S (maxRetries o))%nat /\
  length (slept t) = (requests t - 1)%nat.
Proof.
  cbv zeta.
  assert (H : settled o net first
                (fst (fetchWithRetry o net first)) (snd (fetchWithRetry o net first))).
  { apply (fetchWithRetry_settles_from o net first (maxRetries o) (le_n _)).
    rewrite Nat.sub_diag. intros a Ha. lia. }
  split; [exact H|].
  destruct H as (n & Hreq & Hn & Hslept & _ & Hres).
  split; [|split].
  - intros E. rewrite E in Hres. destruct Hres as [Hres _]. discriminate.
  - lia.
  - rewrite Hslept, Hreq. unfold delays. rewrite length_map, length_seq. lia.
Qed.

(** With the defaults, as the script calls it, a call sends at most nine
    requests. *)
Example fetchWithRetry_default_requests (net : Network) (first : nat) :
  (requests (snd (fetchWithRetry defaults net first)) <= 9)%nat.
Proof.
  destruct (fetchWithRetry_settles_from defaults net first (maxRetries defaults) (le_n _))
    as (n & Hreq & Hn & _).
  { rewrite Nat.sub_diag. intros a Ha. lia. }
  cbn [maxRetries defaults] in Hn. lia.
Qed.

End RetryTotalFacts.
